(** * EUR/USD signal bot: the computational core, embedded in Rocq

    The development follows [src/utils/simulation.ts] (resampling, the
    sentiment singleton, the indicator pass, the scorer and the resolver),
    the type declarations of the repository ([Candle], [Signal], [NewsItem])
    and the bar-close handler and resolution timer of the [App] component.

    Conventions of the embedding.
    - A JavaScript [number] that carries a price, a score or an indicator is
      a rational ([Q], exact arithmetic): rounding, [NaN] and the infinities
      of IEEE doubles are outside the model.  The concrete inputs used below
      are small integers and short decimals; the scores they produce are
      integers and every comparison the code makes on them comes out the
      same on doubles.
    - A [number] that carries a Unix timestamp or a count of minutes is an
      integer ([Z]); the one place where the source can produce [NaN] from
      such a value ([parseInt]) returns an [option].
    - An optional field ([x?: T]) and [undefined] are [option]; the
      truthiness tests of the source ([!x], [x || d], [x ? a : b]) are the
      functions [falsy], [orElse] and [truthy] below: a present number is
      falsy exactly when it is zero.
    - [Math.sqrt] has no rational counterpart; the indicator pass takes it as
      the parameter [Math_sqrt].
    - [Date.now()], [Math.random()] and [toLocaleTimeString] are read from an
      explicit environment record; the trained network of tfjs is an oracle
      stored in [LSTMModelData]. *)

From Stdlib Require Import QArith Qabs Qround Qminmax Lqa ZArith String Ascii List.
From stdpp Require Import gmap strings list sorting pretty.

Local Open Scope Z_scope.
Local Open Scope nat_scope.

(** ** Numbers *)

Module Num.

Definition gt (a b : Q) : bool := if Qlt_le_dec b a then true else false.
Definition lt (a b : Q) : bool := if Qlt_le_dec a b then true else false.
Definition ge (a b : Q) : bool := Qle_bool b a.
Definition le (a b : Q) : bool := Qle_bool a b.

(** [!x] on a [number | undefined]. *)
Definition falsy (x : option Q) : bool :=
  match x with
  | None => true
  | Some v => Qeq_bool v 0
  end.

Definition truthy (x : option Q) : bool := negb (falsy x).

(** [x || d] on a [number | undefined]. *)
Definition orElse (x : option Q) (d : Q) : Q :=
  match x with
  | None => d
  | Some v => if Qeq_bool v 0 then d else v
  end.

(** [a || d] on a plain [number]. *)
Definition orNum (a d : Q) : Q := if Qeq_bool a 0 then d else a.

Definition Math_abs (x : Q) : Q := Qabs x.
Definition Math_max (a b : Q) : Q := if Qlt_le_dec a b then b else a.
Definition Math_min (a b : Q) : Q := if Qlt_le_dec b a then b else a.
Definition Math_floor (x : Q) : Z := Qfloor x.

(** [Math.max(...xs)] and [Math.min(...xs)] on a non-empty array; the
    source never spreads an empty one (on which JavaScript answers an
    infinity, here the default [0]). *)
Definition Math_max_list (xs : list Q) : Q :=
  match xs with
  | [] => 0
  | x :: rest => fold_left Math_max rest x
  end.

Definition Math_min_list (xs : list Q) : Q :=
  match xs with
  | [] => 0
  | x :: rest => fold_left Math_min rest x
  end.

(** [xs.reduce((a, b) => a + b, 0)]. *)
Definition sum (xs : list Q) : Q := fold_left Qplus xs 0%Q.

(** [x.toFixed(0)]: nearest integer, ties away from zero, sign kept. *)
Definition toFixed0 (x : Q) : string :=
  if Qlt_le_dec x 0
  then "-" +:+ pretty (Qfloor (- x + (1 # 2)))
  else pretty (Qfloor (x + (1 # 2))).

End Num.

(** ** Data model (the repository's type declarations) *)

Module Macd.
Record t := mk { line : Q; signal : Q; hist : Q }.
End Macd.

Module Bollinger.
Record t := mk { upper : Q; middle : Q; lower : Q }.
End Bollinger.

Module Candle.
Record t := mk {
  time : string;
  open : Q;
  high : Q;
  low : Q;
  close : Q;
  volume : Q;
  timestamp : Z;
  smaFast : option Q;
  smaSlow : option Q;
  ema200 : option Q;
  macd : option Macd.t;
  bollinger : option Bollinger.t;
  adx : option Q;
  atr : option Q;
  rsi : option Q;
  isNewsCandle : option bool
}.

(** A bar as the loaders and the resampler build it: the seven base
    fields, every optional field absent. *)
Definition bare (tm : string) (o h l c v : Q) (ts : Z) : t :=
  mk tm o h l c v ts None None None None None None None None None.

(** [{ ...candle, macd, bollinger, ema200, adx, atr, rsi }]. *)
Definition withIndicators (c : t) (m : option Macd.t)
    (b : option Bollinger.t) (e200 adxV atrV rsiV : option Q) : t :=
  mk (time c) (open c) (high c) (low c) (close c) (volume c) (timestamp c)
     (smaFast c) (smaSlow c) e200 m b adxV atrV rsiV (isNewsCandle c).
End Candle.

Inductive Sentiment := POSITIVE | NEGATIVE | NEUTRAL.
Inductive Impact := HIGH | MEDIUM | LOW.

Global Instance Sentiment_eq_dec : EqDecision Sentiment.
Proof. solve_decision. Defined.
Global Instance Impact_eq_dec : EqDecision Impact.
Proof. solve_decision. Defined.

Module NewsItem.
Record t := mk {
  headline : string;
  sentiment : Sentiment;
  impact : Impact;
  timestamp : Z;
  source : string
}.
End NewsItem.

Inductive Direction := CALL | PUT.
Inductive Status := PENDING | WIN | LOSS.
Inductive Strength := WEAK | MODERATE | STRONG | MAX.

Global Instance Status_eq_dec : EqDecision Status.
Proof. solve_decision. Defined.
Global Instance Strength_eq_dec : EqDecision Strength.
Proof. solve_decision. Defined.
Global Instance Direction_eq_dec : EqDecision Direction.
Proof. solve_decision. Defined.

Module Signal.
Record t := mk {
  id : string;
  timestamp : Z;
  timestampStr : string;
  type : Direction;
  price : Q;
  exitPrice : option Q;
  confidence : Q;
  timeframe : string;
  regime : string;
  status : Status;
  pnl : option Q;
  strategy : option string;
  aiPrediction : option Q;
  signalStrength : option Strength;
  aiConfidenceScore : option Q;
  newsContext : option string
}.

(** [{ ...sig, status, pnl, exitPrice }]. *)
Definition resolved (s : t) (st : Status) (p : Q) (exit : Q) : t :=
  mk (id s) (timestamp s) (timestampStr s) (type s) (price s) (Some exit)
     (confidence s) (timeframe s) (regime s) st (Some p) (strategy s)
     (aiPrediction s) (signalStrength s) (aiConfidenceScore s)
     (newsContext s).
End Signal.

(** What the source reads from the outside world when it builds a signal or
    resolves one. *)
Module Env.
Record t := mk {
  now : Z;                    (* Date.now() *)
  randomSuffix : string;      (* Math.random().toString(36).substr(2,5) *)
  localeTimeString : string   (* new Date().toLocaleTimeString() *)
}.
End Env.

(** ** formatToIST *)

Definition twoDigits (n : Z) : string :=
  if (n <? 10)%Z then "0" +:+ pretty n else pretty n.

(** [toLocaleTimeString('en-GB', { timeZone: 'Asia/Kolkata', hour: '2-digit',
    minute: '2-digit', hour12: false })]: wall-clock [HH:MM] at UTC+05:30. *)
Definition formatToIST (timestamp : Z) : string :=
  let minutes := (((timestamp + 19800000) / 60000) mod 1440)%Z in
  twoDigits (minutes / 60)%Z +:+ ":" +:+ twoDigits (minutes mod 60)%Z.

(** ** Sentiment engine: the [MarketSentiment] singleton

    The static field [score] is the state; each method takes it and returns
    the new one ([getScore] also returns the value read). *)

Module MarketSentiment.

Definition initial : Q := 0.

Definition impactVal (item : NewsItem.t) : Q :=
  let v0 := 0%Q in
  let v1 := if decide (NewsItem.impact item = HIGH) then 25%Q else v0 in
  let v2 := if decide (NewsItem.impact item = MEDIUM) then 15%Q else v1 in
  let v3 := if decide (NewsItem.impact item = LOW) then 5%Q else v2 in
  let v4 := if decide (NewsItem.sentiment item = NEGATIVE) then (- v3)%Q else v3 in
  if decide (NewsItem.sentiment item = NEUTRAL) then 0%Q else v4.

Definition addNews (score : Q) (item : NewsItem.t) : Q :=
  let score1 := (score + impactVal item)%Q in
  Num.Math_max (-100) (Num.Math_min 100 score1).

(** Returns the new state; the value handed to the caller is the same. *)
Definition getScore (score : Q) : Q :=
  let score1 := (score * 0.995)%Q in
  if Num.lt (Num.Math_abs score1) 1 then 0%Q else score1.


End MarketSentiment.

(** ** Resampler *)

Definition bucketOf (intervalMs : Z) (c : Candle.t) : Z :=
  (Candle.timestamp c / intervalMs * intervalMs)%Z.

(** One turn of the grouping loop: create the bucket's array on first use,
    then push the bar onto it. *)
Definition groupInsert (intervalMs : Z) (groups : gmap Z (list Candle.t))
    (c : Candle.t) : gmap Z (list Candle.t) :=
  let bucket := bucketOf intervalMs c in
  let groups1 :=
    match groups !! bucket with
    | None => <[bucket := []]> groups
    | Some _ => groups
    end in
  alter (λ g, (g ++ [c])%list) bucket groups1.

(** The body of the second loop, for the bucket [ts] holding [group].  On an
    empty group the source would fail on [group[0].open]; the grouping loop
    never leaves one (see [resample_buckets_nonempty]). *)
Definition aggregate (ts : Z) (group : list Candle.t) : option Candle.t :=
  match head group, last group with
  | Some first, Some final =>
      Some (Candle.bare (formatToIST ts)
              (Candle.open first)
              (Num.Math_max_list (Candle.high <$> group))
              (Num.Math_min_list (Candle.low <$> group))
              (Candle.close final)
              (fold_left (λ sum c, (sum + Candle.volume c)%Q) group 0%Q)
              ts)
  | _, _ => None
  end.

Definition groupAll (intervalMs : Z) (candles : list Candle.t)
    : gmap Z (list Candle.t) :=
  fold_left (groupInsert intervalMs) candles ∅.

(** [Array.from(groups.keys()).sort((a, b) => a - b)]. *)
Definition sortedBuckets (groups : gmap Z (list Candle.t)) : list Z :=
  merge_sort Z.le (map_to_list groups).*1.

(** [timeframeMinutes] is a positive whole number of minutes at every call
    site; the model is meant for those. *)
Definition resampleCandles (candles : list Candle.t) (timeframeMinutes : Z)
    : list Candle.t :=
  if decide (timeframeMinutes = 1%Z) then candles
  else
    let intervalMs := (timeframeMinutes * 60 * 1000)%Z in
    let groups := groupAll intervalMs candles in
    omap (λ ts, groups !! ts ≫= aggregate ts) (sortedBuckets groups).

(** ** Indicator pass *)

Definition calcEMA (val : Q) (prevEMA : option Q) (period : Q) : Q :=
  match prevEMA with
  | None => val
  | Some prev =>
      let k := (2 / (period + 1))%Q in
      (val * k + prev * (1 - k))%Q
  end.

Definition calcRMA (val : Q) (prevRMA : option Q) (period : Q) : Q :=
  match prevRMA with
  | None => val
  | Some prev => ((prev * (period - 1) + val) / period)%Q
  end.

(** [array.slice(from, to)] for [0 <= from <= to]. *)
Definition slice {A} (l : list A) (from to : nat) : list A :=
  take (to - from) (drop from l).

(** The variables that [calculateIndicators] declares outside its [map]
    callback and that the callback updates bar after bar. *)
Module Ind.
Record state := mk {
  ema12 : option Q;
  ema26 : option Q;
  macdSignalLine : option Q;
  ema200 : option Q;
  smoothTR : option Q;
  smoothPlusDM : option Q;
  smoothMinusDM : option Q;
  prevAdx : option Q;
  avgGain : option Q;
  avgLoss : option Q
}.

Definition init : state :=
  mk None None None None None None None None None None.
End Ind.

Definition macdFast : Q := 12.
Definition macdSlow : nat := 26.
Definition macdSignal : Q := 9.
Definition bbPeriod : nat := 20.
Definition bbMult : Q := 2.
Definition adxPeriod : nat := 14.
Definition rsiPeriod : nat := 14.

Definition QofNat (n : nat) : Q := inject_Z (Z.of_nat n).

(** The Bollinger block, which reads only the array and the index. *)
Definition bollingerAt (Math_sqrt : Q → Q) (array : list Candle.t)
    (index : nat) : option Bollinger.t :=
  if decide (bbPeriod ≤ index) then
    let window := slice array (index - bbPeriod + 1) (index + 1) in
    let closes := Candle.close <$> window in
    let mean := (fold_left (λ a b, a + b) closes 0 / QofNat bbPeriod)%Q in
    let variance :=
      (fold_left (λ a b, a + (b - mean) ^ 2) closes 0 / QofNat bbPeriod)%Q in
    let stdDev := Math_sqrt variance in
    Some (Bollinger.mk (mean + stdDev * bbMult)%Q mean
                       (mean - stdDev * bbMult)%Q)
  else None.

(** [initialSlice.reduce((acc, c, i) => acc + pick(c.close - array[i].close), 0)];
    the callback's [i] indexes [initialSlice], so [array[i]] is the bar just
    before [c].  [array[i]] exists whenever the source gets here. *)
Definition initialMoves (array initialSlice : list Candle.t) (pick : Q → Q)
    : Q :=
  fold_left
    (λ acc ic,
       match array !! (ic.1 : nat) with
       | Some before =>
           (acc + pick (Candle.close ic.2 - Candle.close before))%Q
       | None => acc
       end)
    (imap pair initialSlice) 0%Q.

Definition gainOf (chg : Q) : Q := if Num.gt chg 0 then chg else 0%Q.
Definition lossOf (chg : Q) : Q := if Num.lt chg 0 then Num.Math_abs chg else 0%Q.

(** The MACD block: updates [macdSignalLine] once the index reaches the slow
    period. *)
Definition macdAt (index : nat) (ema12 ema26 macdSignalLine : option Q)
    : option Q * option Macd.t :=
  if decide (macdSlow ≤ index) then
    let line := (Num.orElse ema12 0 - Num.orElse ema26 0)%Q in
    let sig := Some (calcEMA line macdSignalLine macdSignal) in
    (sig, Some (Macd.mk line (Num.orElse sig 0) (line - Num.orElse sig 0)%Q))
  else (macdSignalLine, None).

(** The callback of [candles.map((candle, index, array) => ...)]. *)
Definition indicatorStep (Math_sqrt : Q → Q) (array : list Candle.t)
    (index : nat) (st : Ind.state) (candle : Candle.t)
    : Ind.state * Candle.t :=
  let prev := if decide (index = 0) then None else array !! (index - 1) in
  (* 1. MACD *)
  let ema12 := Some (calcEMA (Candle.close candle) (Ind.ema12 st) macdFast) in
  let ema26 := Some (calcEMA (Candle.close candle) (Ind.ema26 st) (QofNat macdSlow)) in
  let '(macdSignalLine, macd) := macdAt index ema12 ema26 (Ind.macdSignalLine st) in
  (* 2. EMA 200 *)
  let ema200 := Some (calcEMA (Candle.close candle) (Ind.ema200 st) 200) in
  (* 3. Bollinger Bands *)
  let bollinger := bollingerAt Math_sqrt array index in
  (* 4. ADX & ATR *)
  let '(smoothTR, smoothPlusDM, smoothMinusDM, prevAdx, adxVal, atrVal) :=
    match prev with
    | Some prev =>
        let highLow := (Candle.high candle - Candle.low candle)%Q in
        let highClose := Num.Math_abs (Candle.high candle - Candle.close prev) in
        let lowClose := Num.Math_abs (Candle.low candle - Candle.close prev) in
        let tr := Num.Math_max (Num.Math_max highLow highClose) lowClose in
        let upMove := (Candle.high candle - Candle.high prev)%Q in
        let downMove := (Candle.low prev - Candle.low candle)%Q in
        let plusDM :=
          if Num.gt upMove downMove && Num.gt upMove 0 then upMove else 0%Q in
        let minusDM :=
          if Num.gt downMove upMove && Num.gt downMove 0 then downMove else 0%Q in
        let smoothTR := Some (calcRMA tr (Ind.smoothTR st) (QofNat adxPeriod)) in
        let smoothPlusDM :=
          Some (calcRMA plusDM (Ind.smoothPlusDM st) (QofNat adxPeriod)) in
        let smoothMinusDM :=
          Some (calcRMA minusDM (Ind.smoothMinusDM st) (QofNat adxPeriod)) in
        let atrVal := smoothTR in
        if decide (adxPeriod * 2 < index) then
          let plusDI :=
            (100 * Num.orElse smoothPlusDM 0 / Num.orElse smoothTR 1)%Q in
          let minusDI :=
            (100 * Num.orElse smoothMinusDM 0 / Num.orElse smoothTR 1)%Q in
          let dx :=
            (100 * Num.Math_abs (plusDI - minusDI)
               / Num.orNum (plusDI + minusDI) 1)%Q in
          let prevAdx := Some (calcRMA dx (Ind.prevAdx st) (QofNat adxPeriod)) in
          (smoothTR, smoothPlusDM, smoothMinusDM, prevAdx, prevAdx, atrVal)
        else
          (smoothTR, smoothPlusDM, smoothMinusDM, Ind.prevAdx st, None, atrVal)
    | None =>
        (Ind.smoothTR st, Ind.smoothPlusDM st, Ind.smoothMinusDM st,
         Ind.prevAdx st, None, None)
    end in
  (* 5. RSI *)
  let '(avgGain, avgLoss, rsiVal) :=
    match prev with
    | Some prev =>
        let change := (Candle.close candle - Candle.close prev)%Q in
        let gain := gainOf change in
        let loss := lossOf change in
        let '(avgGain, avgLoss) :=
          match Ind.avgGain st, Ind.avgLoss st with
          | Some g, Some l =>
              (Some ((g * (QofNat rsiPeriod - 1) + gain) / QofNat rsiPeriod)%Q,
               Some ((l * (QofNat rsiPeriod - 1) + loss) / QofNat rsiPeriod)%Q)
          | g, l =>
              if decide (index = rsiPeriod) then
                let initialSlice := slice array 1 (rsiPeriod + 1) in
                let initialGains := initialMoves array initialSlice gainOf in
                let initialLosses := initialMoves array initialSlice lossOf in
                (Some (initialGains / QofNat rsiPeriod)%Q,
                 Some (initialLosses / QofNat rsiPeriod)%Q)
              else (g, l)
          end in
        let rsiVal :=
          match avgGain, avgLoss with
          | Some g, Some l =>
              let rs := (g / Num.orNum l 0.0000001)%Q in
              Some (100 - 100 / (1 + rs))%Q
          | _, _ => None
          end in
        (avgGain, avgLoss, rsiVal)
    | None => (Ind.avgGain st, Ind.avgLoss st, None)
    end in
  (Ind.mk ema12 ema26 macdSignalLine ema200 smoothTR smoothPlusDM
          smoothMinusDM prevAdx avgGain avgLoss,
   Candle.withIndicators candle macd bollinger ema200 adxVal atrVal rsiVal).

(** [Array.prototype.map] walking the array from [index] on, the closure
    variables threaded as [st]. *)
Fixpoint indicatorLoop (Math_sqrt : Q → Q) (array : list Candle.t)
    (index : nat) (st : Ind.state) (rest : list Candle.t) : list Candle.t :=
  match rest with
  | [] => []
  | candle :: rest' =>
      let r := indicatorStep Math_sqrt array index st candle in
      r.2 :: indicatorLoop Math_sqrt array (S index) r.1 rest'
  end.

Definition calculateIndicators (Math_sqrt : Q → Q) (candles : list Candle.t)
    : list Candle.t :=
  indicatorLoop Math_sqrt candles 0 Ind.init candles.

(** ** The prediction oracle *)

Module LSTMModelData.
Record t := mk {
  (* [model.predict] on the normalised window, read back with [dataSync];
     [None] when tfjs throws *)
  model : list Q → option Q;
  min : Q;
  max : Q;
  windowSize : nat
}.
End LSTMModelData.

(** [l.slice(-n)]; [slice(-0)] is the whole array. *)
Definition sliceLast {A} (l : list A) (n : nat) : list A :=
  if decide (n = 0) then l else drop (length l - n) l.

(** Outer [None]: an exception; inner [None]: the [null] result. *)
Definition predictLSTM (modelData : LSTMModelData.t)
    (recentCandles : list Candle.t) : option (option Q) :=
  let min := LSTMModelData.min modelData in
  let max := LSTMModelData.max modelData in
  let windowSize := LSTMModelData.windowSize modelData in
  if decide (length recentCandles < windowSize) then Some None
  else
    let window := Candle.close <$> sliceLast recentCandles windowSize in
    let normalized := (λ p, (p - min) / (max - min))%Q <$> window in
    match LSTMModelData.model modelData normalized with
    | Some result => Some (Some (result * (max - min) + min)%Q)
    | None => None
    end.

(** ** Signal scorer *)

Module Analysis.
Record t := mk {
  signal : option Signal.t;
  regime : string;
  debug : option string
}.
End Analysis.

(** The scorer's local variables as they stand when the threshold is
    consulted. *)
Module Tally.
Record t := mk {
  callScore : Q;
  putScore : Q;
  strategyName : string;
  regime : string;
  sentimentContext : string;
  debugStr : string;
  aiPricePrediction : option Q;
  aiConfidence : Q
}.
End Tally.

Definition THRESHOLD : Q := 70.

Definition getStrength (score : Q) : Strength :=
  if Num.gt score 100 then MAX
  else if Num.gt score 85 then STRONG
  else if Num.gt score 70 then MODERATE
  else WEAK.

Definition addIf (cond : bool) (points : Q) (score : Q) : Q :=
  if cond then (score + points)%Q else score.

Definition nonEmpty (s : string) : bool := negb (String.eqb s "").

Inductive Trend := UP | DOWN | NEUTRAL_TREND.

(** The try/catch around [predictLSTM]. *)
Definition aiPrediction (candles : list Candle.t)
    (aiModelData : option LSTMModelData.t) : option Q :=
  match aiModelData with
  | Some md =>
      match predictLSTM md candles with
      | Some r => r
      | None => None
      end
  | None => None
  end.

(** Everything between the readiness guards and the threshold.  [score] is
    the sentiment singleton's state; the read decays it. *)
Definition tally (score : Q) (candles : list Candle.t)
    (last prev : Candle.t) (lastMacd prevMacd : Macd.t)
    (lastBB : Bollinger.t) (adx rsi : Q)
    (aiModelData : option LSTMModelData.t) : Tally.t * Q :=
  let close := Candle.close last in
  let aiPricePrediction := aiPrediction candles aiModelData in
  let aiTrend :=
    match aiPricePrediction with
    | Some p =>
        if Num.truthy (Some p)
        then (if Num.gt p close then UP else DOWN)
        else NEUTRAL_TREND
    | None => NEUTRAL_TREND
    end in
  let aiBullish := match aiTrend with UP => true | _ => false end in
  let aiBearish := match aiTrend with DOWN => true | _ => false end in
  (* regime detection *)
  let ema200 := Num.orElse (Candle.ema200 last) 0 in
  let regime :=
    if Num.gt adx 25 then
      (if Num.gt close ema200 then "STRONG_BULL_TREND" else "STRONG_BEAR_TREND")
    else if Num.lt adx 20 then "CHOPPY/SIDEWAYS"
    else "RANGING" in
  let callScore := 0%Q in
  let putScore := 0%Q in
  let strategyName := "" in
  (* 1. sentiment *)
  let sentimentScore := MarketSentiment.getScore score in
  let '(callScore, putScore, sentimentContext, regime) :=
    if Num.gt sentimentScore 5 then
      ((callScore + Num.Math_min sentimentScore 30)%Q, putScore,
       "Bullish Sentiment (+"
         +:+ pretty (Num.Math_floor (Num.Math_min sentimentScore 30)) +:+ ")",
       "NEWS_BULLISH")
    else if Num.lt sentimentScore (-5) then
      (callScore, (putScore + Num.Math_min (Num.Math_abs sentimentScore) 30)%Q,
       "Bearish Sentiment (+"
         +:+ pretty (Num.Math_floor
                       (Num.Math_min (Num.Math_abs sentimentScore) 30))
         +:+ ")",
       "NEWS_BEARISH")
    else (callScore, putScore, "", regime) in
  (* technicals *)
  let isOverbought := Num.gt rsi 70 in
  let isOversold := Num.lt rsi 30 in
  let isAboveEma := Num.gt close ema200 in
  let bullCross :=
    Num.lt (Macd.line prevMacd) (Macd.signal prevMacd)
    && Num.gt (Macd.line lastMacd) (Macd.signal lastMacd) in
  let bearCross :=
    Num.gt (Macd.line prevMacd) (Macd.signal prevMacd)
    && Num.lt (Macd.line lastMacd) (Macd.signal lastMacd) in
  let histImproving := Num.gt (Macd.hist lastMacd) (Macd.hist prevMacd) in
  let histDeclining := Num.lt (Macd.hist lastMacd) (Macd.hist prevMacd) in
  let bbLowerBreak := Num.lt close (Bollinger.lower lastBB) in
  let bbUpperBreak := Num.gt close (Bollinger.upper lastBB) in
  let bbMidCrossUp :=
    Num.lt (Candle.close prev) (Bollinger.middle lastBB)
    && Num.gt close (Bollinger.middle lastBB) in
  let bbMidCrossDown :=
    Num.gt (Candle.close prev) (Bollinger.middle lastBB)
    && Num.lt close (Bollinger.middle lastBB) in
  (* strategy A: trend following *)
  let '(callScore, putScore, strategyName) :=
    if Num.gt adx 25 then
      let '(callScore, strategyName) :=
        if isAboveEma then
          let callScore := addIf bullCross 25 callScore in
          let callScore := addIf bbMidCrossUp 20 callScore in
          let callScore := addIf (Num.gt rsi 50 && Num.lt rsi 70) 10 callScore in
          let callScore :=
            addIf (histImproving && Num.gt (Macd.hist lastMacd) 0) 5 callScore in
          (callScore,
           if Num.gt callScore 20 then "Trend Alpha" else strategyName)
        else (callScore, strategyName) in
      let '(putScore, strategyName) :=
        if negb isAboveEma then
          let putScore := addIf bearCross 25 putScore in
          let putScore := addIf bbMidCrossDown 20 putScore in
          let putScore := addIf (Num.lt rsi 50 && Num.gt rsi 30) 10 putScore in
          let putScore :=
            addIf (histDeclining && Num.lt (Macd.hist lastMacd) 0) 5 putScore in
          (putScore,
           if Num.gt putScore 20 then "Trend Alpha" else strategyName)
        else (putScore, strategyName) in
      (callScore, putScore, strategyName)
    else (callScore, putScore, strategyName) in
  (* strategy B: reversion *)
  let '(callScore, putScore, strategyName) :=
    if Num.le adx 30 then
      let callScore := addIf bbLowerBreak 30 callScore in
      let callScore := addIf isOversold 20 callScore in
      let callScore := addIf bullCross 10 callScore in
      let strategyName :=
        if Num.gt callScore 20 && negb (nonEmpty strategyName)
        then "BB Reversion" else strategyName in
      let putScore := addIf bbUpperBreak 30 putScore in
      let putScore := addIf isOverbought 20 putScore in
      let putScore := addIf bearCross 10 putScore in
      let strategyName :=
        if Num.gt putScore 20 && negb (nonEmpty strategyName)
        then "BB Reversion" else strategyName in
      (callScore, putScore, strategyName)
    else (callScore, putScore, strategyName) in
  (* AI confidence fusion *)
  let withLSTM (name : string) : string :=
    if nonEmpty name then name +:+ " + LSTM" else "LSTM Pure" in
  let '(callScore, putScore, strategyName, aiConfidence) :=
    match aiPricePrediction with
    | Some p =>
        if Num.truthy (Some p) then
          let diff := Num.Math_abs (p - close) in
          let threshold := (close * 0.0005)%Q in
          let ratio := Num.Math_min (diff / threshold) 2 in
          let aiConfidence := (ratio * 50)%Q in
          if aiBullish then
            ((callScore + aiConfidence)%Q, putScore, withLSTM strategyName,
             aiConfidence)
          else if aiBearish then
            (callScore, (putScore + aiConfidence)%Q, withLSTM strategyName,
             aiConfidence)
          else (callScore, putScore, strategyName, aiConfidence)
        else (callScore, putScore, strategyName, 0%Q)
    | None => (callScore, putScore, strategyName, 0%Q)
    end in
  let '(strategyName, debugStr) :=
    if nonEmpty sentimentContext then
      (if nonEmpty strategyName then strategyName +:+ " & News" else "News Event",
       " [" +:+ sentimentContext +:+ "]")
    else (strategyName, "") in
  let debugStr :=
    "Call: " +:+ Num.toFixed0 callScore +:+ ", Put: " +:+ Num.toFixed0 putScore
      +:+ " (Req: " +:+ Num.toFixed0 THRESHOLD +:+ ")" +:+ debugStr in
  (Tally.mk callScore putScore strategyName regime sentimentContext debugStr
            aiPricePrediction aiConfidence,
   sentimentScore).

(** The signal literal shared by the two emitting branches. *)
Definition mkSignal (env : Env.t) (ty : Direction) (winning : Q)
    (last : Candle.t) (timeframeStr : string) (t : Tally.t) : Signal.t :=
  Signal.mk
    ("sig_" +:+ pretty (Env.now env) +:+ "_" +:+ Env.randomSuffix env)
    (Env.now env)
    (Env.localeTimeString env)
    ty
    (Candle.close last)
    None
    (Num.Math_min (winning / 150) 0.99)
    timeframeStr
    (Tally.regime t)
    PENDING
    None
    (Some (if nonEmpty (Tally.strategyName t)
           then Tally.strategyName t else "Hybrid"))
    (Some (Num.orElse (Tally.aiPricePrediction t) 0))
    (Some (getStrength winning))
    (Some (Tally.aiConfidence t))
    (if nonEmpty (Tally.sentimentContext t)
     then Some (Tally.sentimentContext t) else None).

(** The threshold gate and the three [return]s that close [analyzeMarket]. *)
Definition emit (env : Env.t) (last : Candle.t) (timeframeStr : string)
    (t : Tally.t) : Analysis.t :=
  let callScore := Tally.callScore t in
  let putScore := Tally.putScore t in
  if Num.ge callScore THRESHOLD && Num.gt callScore putScore then
    Analysis.mk (Some (mkSignal env CALL callScore last timeframeStr t))
                (Tally.regime t) (Some (Tally.debugStr t))
  else if Num.ge putScore THRESHOLD && Num.gt putScore callScore then
    Analysis.mk (Some (mkSignal env PUT putScore last timeframeStr t))
                (Tally.regime t) (Some (Tally.debugStr t))
  else Analysis.mk None (Tally.regime t) (Some (Tally.debugStr t)).

(** What the readiness guards let through: the last two bars and the
    indicator values the scorer goes on to read. *)
Module Ready.
Record t := mk {
  last : Candle.t;
  prev : Candle.t;
  lastMacd : Macd.t;
  prevMacd : Macd.t;
  lastBB : Bollinger.t;
  adx : Q;
  rsi : Q
}.
End Ready.

Inductive Readiness :=
| GatheringData
| Calculating
| IsReady (r : Ready.t).

(** The two guards that open [analyzeMarket]. *)
Definition readiness (candles : list Candle.t) : Readiness :=
  if decide (length candles < 30) then GatheringData
  else
    match candles !! (length candles - 1), candles !! (length candles - 2) with
    | Some last, Some prev =>
        match Candle.macd last, Candle.macd prev, Candle.bollinger last,
              Candle.adx last, Candle.rsi last with
        | Some lm, Some pm, Some lb, Some adx, Some rsi =>
            if Num.falsy (Some adx) || Num.falsy (Some rsi)
               || Num.falsy (Candle.rsi prev)
            then Calculating
            else IsReady (Ready.mk last prev lm pm lb adx rsi)
        | _, _, _, _, _ => Calculating
        end
    | _, _ => Calculating
    end.

Definition tallyOf (score : Q) (candles : list Candle.t) (r : Ready.t)
    (aiModelData : option LSTMModelData.t) : Tally.t * Q :=
  tally score candles (Ready.last r) (Ready.prev r) (Ready.lastMacd r)
        (Ready.prevMacd r) (Ready.lastBB r) (Ready.adx r) (Ready.rsi r)
        aiModelData.

(** Returns the analysis and the sentiment singleton's state afterwards. *)
Definition analyzeMarket (env : Env.t) (score : Q) (candles : list Candle.t)
    (timeframeStr : string) (aiModelData : option LSTMModelData.t)
    : Analysis.t * Q :=
  match readiness candles with
  | GatheringData => (Analysis.mk None "GATHERING_DATA" None, score)
  | Calculating => (Analysis.mk None "CALCULATING" None, score)
  | IsReady r =>
      let '(t, score') := tallyOf score candles r aiModelData in
      (emit env (Ready.last r) timeframeStr t, score')
  end.

(** ** Signal resolver *)

Definition isDigit (c : ascii) : bool :=
  let n := nat_of_ascii c in (48 <=? n) && (n <=? 57).

Definition digitVal (c : ascii) : Z := Z.of_nat (nat_of_ascii c - 48).

Definition hexVal (c : ascii) : option Z :=
  let n := nat_of_ascii c in
  if (48 <=? n) && (n <=? 57) then Some (Z.of_nat (n - 48))
  else if (97 <=? n) && (n <=? 102) then Some (Z.of_nat (n - 87))
  else if (65 <=? n) && (n <=? 70) then Some (Z.of_nat (n - 55))
  else None.

(** The ASCII members of the white space that [parseInt] skips. *)
Definition isSpace (c : ascii) : bool :=
  let n := nat_of_ascii c in
  (n =? 9) || (n =? 10) || (n =? 11) || (n =? 12) || (n =? 13) || (n =? 32).

Fixpoint skipSpaces (s : string) : string :=
  match s with
  | String c rest => if isSpace c then skipSpaces rest else s
  | EmptyString => s
  end.

(** The longest prefix of digits in the radix, folded into a number;
    [None] when there is no digit at all. *)
Fixpoint digitsFrom (radix : Z) (digit : ascii → option Z) (s : string)
    (acc : option Z) : option Z :=
  match s with
  | String c rest =>
      match digit c with
      | Some d => digitsFrom radix digit rest (Some (default 0%Z acc * radix + d)%Z)
      | None => acc
      end
  | EmptyString => acc
  end.

Definition decVal (c : ascii) : option Z :=
  if isDigit c then Some (digitVal c) else None.

(** [parseInt(s)] with no radix argument; [None] is [NaN]. *)
Definition parseInt (s : string) : option Z :=
  let s1 := skipSpaces s in
  let '(sign, s2) :=
    match s1 with
    | String c rest =>
        if Ascii.eqb c "-" then ((-1)%Z, rest)
        else if Ascii.eqb c "+" then (1%Z, rest)
        else (1%Z, s1)
    | EmptyString => (1%Z, s1)
    end in
  let magnitude :=
    match s2 with
    | String c1 (String c2 rest) =>
        if Ascii.eqb c1 "0" && (Ascii.eqb c2 "x" || Ascii.eqb c2 "X")
        then digitsFrom 16 hexVal rest None
        else digitsFrom 10 decVal s2 None
    | _ => digitsFrom 10 decVal s2 None
    end in
  Z.mul sign <$> magnitude.

(** [s.endsWith(c)] for a one-character [c]. *)
Fixpoint endsWith (s : string) (c : ascii) : bool :=
  match s with
  | EmptyString => false
  | String a EmptyString => Ascii.eqb a c
  | String _ rest => endsWith rest c
  end.

(** [minutes] as the three statements leave it. *)
Definition expiryMinutes (timeframe : string) : option Z :=
  let minutes := Some 5%Z in
  let minutes := if endsWith timeframe "m" then parseInt timeframe else minutes in
  if endsWith timeframe "h" then Z.mul 60 <$> parseInt timeframe else minutes.

(** [elapsed >= duration]; a [NaN] duration compares false. *)
Definition isDue (now : Z) (sig : Signal.t) : bool :=
  match expiryMinutes (Signal.timeframe sig) with
  | Some minutes =>
      let duration := (minutes * 60 * 1000)%Z in
      let elapsed := (now - Signal.timestamp sig)%Z in
      (duration <=? elapsed)%Z
  | None => false
  end.

(** The callback of [signals.map(sig => ...)]. *)
Definition checkSignal (now : Z) (currentPrice : Q) (sig : Signal.t)
    : Signal.t :=
  if decide (Signal.status sig ≠ PENDING) then sig
  else if isDue now sig then
    let '(status, pnl) :=
      if bool_decide (Signal.type sig = CALL)
         && Num.gt currentPrice (Signal.price sig)
      then (WIN, 0.85%Q)
      else if bool_decide (Signal.type sig = PUT)
              && Num.lt currentPrice (Signal.price sig)
      then (WIN, 0.85%Q)
      else (LOSS, (-1)%Q) in
    Signal.resolved sig status pnl currentPrice
  else sig.

(** [Date.now()] is read inside the callback; one pass runs within a single
    clock reading [now]. *)
Definition checkSignals (now : Z) (signals : list Signal.t)
    (currentPrice : Q) : list Signal.t :=
  checkSignal now currentPrice <$> signals.

(** ** The [App] component: bar close, resolution timer, news

    [signalsRef.current] is assigned from the [signals] state by an effect
    after every commit, so the bar-close handler reads the committed signal
    list; the queued [setSignals(prev => [signal, ...prev])] updates of one
    pass are applied in order on top of it. *)

Module Timeframe.
Record t := mk { label : string; value : Z; id : string }.
End Timeframe.

Definition TIMEFRAMES : list Timeframe.t :=
  [ Timeframe.mk "5 min" 5 "5m";
    Timeframe.mk "15 min" 15 "15m";
    Timeframe.mk "30 min" 30 "30m";
    Timeframe.mk "45 min" 45 "45m";
    Timeframe.mk "1 hour" 60 "1h" ].

Definition isPendingFor (tfId : string) (s : Signal.t) : bool :=
  String.eqb (Signal.timeframe s) tfId && bool_decide (Signal.status s = PENDING).

(** [signalsRef.current.some(s => s.timeframe === tf.id && s.status === 'PENDING')]. *)
Definition hasActiveSignal (signalsRef : list Signal.t) (tfId : string) : bool :=
  existsb (isPendingFor tfId) signalsRef.

(** The callback of [activeTfs.forEach(tf => ...)].  The accumulator is the
    signal list with the updates queued so far and the sentiment state. *)
Definition analyzeTimeframe (Math_sqrt : Q → Q) (envOf : string → Env.t)
    (signalsRef : list Signal.t) (withIndicators : list Candle.t)
    (aiModel : option LSTMModelData.t) (acc : list Signal.t * Q)
    (tf : Timeframe.t) : list Signal.t * Q :=
  if hasActiveSignal signalsRef (Timeframe.id tf) then acc
  else
    let resampled := resampleCandles withIndicators (Timeframe.value tf) in
    let resampledWithInd := calculateIndicators Math_sqrt resampled in
    let r := analyzeMarket (envOf (Timeframe.id tf)) acc.2 resampledWithInd
                           (Timeframe.id tf) aiModel in
    match Analysis.signal r.1 with
    | Some signal =>
        if decide (Signal.signalStrength signal = Some WEAK) then (acc.1, r.2)
        else (signal :: acc.1, r.2)
    | None => (acc.1, r.2)
    end.

Module App.

Record state := mk {
  candlesRef : list Candle.t;
  signals : list Signal.t;
  sentiment : Q;                        (* MarketSentiment.score *)
  aiModelRef : option LSTMModelData.t
}.

Definition init : state := mk [] [] MarketSentiment.initial None.

Inductive event :=
| HistoryLoaded (histCandles : list Candle.t)
| ModelTrained (modelData : LSTMModelData.t)
| News (item : NewsItem.t)
(* the first trade of a new minute closes [completedCandle] *)
| BarClose (completedCandle : Candle.t) (envOf : string → Env.t)
(* the one-second timer, with the open bar's close as current price *)
| ResolutionTick (now : Z) (currentPrice : Q).

Definition onBarClose (Math_sqrt : Q → Q) (st : state)
    (completedCandle : Candle.t) (envOf : string → Env.t) : state :=
  let newHistory :=
    sliceLast (candlesRef st ++ [completedCandle])%list 3500 in
  let withIndicators := calculateIndicators Math_sqrt newHistory in
  let r :=
    fold_left
      (analyzeTimeframe Math_sqrt envOf (signals st) withIndicators
                        (aiModelRef st))
      TIMEFRAMES (signals st, sentiment st) in
  mk withIndicators r.1 r.2 (aiModelRef st).

Definition onResolutionTick (st : state) (now : Z) (currentPrice : Q)
    : state :=
  if decide (0 < length (candlesRef st))
  then mk (candlesRef st) (checkSignals now (signals st) currentPrice)
          (sentiment st) (aiModelRef st)
  else st.

Definition step (Math_sqrt : Q → Q) (st : state) (e : event) : state :=
  match e with
  | HistoryLoaded histCandles =>
      mk (calculateIndicators Math_sqrt histCandles) (signals st)
         (sentiment st) (aiModelRef st)
  | ModelTrained modelData =>
      mk (candlesRef st) (signals st) (sentiment st) (Some modelData)
  | News item =>
      mk (candlesRef st) (signals st)
         (MarketSentiment.addNews (sentiment st) item) (aiModelRef st)
  | BarClose completedCandle envOf =>
      onBarClose Math_sqrt st completedCandle envOf
  | ResolutionTick now currentPrice =>
      onResolutionTick st now currentPrice
  end.

Definition run (Math_sqrt : Q → Q) (events : list event) : state :=
  fold_left (step Math_sqrt) events init.


End App.

(** ** Sample inputs *)

Module Sample.
Local Open Scope Q_scope.

(** [n] one-minute bars with every price at 1, one minute apart. *)
Definition flatBars (n : nat) : list Candle.t :=
  (λ k : nat, let ts := (60000 * Z.of_nat k)%Z in
              Candle.bare (formatToIST ts) 1 1 1 1 0 ts) <$> seq 0 n.

(** Five one-minute bars with closes 1..5 inside the first five-minute
    bucket; every bar was built from a single tick. *)
Definition tickBar (k : Z) : Candle.t :=
  Candle.bare (formatToIST (60000 * (k - 1))) (inject_Z k) (inject_Z k)
              (inject_Z k) (inject_Z k) (inject_Z (10 * k))
              (60000 * (k - 1))%Z.

Definition fiveBars : list Candle.t := tickBar <$> [1; 2; 3; 4; 5]%Z.



(** An annotated bar for the scorer. *)
Definition scored (close e200 : Q) (m : Macd.t) (bb : Bollinger.t)
    (bbOn : bool) (adxV : option Q) (rsiV : Q) (ts : Z) : Candle.t :=
  Candle.mk (formatToIST ts) close close close close 0 ts None None
            (Some e200) (Some m) (if bbOn then Some bb else None)
            adxV (Some (1 # 1000)) (Some rsiV) None.

Definition band : Bollinger.t := Bollinger.mk 2 1.1 0.5.

Definition filler (n : nat) : list Candle.t :=
  (λ k : nat, scored 1 1 (Macd.mk 0 0 0) band true (Some 22) 50
                     (300000 * Z.of_nat k)) <$> seq 0 n.

(** Trend regime only (ADX 31, close above EMA200): bullish MACD cross,
    upward mid-band cross, RSI 60, histogram flat.  25 + 20 + 10. *)
Definition nearMissBars : list Candle.t :=
  (filler 28 ++
   [ scored 1 1 (Macd.mk 1 2 0) band true (Some 31) 55 8400000;
     scored 1.2 1 (Macd.mk 2 1 0) band true (Some 31) 60 8700000 ])%list.

(** The same picture at ADX 30 with [hist = line - signal]: the trend
    strategy gives 25 + 20 + 10 + 5 and the reversion strategy, active up
    to ADX 30, adds 10 for the same MACD cross. *)
Definition borderlineBars : list Candle.t :=
  (filler 28 ++
   [ scored 1 1 (Macd.mk 1 2 (-1)) band true (Some 30) 55 8400000;
     scored 1.2 1 (Macd.mk 2 1 1) band true (Some 30) 60 8700000 ])%list.

(** Thirty bars as the indicator pass leaves them: the bar before the last
    (index 28) has no ADX yet; here it has no Bollinger value either.  The
    last bar is oversold (RSI 25) with a bullish MACD cross and an upward
    mid-band cross at ADX 30. *)
Definition thirtyBars : list Candle.t :=
  (filler 28 ++
   [ scored 1 1 (Macd.mk 1 2 (-1)) band false None 28 8400000;
     scored 1.2 1 (Macd.mk 2 1 1) band true (Some 30) 25 8700000 ])%list.

Definition env : Env.t := Env.mk 1700000000000 "k3x9q" "10:13:20".

(** A pending CALL at 1.1000 on the five-minute timeframe, created at
    [Env.now env]. *)
Definition call5m : Signal.t :=
  Signal.mk "sig_1700000000000_k3x9q" 1700000000000 "10:13:20" CALL 1.1000
            None 0.5 "5m" "RANGING" PENDING None (Some "Hybrid"%string)
            (Some 0) (Some MODERATE) (Some 0) None.

End Sample.

(** ** The specification's wording, for comparison with the code *)

Module Spec.
Local Open Scope Q_scope.

(** The signed magnitude of a news item: impact tier, sign flipped for
    negative sentiment, zero for neutral. *)
Definition signedImpact (item : NewsItem.t) : Q :=
  match NewsItem.sentiment item, NewsItem.impact item with
  | NEUTRAL, _ => 0
  | POSITIVE, HIGH => 25
  | POSITIVE, MEDIUM => 15
  | POSITIVE, LOW => 5
  | NEGATIVE, HIGH => -25
  | NEGATIVE, MEDIUM => -15
  | NEGATIVE, LOW => -5
  end.

(** Clamp to [-100, 100]. *)
Definition clamp (x : Q) : Q :=
  if Qlt_le_dec x (-100) then -100 else if Qlt_le_dec 100 x then 100 else x.

(** Decay by 0.995, then snap to zero below magnitude one. *)
Definition decayed (x : Q) : Q :=
  if Qlt_le_dec (Qabs (x * 0.995)) 1 then 0 else x * 0.995.

(** The base fields of a bar: what the loaders and the aggregator write. *)
Definition sameBase (c c' : Candle.t) : Prop :=
  Candle.time c' = Candle.time c
  ∧ Candle.open c' = Candle.open c
  ∧ Candle.high c' = Candle.high c
  ∧ Candle.low c' = Candle.low c
  ∧ Candle.close c' = Candle.close c
  ∧ Candle.volume c' = Candle.volume c
  ∧ Candle.timestamp c' = Candle.timestamp c.

(** The closes of the 20 bars that end at position [i]. *)
Definition trailingCloses (candles : list Candle.t) (i : nat) : list Q :=
  Candle.close <$> take 20 (drop (i - 19) candles).

Definition mean20 (closes : list Q) : Q := Num.sum closes / 20.

(** Population variance: the mean of the squared deviations. *)
Definition variance20 (closes : list Q) : Q :=
  fold_left (λ acc c, acc + (c - mean20 closes) ^ 2) closes 0 / 20.

(** The last bar and the one before it. *)
Definition lastBar (candles : list Candle.t) : option Candle.t :=
  candles !! (length candles - 1)%nat.
Definition prevBar (candles : list Candle.t) : option Candle.t :=
  candles !! (length candles - 2)%nat.

(** An indicator field is populated on a bar. *)
Definition populated {A} (field : Candle.t → option A)
    (bar : option Candle.t) : Prop :=
  ∃ c v, bar = Some c ∧ field c = Some v.

(** The threshold gate: one side reaches 70 and strictly exceeds the
    other. *)
Definition passesGate (t : Tally.t) : Prop :=
  (THRESHOLD <= Tally.callScore t ∧ Tally.putScore t < Tally.callScore t)
  ∨ (THRESHOLD <= Tally.putScore t ∧ Tally.callScore t < Tally.putScore t).

(** The score of the side a signal was emitted for. *)
Definition winningScore (s : Signal.t) (t : Tally.t) : Q :=
  match Signal.type s with
  | CALL => Tally.callScore t
  | PUT => Tally.putScore t
  end.

(** A numeral: a non-empty string of decimal digits, and its value. *)
Fixpoint allDigits (s : string) : bool :=
  match s with
  | EmptyString => true
  | String c rest => isDigit c && allDigits rest
  end.

Fixpoint decimalValue (acc : Z) (s : string) : Z :=
  match s with
  | EmptyString => acc
  | String c rest => decimalValue (acc * 10 + digitVal c)%Z rest
  end.

(** The duration a timeframe label stands for: "Nm" is N minutes, "Nh" is
    N * 60 minutes. *)
Inductive labelMinutes : string → Z → Prop :=
| label_minutes ds :
    ds ≠ EmptyString → allDigits ds = true →
    labelMinutes (ds +:+ "m") (decimalValue 0 ds)
| label_hours ds :
    ds ≠ EmptyString → allDigits ds = true →
    labelMinutes (ds +:+ "h") (decimalValue 0 ds * 60)%Z.



(** The bars of one bucket, in input order. *)
Definition bucketBars (intervalMs b : Z) (candles : list Candle.t)
    : list Candle.t :=
  filter (λ c, bucketOf intervalMs c = b) candles.

Definition isMax (m : Q) (xs : list Q) : Prop :=
  m ∈ xs ∧ ∀ x, x ∈ xs → x <= m.

Definition isMin (m : Q) (xs : list Q) : Prop :=
  m ∈ xs ∧ ∀ x, x ∈ xs → m <= x.


End Spec.

(** ** Vocabulary for the properties of the indicator pass *)

Definition optNonneg (o : option Q) : Prop := ∀ v, o = Some v → (0 <= v)%Q.

Definition optWithin (lo hi : Q) (o : option Q) : Prop :=
  ∀ v, o = Some v → (lo <= v <= hi)%Q.

(** What holds of the closure variables before the bar at position [i]. *)
Definition indicatorStateOk (i : nat) (st : Ind.state) : Prop :=
  (is_Some (Ind.avgGain st) ↔ 15 ≤ i)
  ∧ (is_Some (Ind.avgLoss st) ↔ 15 ≤ i)
  ∧ optNonneg (Ind.avgGain st)
  ∧ optNonneg (Ind.avgLoss st)
  ∧ optNonneg (Ind.smoothTR st)
  ∧ optNonneg (Ind.smoothPlusDM st)
  ∧ optNonneg (Ind.smoothMinusDM st)
  ∧ optWithin 0 100 (Ind.prevAdx st).

(** What holds of the bar the pass returns at position [i]. *)
Definition indicatorOutputOk (i : nat) (c : Candle.t) : Prop :=
  is_Some (Candle.ema200 c)
  ∧ (is_Some (Candle.macd c) ↔ 26 ≤ i)
  ∧ (is_Some (Candle.atr c) ↔ 1 ≤ i)
  ∧ (is_Some (Candle.adx c) ↔ 29 ≤ i)
  ∧ (is_Some (Candle.rsi c) ↔ 14 ≤ i)
  ∧ optNonneg (Candle.atr c)
  ∧ optWithin 0 100 (Candle.adx c)
  ∧ (∀ v, Candle.rsi c = Some v → (0 <= v < 100)%Q).

(** The three prices of a bar that the indicator pass reads from the array. *)
Definition base3 (c : Candle.t) : Q * Q * Q :=
  (Candle.close c, Candle.high c, Candle.low c).

(** Two bars agree on every field the indicator pass keeps. *)
Definition sameFrame (c c' : Candle.t) : Prop :=
  Spec.sameBase c c'
  ∧ Candle.smaFast c' = Candle.smaFast c
  ∧ Candle.smaSlow c' = Candle.smaSlow c
  ∧ Candle.isNewsCandle c' = Candle.isNewsCandle c.

(** Two arrays carry the same close, high and low up to position [i]. *)
Definition agreeUpTo (i : nat) (A A' : list Candle.t) : Prop :=
  ∀ j, j ≤ i → base3 <$> A !! j = base3 <$> A' !! j.

(** No close is above the one before it. *)
Definition neverRises (candles : list Candle.t) : Prop :=
  ∀ j p c, candles !! j = Some p → candles !! S j = Some c →
           (Candle.close c <= Candle.close p)%Q.

(** The smoothed gain, once set, is zero. *)
Definition zeroGain (i : nat) (st : Ind.state) : Prop :=
  ∀ g, Ind.avgGain st = Some g → (g == 0)%Q.

(** ** Vocabulary for the properties of the resampler *)

(** A bar as the resampler builds it for the interval: bare, stamped with
    its own bucket, and labelled with that bucket's wall-clock time. *)
Definition resampledShape (intervalMs : Z) (bar : Candle.t) : Prop :=
  bucketOf intervalMs bar = Candle.timestamp bar
  ∧ bar = Candle.bare (formatToIST (Candle.timestamp bar)) (Candle.open bar)
                      (Candle.high bar) (Candle.low bar) (Candle.close bar)
                      (Candle.volume bar) (Candle.timestamp bar).

(** The bar invariant of the data model. *)
Definition wellFormedBar (c : Candle.t) : Prop :=
  (Candle.low c <= Candle.open c <= Candle.high c)%Q
  ∧ (Candle.low c <= Candle.close c <= Candle.high c)%Q.

(** What one resolver pass may turn a signal into. *)
Definition resolverOutcome (currentPrice : Q) (s s' : Signal.t) : Prop :=
  s' = s
  ∨ (Signal.status s = PENDING
     ∧ (s' = Signal.resolved s WIN 0.85 currentPrice
        ∨ s' = Signal.resolved s LOSS (-1) currentPrice)).


(** A trained model whose [predict] always throws. *)
Definition silentModel : LSTMModelData.t :=
  LSTMModelData.mk (λ _, None) 1 2 30.

(** ** Vocabulary for the properties of the application *)

(** The shape of every signal the application holds. *)
Definition signalWellFormed (s : Signal.t) : Prop :=
  (∃ tf, tf ∈ TIMEFRAMES ∧ Signal.timeframe s = Timeframe.id tf)
  ∧ (∃ strength, Signal.signalStrength s = Some strength ∧ strength ≠ WEAK)
  ∧ (7 # 15 <= Signal.confidence s <= 0.99)%Q
  ∧ match Signal.status s with
    | PENDING => Signal.exitPrice s = None ∧ Signal.pnl s = None
    | WIN => is_Some (Signal.exitPrice s) ∧ Signal.pnl s = Some 0.85%Q
    | LOSS => is_Some (Signal.exitPrice s) ∧ Signal.pnl s = Some (-1)%Q
    end.

(** The timeframe label of a signal is one the application analyses. *)
Definition knownTimeframe (s : Signal.t) : Prop :=
  ∃ tf, tf ∈ TIMEFRAMES ∧ Signal.timeframe s = Timeframe.id tf.

(** ** Training the prediction model

    [trainLSTMModel] up to the tensors it hands to tfjs.  Building,
    compiling and fitting the network is the oracle [fit]: it answers with
    the trained network's [predict], or with [None] when tfjs throws. *)

Module Training.
Record t := mk {
  X_data : list (list Q);
  y_data : list (option Q);     (* [normalized[i + windowSize]] *)
  min : Q;
  max : Q;
  windowSize : nat
}.
End Training.

(** The [for] loop that fills [X_data] and [y_data]. *)
Definition windowing (normalized : list Q) (windowSize : nat)
    : list (list Q) * list (option Q) :=
  let indices := seq 0 (length normalized - windowSize) in
  ((λ i, slice normalized i (i + windowSize)) <$> indices,
   (λ i, normalized !! (i + windowSize)%nat) <$> indices).

(** Everything before the tensors are built: the thrown message or the
    training set. *)
Definition prepareTraining (candles : list Candle.t) : string + Training.t :=
  if decide (length candles < 100) then inl "Not enough data to train LSTM"
  else
    let recentCandles := sliceLast candles 500 in
    let closes := Candle.close <$> recentCandles in
    let min := Num.Math_min_list closes in
    let max := Num.Math_max_list closes in
    if Qeq_bool max min then inl "Price data has zero variance, cannot train."
    else
      let normalized := (λ p, (p - min) / (max - min))%Q <$> closes in
      let windowSize := 30 in
      let '(X_data, y_data) := windowing normalized windowSize in
      if decide (length X_data = 0) then inl "Not enough data for windowing"
      else inr (Training.mk X_data y_data min max windowSize).

Inductive TrainResult :=
| Thrown (message : string)
| TfjsThrown
| Trained (modelData : LSTMModelData.t).

Definition trainLSTMModel (fit : Training.t → option (list Q → option Q))
    (candles : list Candle.t) : TrainResult :=
  match prepareTraining candles with
  | inl message => Thrown message
  | inr ts =>
      match fit ts with
      | Some model =>
          Trained (LSTMModelData.mk model (Training.min ts) (Training.max ts)
                                    (Training.windowSize ts))
      | None => TfjsThrown
      end
  end.

(** ** Simulated news *)

Definition NEWS_TEMPLATES : list (string * Sentiment * Impact) :=
  [ ("US CPI Inflation data shows cooling trend", POSITIVE, HIGH);
    ("Federal Reserve hints at interest rate hold", POSITIVE, HIGH);
    ("ECB President Lagarde warning on Eurozone growth", NEGATIVE, MEDIUM);
    ("US Jobless claims higher than expected", NEGATIVE, HIGH);
    ("Geopolitical tensions easing in key regions", POSITIVE, MEDIUM);
    ("Tech sector rally boosting market confidence", POSITIVE, LOW);
    ("Crude Oil inventory surplus reported", NEGATIVE, MEDIUM);
    ("Market consolidation ahead of FOMC minutes", NEUTRAL, LOW);
    ("Retail Sales data disappoints analysts", NEGATIVE, MEDIUM);
    ("German Manufacturing PMI beats expectations", POSITIVE, MEDIUM) ].

(** [random] is the value of [Math.random()], [now] that of [Date.now()],
    [score] the sentiment singleton's state.  [None]: the [TypeError] of
    reading [template.text] on an index outside the table. *)
Definition generateMarketNews (random : Q) (now : Z) (score : Q)
    : option (NewsItem.t * Q) :=
  let index :=
    Num.Math_floor (random * inject_Z (Z.of_nat (length NEWS_TEMPLATES))) in
  let template :=
    if (index <? 0)%Z then None else NEWS_TEMPLATES !! Z.to_nat index in
  match template with
  | Some (text, sentiment, impact) =>
      let item := NewsItem.mk text sentiment impact now "Bloomberg (Sim)" in
      Some (item, MarketSentiment.addNews score item)
  | None => None
  end.

(** One hundred one-minute bars with closes 1..100. *)
Definition rampBars : list Candle.t :=
  (λ k : nat, Sample.tickBar (Z.of_nat k)) <$> seq 1 100.

(** A fit whose network always answers one half. *)
Definition constFit (ts : Training.t) : option (list Q → option Q) :=
  Some (λ _, Some 0.5%Q).

(** ** The trade stream: [ws.onmessage], the one-second timer

    The bar being formed lives in [currentCandleRef]; the first trade of a
    new minute hands it to the bar-close pass of [App]. *)

(** The index of the wall-clock minute that [formatToIST] prints. *)
Definition minuteOfDay (timestamp : Z) : Z :=
  (((timestamp + 19800000) / 60000) mod 1440)%Z.

Module Feed.

Record state := mk {
  currentCandleRef : option Candle.t;
  app : App.state
}.

Definition init : state := mk None App.init.

Inductive event :=
| Trade (price : Q) (now : Z) (envOf : string → Env.t)
| Timer (now : Z)
| HistoryLoaded (histCandles : list Candle.t)
| ModelTrained (modelData : LSTMModelData.t)
| News (item : NewsItem.t).

(** [{ time: minuteKey, open: price, high: price, low: price, close: price,
    volume: 0, timestamp: now }]. *)
Definition startCandle (minuteKey : string) (price : Q) (now : Z) : Candle.t :=
  Candle.bare minuteKey price price price price 0 now.

(** [c.high = Math.max(c.high, price); c.low = Math.min(c.low, price);
    c.close = price]. *)
Definition updateCandle (c : Candle.t) (price : Q) : Candle.t :=
  Candle.mk (Candle.time c) (Candle.open c)
            (Num.Math_max (Candle.high c) price)
            (Num.Math_min (Candle.low c) price)
            price (Candle.volume c) (Candle.timestamp c)
            (Candle.smaFast c) (Candle.smaSlow c) (Candle.ema200 c)
            (Candle.macd c) (Candle.bollinger c) (Candle.adx c)
            (Candle.atr c) (Candle.rsi c) (Candle.isNewsCandle c).

Definition onTrade (Math_sqrt : Q → Q) (st : state) (price : Q) (now : Z)
    (envOf : string → Env.t) : state :=
  let minuteKey := formatToIST now in
  match currentCandleRef st with
  | None => mk (Some (startCandle minuteKey price now)) (app st)
  | Some c =>
      if negb (String.eqb (Candle.time c) minuteKey) then
        mk (Some (startCandle minuteKey price now))
           (App.step Math_sqrt (app st) (App.BarClose c envOf))
      else mk (Some (updateCandle c price)) (app st)
  end.

Definition onTimer (Math_sqrt : Q → Q) (st : state) (now : Z) : state :=
  match currentCandleRef st with
  | Some c =>
      mk (currentCandleRef st)
         (App.step Math_sqrt (app st) (App.ResolutionTick now (Candle.close c)))
  | None => st
  end.

Definition step (Math_sqrt : Q → Q) (st : state) (e : event) : state :=
  match e with
  | Trade price now envOf => onTrade Math_sqrt st price now envOf
  | Timer now => onTimer Math_sqrt st now
  | HistoryLoaded histCandles =>
      mk (currentCandleRef st)
         (App.step Math_sqrt (app st) (App.HistoryLoaded histCandles))
  | ModelTrained modelData =>
      mk (currentCandleRef st)
         (App.step Math_sqrt (app st) (App.ModelTrained modelData))
  | News item =>
      mk (currentCandleRef st) (App.step Math_sqrt (app st) (App.News item))
  end.

Definition run (Math_sqrt : Q → Q) (events : list event) : state :=
  fold_left (step Math_sqrt) events init.

End Feed.

(** The bar being formed, as the trade handler keeps it. *)
Definition openBarOk (c : Candle.t) : Prop :=
  wellFormedBar c
  ∧ Candle.time c = formatToIST (Candle.timestamp c)
  ∧ c = Candle.bare (Candle.time c) (Candle.open c) (Candle.high c)
                    (Candle.low c) (Candle.close c) 0 (Candle.timestamp c).

(** The prices of the trades among the events, in order. *)
Definition tradePrices (events : list Feed.event) : list Q :=
  omap (λ e, match e with Feed.Trade price _ _ => Some price | _ => None end)
       events.

(** No trade among the events falls outside the minute of [now]. *)
Definition keepsMinute (now : Z) (e : Feed.event) : Prop :=
  match e with
  | Feed.Trade _ now' _ => minuteOfDay now' = minuteOfDay now
  | _ => True
  end.

(** Reads a label [HH:MM] back as a minute index. *)
Definition minuteOfKey (key : string) : Z :=
  match key with
  | String h1 (String h2 (String _ (String m1 (String m2 EmptyString)))) =>
      ((digitVal h1 * 10 + digitVal h2) * 60 + (digitVal m1 * 10 + digitVal m2))%Z
  | _ => (-1)%Z
  end.

(** ** Statistics, the log, the chart's price axis *)

Module BotStats.
Record t := mk {
  totalSignals : nat;
  wins : nat;
  losses : nat;
  winRate : Q;
  activeSignals : nat;
  marketRegime : string;
  aiAccuracy : Q;
  isTraining : option bool;
  lastNews : option NewsItem.t
}.
End BotStats.

Definition initialStats : BotStats.t :=
  BotStats.mk 0 0 0 0 0 "INITIALIZING" 0 (Some false) None.

(** The updater that the one-second timer passes to [setStats]. *)
Definition refreshStats (signals : list Signal.t) (prev : BotStats.t)
    : BotStats.t :=
  let finished := filter (λ s, Signal.status s ≠ PENDING) signals in
  let wins := length (filter (λ s, Signal.status s = WIN) finished) in
  let losses := length (filter (λ s, Signal.status s = LOSS) finished) in
  let total := length finished in
  if decide (total ≠ BotStats.totalSignals prev
             ∨ length signals
               ≠ BotStats.totalSignals prev + BotStats.activeSignals prev)
  then
    BotStats.mk (length signals) wins losses
                (if decide (0 < total)
                 then (QofNat wins / QofNat total * 100)%Q else 0%Q)
                (length (filter (λ s, Signal.status s = PENDING) signals))
                (BotStats.marketRegime prev) (BotStats.aiAccuracy prev)
                (BotStats.isTraining prev) (BotStats.lastNews prev)
  else prev.

Inductive LogLevel := INFO | WARNING | ERROR | DEBUG.

Module LogEntry.
Record t := mk {
  id : string;
  timestamp : string;
  level : LogLevel;
  message : string
}.
End LogEntry.

(** [setLogs(prev => [...prev.slice(-99), newLog])]. *)
Definition addLog (prev : list LogEntry.t) (newLog : LogEntry.t)
    : list LogEntry.t :=
  (sliceLast prev 99 ++ [newLog])%list.

(** The [domain] of the chart's price axis, [minPrice] and [maxPrice]. *)
Definition chartDomain (data : list Candle.t) (currentPrice : option Q)
    : Q * Q :=
  let pushed :=
    match currentPrice with
    | Some p => if Num.truthy (Some p) then [p] else []
    | None => []
    end in
  let allLows := ((Candle.low <$> data) ++ pushed)%list in
  let allHighs := ((Candle.high <$> data) ++ pushed)%list in
  ((Num.Math_min_list allLows * 0.9995)%Q,
   (Num.Math_max_list allHighs * 1.0005)%Q).

(** * Properties *)

(** ** Comparison helpers *)

Lemma gt_true (a b : Q) : Num.gt a b = true ↔ (b < a)%Q.
Proof. unfold Num.gt. destruct (Qlt_le_dec b a); split; intros; try done; lra. Qed.


Lemma ge_true (a b : Q) : Num.ge a b = true ↔ (b <= a)%Q.
Proof. unfold Num.ge. apply Qle_bool_iff. Qed.

Lemma le_true (a b : Q) : Num.le a b = true ↔ (a <= b)%Q.
Proof. unfold Num.le. apply Qle_bool_iff. Qed.

Lemma gt_false (a b : Q) : Num.gt a b = false ↔ (a <= b)%Q.
Proof. unfold Num.gt. destruct (Qlt_le_dec b a); split; intros; try done; lra. Qed.


Lemma ge_false (a b : Q) : Num.ge a b = false ↔ (a < b)%Q.
Proof.
  unfold Num.ge. destruct (Qle_bool b a) eqn:E.
  - apply Qle_bool_iff in E. split; intros; [done | lra].
  - split; [intros _ | done]. apply Qnot_le_lt. intros H.
    apply Qle_bool_iff in H. congruence.
Qed.

Lemma Math_max_spec (a b : Q) :
  (a <= Num.Math_max a b)%Q ∧ (b <= Num.Math_max a b)%Q
  ∧ (Num.Math_max a b = a ∨ Num.Math_max a b = b).
Proof. unfold Num.Math_max. destruct (Qlt_le_dec a b); repeat split; auto; lra. Qed.

Lemma Math_min_spec (a b : Q) :
  (Num.Math_min a b <= a)%Q ∧ (Num.Math_min a b <= b)%Q
  ∧ (Num.Math_min a b = a ∨ Num.Math_min a b = b).
Proof. unfold Num.Math_min. destruct (Qlt_le_dec b a); repeat split; auto; lra. Qed.

(** ** Sentiment engine *)

Section SentimentFacts.
Import MarketSentiment Spec.
Local Open Scope Q_scope.

Lemma impactVal_signed item : impactVal item = signedImpact item.
Proof. destruct item as [h [] [] ts src]; reflexivity. Qed.

Lemma addNews_clamp score item :
  addNews score item == clamp (score + signedImpact item).
Proof.
  unfold addNews, clamp. rewrite impactVal_signed.
  unfold Num.Math_max, Num.Math_min.
  repeat destruct (Qlt_le_dec _ _); lra.
Qed.

Lemma addNews_bounds score item : -100 <= addNews score item <= 100.
Proof.
  unfold addNews, Num.Math_max, Num.Math_min.
  repeat destruct (Qlt_le_dec _ _); lra.
Qed.

Lemma getScore_decayed score : getScore score = decayed score.
Proof.
  unfold getScore, decayed, Num.lt, Num.Math_abs.
  by destruct (Qlt_le_dec _ _).
Qed.

Lemma getScore_cases score :
  (Qabs (score * 0.995) < 1 ∧ getScore score = 0)
  ∨ (1 <= Qabs (score * 0.995) ∧ getScore score = score * 0.995).
Proof.
  unfold getScore, Num.lt, Num.Math_abs.
  destruct (Qlt_le_dec _ _); [left | right]; done.
Qed.

Lemma getScore_bounds score :
  -100 <= score <= 100 → -100 <= getScore score <= 100.
Proof.
  intros H. destruct (getScore_cases score) as [[_ ->] | [_ ->]]; lra.
Qed.











End SentimentFacts.

(** ** Indicator pass *)

Section IndicatorFacts.
Variable Math_sqrt : Q → Q.

Lemma indicatorLoop_length array rest : ∀ index st,
  length (indicatorLoop Math_sqrt array index st rest) = length rest.
Proof. induction rest as [|c rest IH]; intros; simpl; [done | by rewrite IH]. Qed.

(** Every output bar is the callback's result on the input bar at the same
    position, for some value of the closure variables. *)
Lemma indicatorLoop_lookup array rest : ∀ index st k c,
  rest !! k = Some c →
  ∃ st', indicatorLoop Math_sqrt array index st rest !! k
         = Some (indicatorStep Math_sqrt array (index + k) st' c).2.
Proof.
  induction rest as [|c0 rest IH]; intros index st k c Hk; [done |].
  destruct k as [|k]; simpl in *.
  - injection Hk as ->. exists st. by rewrite Nat.add_0_r.
  - destruct (IH (S index) (indicatorStep Math_sqrt array index st c0).1 k c Hk)
      as [st' Hst'].
    exists st'. rewrite Hst'. do 3 f_equal. lia.
Qed.

Lemma calculateIndicators_length candles :
  length (calculateIndicators Math_sqrt candles) = length candles.
Proof. apply indicatorLoop_length. Qed.

Lemma calculateIndicators_lookup candles k c :
  candles !! k = Some c →
  ∃ st', calculateIndicators Math_sqrt candles !! k
         = Some (indicatorStep Math_sqrt candles k st' c).2.
Proof. intros H. apply (indicatorLoop_lookup candles candles 0 Ind.init k c H). Qed.

Lemma indicatorStep_shape array index st candle :
  ∃ m e200 adxV atrV rsiV,
    (indicatorStep Math_sqrt array index st candle).2
    = Candle.withIndicators candle m (bollingerAt Math_sqrt array index)
                            e200 adxV atrV rsiV.
Proof.
  unfold indicatorStep.
  repeat match goal with
         | |- context [let '(_, _) := ?e in _] => destruct e
         end.
  simpl. eauto 10.
Qed.

(** ADX needs more than [2 * adxPeriod] bars before the current one: up to
    index 28 the field stays absent, whatever the closure variables hold. *)
Lemma indicatorStep_adx_warmup array index st candle :
  index ≤ 28 →
  Candle.adx (indicatorStep Math_sqrt array index st candle).2 = None.
Proof.
  intros Hi. unfold indicatorStep, adxPeriod.
  destruct (macdAt _ _ _ _) as [sigLine m].
  destruct (if decide (index = 0) then None else array !! (index - 1))
    as [prev|].
  - destruct (decide (14 * 2 < index)); [lia |].
    repeat match goal with
           | |- context [let '(_, _) := ?e in _] => destruct e
           end.
    reflexivity.
  - repeat match goal with
           | |- context [let '(_, _) := ?e in _] => destruct e
           end.
    reflexivity.
Qed.

(** In a series of exactly 30 bars the bar before the last (index 28) leaves
    the indicator pass without ADX. *)
Lemma calculateIndicators_adx_warmup candles i c' :
  calculateIndicators Math_sqrt candles !! i = Some c' →
  i ≤ 28 → Candle.adx c' = None.
Proof.
  intros Hc' Hi.
  assert (i < length candles) as Hlen.
  { rewrite <- calculateIndicators_length. by eapply lookup_lt_Some. }
  destruct (lookup_lt_is_Some_2 candles i Hlen) as [c Hc].
  destruct (calculateIndicators_lookup candles i c Hc) as [st' Hst'].
  rewrite Hst' in Hc'. injection Hc' as <-.
  by apply indicatorStep_adx_warmup.
Qed.

End IndicatorFacts.

Section IndicatorClaims.
Variable Math_sqrt : Q → Q.

Lemma indicatorLoop_sameBase array rest : ∀ index st,
  Forall2 Spec.sameBase rest (indicatorLoop Math_sqrt array index st rest).
Proof.
  induction rest as [|c rest IH]; intros index st; simpl; constructor.
  - destruct (indicatorStep_shape Math_sqrt array index st c)
      as (m & e & a & t & r & ->).
    by repeat split.
  - apply IH.
Qed.

(** C10. The indicator pass returns as many bars as it was given, in the
    same order, and every bar keeps its time, open, high, low, close,
    volume and timestamp: only indicator fields are attached. *)
Theorem calculateIndicators_keeps_ohlcv (candles : list Candle.t) :
  length (calculateIndicators Math_sqrt candles) = length candles
  ∧ Forall2 Spec.sameBase candles (calculateIndicators Math_sqrt candles).
Proof.
  split.
  - apply calculateIndicators_length.
  - apply indicatorLoop_sameBase.
Qed.

Lemma calculateIndicators_bollinger candles i c' :
  calculateIndicators Math_sqrt candles !! i = Some c' →
  Candle.bollinger c' = bollingerAt Math_sqrt candles i.
Proof.
  intros Hc'.
  assert (i < length candles) as Hi.
  { rewrite <- (calculateIndicators_length Math_sqrt). by eapply lookup_lt_Some. }
  destruct (lookup_lt_is_Some_2 candles i Hi) as [c Hc].
  destruct (calculateIndicators_lookup Math_sqrt candles i c Hc) as [st' Hst'].
  rewrite Hst' in Hc'. injection Hc' as <-.
  destruct (indicatorStep_shape Math_sqrt candles i st' c)
    as (m & e & a & t & r & ->).
  reflexivity.
Qed.

Lemma bollingerAt_window candles i :
  20 ≤ i →
  bollingerAt Math_sqrt candles i
  = Some (Bollinger.mk
            (Spec.mean20 (Spec.trailingCloses candles i)
             + Math_sqrt (Spec.variance20 (Spec.trailingCloses candles i)) * 2)%Q
            (Spec.mean20 (Spec.trailingCloses candles i))
            (Spec.mean20 (Spec.trailingCloses candles i)
             - Math_sqrt (Spec.variance20 (Spec.trailingCloses candles i)) * 2)%Q).
Proof.
  intros Hi. unfold bollingerAt, bbPeriod.
  destruct (decide (20 ≤ i)); [| lia].
  unfold slice, Spec.trailingCloses.
  replace (i + 1 - (i - 20 + 1)) with 20 by lia.
  replace (i - 20 + 1) with (i - 19) by lia.
  reflexivity.
Qed.

(** C6, as the code has it.  After the indicator pass, the Bollinger field
    of the bar at position [i] is populated exactly when [i >= 20] (at
    least 21 bars up to and including it); when populated, its middle is
    the mean of the closes of the 20 bars ending at [i], and its upper and
    lower bands are that mean plus and minus twice the population standard
    deviation of those closes. *)
Theorem bollinger_populated_from_index_20 (candles : list Candle.t)
    (i : nat) (c' : Candle.t) :
  calculateIndicators Math_sqrt candles !! i = Some c' →
  (is_Some (Candle.bollinger c') ↔ 20 ≤ i)
  ∧ (i < 20 → Candle.bollinger c' = None)
  ∧ (20 ≤ i →
     ∃ b, Candle.bollinger c' = Some b
          ∧ let closes := Spec.trailingCloses candles i in
            let mean := Spec.mean20 closes in
            let stdDev := Math_sqrt (Spec.variance20 closes) in
            Bollinger.middle b = mean
            ∧ (Bollinger.upper b == mean + 2 * stdDev)%Q
            ∧ (Bollinger.lower b == mean - 2 * stdDev)%Q).
Proof.
  intros Hc'. rewrite (calculateIndicators_bollinger _ _ _ Hc').
  assert (i < 20 → bollingerAt Math_sqrt candles i = None) as Hlow.
  { intros Hlt. unfold bollingerAt, bbPeriod.
    destruct (decide (20 ≤ i)); [lia | done]. }
  split; [| split].
  - split.
    + intros [b Hb]. destruct (decide (20 ≤ i)); [done |].
      rewrite Hlow in Hb; [done | lia].
    + intros Hi. rewrite bollingerAt_window by done. eauto.
  - exact Hlow.
  - intros Hi. rewrite bollingerAt_window by done.
    eexists. split; [reflexivity |]. simpl. repeat split; ring.
Qed.

End IndicatorClaims.

(** ** Signal scorer *)

Section ScorerFacts.
Local Open Scope Q_scope.

Lemma emit_cases env last tf t :
  (THRESHOLD <= Tally.callScore t ∧ Tally.putScore t < Tally.callScore t
   ∧ emit env last tf t
     = Analysis.mk (Some (mkSignal env CALL (Tally.callScore t) last tf t))
                   (Tally.regime t) (Some (Tally.debugStr t)))
  ∨ (¬ (THRESHOLD <= Tally.callScore t ∧ Tally.putScore t < Tally.callScore t)
     ∧ THRESHOLD <= Tally.putScore t ∧ Tally.callScore t < Tally.putScore t
     ∧ emit env last tf t
       = Analysis.mk (Some (mkSignal env PUT (Tally.putScore t) last tf t))
                     (Tally.regime t) (Some (Tally.debugStr t)))
  ∨ (¬ Spec.passesGate t
     ∧ emit env last tf t
       = Analysis.mk None (Tally.regime t) (Some (Tally.debugStr t))).
Proof.
  unfold emit, Spec.passesGate.
  destruct (Num.ge (Tally.callScore t) THRESHOLD) eqn:Hc1;
    destruct (Num.gt (Tally.callScore t) (Tally.putScore t)) eqn:Hc2;
    destruct (Num.ge (Tally.putScore t) THRESHOLD) eqn:Hp1;
    destruct (Num.gt (Tally.putScore t) (Tally.callScore t)) eqn:Hp2;
    simpl;
    rewrite ?ge_true, ?gt_true, ?ge_false, ?gt_false in *;
    first [ left; by repeat split
          | right; left; repeat split; (done || lra)
          | right; right; split; [lra | done] ].
Qed.

Lemma emit_signal_iff env last tf t :
  is_Some (Analysis.signal (emit env last tf t)) ↔ Spec.passesGate t.
Proof.
  destruct (emit_cases env last tf t)
    as [(H1 & H2 & ->) | [(Hn & H1 & H2 & ->) | (Hn & ->)]]; simpl.
  - split; [intros _; by left | eauto].
  - split; [intros _; by right | eauto].
  - split; [intros [? ?]; done | done].
Qed.

Lemma analyzeMarket_ready env score candles tf ai r :
  readiness candles = IsReady r →
  analyzeMarket env score candles tf ai
  = (emit env (Ready.last r) tf (tallyOf score candles r ai).1,
     (tallyOf score candles r ai).2).
Proof.
  intros Hr. unfold analyzeMarket. rewrite Hr.
  by destruct (tallyOf score candles r ai).
Qed.

Lemma analyzeMarket_not_ready env score candles tf ai :
  (∀ r, readiness candles ≠ IsReady r) →
  ∃ regime, analyzeMarket env score candles tf ai
            = (Analysis.mk None regime None, score)
            ∧ (regime = "GATHERING_DATA"%string ∨ regime = "CALCULATING"%string).
Proof.
  intros Hr. unfold analyzeMarket.
  destruct (readiness candles) as [| |r]; [eauto | eauto |].
  by destruct (Hr r).
Qed.

(** What a ready verdict tells about the bars. *)
Lemma readiness_ready candles r :
  readiness candles = IsReady r →
  (30 ≤ length candles)%nat
  ∧ Spec.lastBar candles = Some (Ready.last r)
  ∧ Spec.prevBar candles = Some (Ready.prev r)
  ∧ Candle.macd (Ready.last r) = Some (Ready.lastMacd r)
  ∧ Candle.macd (Ready.prev r) = Some (Ready.prevMacd r)
  ∧ Candle.bollinger (Ready.last r) = Some (Ready.lastBB r)
  ∧ Candle.adx (Ready.last r) = Some (Ready.adx r)
  ∧ Candle.rsi (Ready.last r) = Some (Ready.rsi r)
  ∧ Num.falsy (Some (Ready.adx r)) = false
  ∧ Num.falsy (Some (Ready.rsi r)) = false
  ∧ Num.falsy (Candle.rsi (Ready.prev r)) = false.
Proof.
  unfold readiness, Spec.lastBar, Spec.prevBar.
  destruct (decide (length candles < 30)%nat); [done |].
  destruct (candles !! (length candles - 1)%nat) as [last|]; [| done].
  destruct (candles !! (length candles - 2)%nat) as [prev|]; [| done].
  destruct (Candle.macd last) eqn:?; [| done].
  destruct (Candle.macd prev) eqn:?; [| done].
  destruct (Candle.bollinger last) eqn:?; [| done].
  destruct (Candle.adx last) eqn:?; [| done].
  destruct (Candle.rsi last) eqn:?; [| done].
  destruct (Num.falsy (Some q)) eqn:?; [done |].
  destruct (Num.falsy (Some q0)) eqn:?; [done |].
  destruct (Num.falsy (Candle.rsi prev)) eqn:?; [done |].
  simpl. intros [= <-]. simpl. repeat split; (done || lia).
Qed.

End ScorerFacts.

(** Supplies the record that [readiness] computes on concrete bars. *)
Ltac exists_ready bars :=
  let v := eval vm_compute in (readiness bars) in
  match v with
  | IsReady ?r => exists r
  end.

Section ScorerClaims.
Local Open Scope Q_scope.

(** C3. [analyzeMarket] returns a signal exactly when the bars pass the
    readiness guards and, of the two accumulated scores, one is at least
    the threshold 70 and strictly greater than the other; otherwise the
    signal is null.  In particular a call score of 55 (25 + 20 + 10) with
    nothing on the put side yields no signal, as on [Sample.nearMissBars]. *)
Theorem signal_iff_threshold_gate (env : Env.t) (score : Q)
    (candles : list Candle.t) (tf : string)
    (ai : option LSTMModelData.t) :
  let result := (analyzeMarket env score candles tf ai).1 in
  (is_Some (Analysis.signal result)
   ↔ ∃ r, readiness candles = IsReady r
          ∧ Spec.passesGate (tallyOf score candles r ai).1)
  ∧ (Analysis.signal result = None
     ↔ ∀ r, readiness candles = IsReady r
            → ¬ Spec.passesGate (tallyOf score candles r ai).1)
  ∧ (∀ r, readiness candles = IsReady r
          → Tally.callScore (tallyOf score candles r ai).1 == 55
          → Tally.putScore (tallyOf score candles r ai).1 == 0
          → Analysis.signal result = None)
  ∧ (∃ r, readiness Sample.nearMissBars = IsReady r
          ∧ Tally.callScore (tallyOf 0 Sample.nearMissBars r None).1 == 55
          ∧ Tally.putScore (tallyOf 0 Sample.nearMissBars r None).1 == 0
          ∧ Analysis.signal
              (analyzeMarket Sample.env 0 Sample.nearMissBars "5m" None).1
            = None).
Proof.
  intros result.
  assert (is_Some (Analysis.signal result)
          ↔ ∃ r, readiness candles = IsReady r
                 ∧ Spec.passesGate (tallyOf score candles r ai).1) as Hiff.
  { subst result. destruct (readiness candles) as [| |r] eqn:Hr.
    - unfold analyzeMarket. rewrite Hr. simpl. split.
      + intros [? ?]; done.
      + intros (r & ? & _); done.
    - unfold analyzeMarket. rewrite Hr. simpl. split.
      + intros [? ?]; done.
      + intros (r & ? & _); done.
    - rewrite (analyzeMarket_ready _ _ _ _ _ _ Hr). simpl.
      rewrite emit_signal_iff. split.
      + intros Hg. by exists r.
      + intros (r' & [= <-] & Hg). exact Hg. }
  assert (Analysis.signal result = None
          ↔ ∀ r, readiness candles = IsReady r
                 → ¬ Spec.passesGate (tallyOf score candles r ai).1) as Hnone.
  { split.
    - intros Hn r Hr Hg.
      assert (is_Some (Analysis.signal result)) as [s Hs]
        by (apply Hiff; eauto).
      rewrite Hn in Hs. done.
    - intros Hall. destruct (Analysis.signal result) as [s|] eqn:Hs; [| done].
      assert (is_Some (Some s)) as Hsome by eauto.
      apply Hiff in Hsome as (r & Hr & Hg). by destruct (Hall r Hr). }
  split; [exact Hiff |]. split; [exact Hnone |]. split.
  - intros r Hr Hc Hp. apply Hnone. intros r' Hr'.
    assert (r' = r) as -> by congruence.
    unfold Spec.passesGate, THRESHOLD. rewrite Hc, Hp. lra.
  - exists_ready Sample.nearMissBars.
    split; [vm_compute; reflexivity |].
    split; [vm_compute; reflexivity |].
    split; vm_compute; reflexivity.
Qed.

(** C4, as the code has it.  [analyzeMarket] answers not-ready (signal
    null, regime GATHERING_DATA or CALCULATING, no debug line, the sentiment
    score not read) whenever there are fewer than 30 bars, or MACD is
    missing on the last bar or on the one before it, or the Bollinger value
    or ADX is missing on the last bar, or RSI is missing on the last bar or
    on the one before it.  The Bollinger value and ADX of the bar before the
    last are not consulted. *)
Theorem not_ready_without_consulted_indicators (env : Env.t) (score : Q)
    (candles : list Candle.t) (tf : string)
    (ai : option LSTMModelData.t) :
  (length candles < 30)%nat
  ∨ ¬ Spec.populated Candle.macd (Spec.lastBar candles)
  ∨ ¬ Spec.populated Candle.macd (Spec.prevBar candles)
  ∨ ¬ Spec.populated Candle.bollinger (Spec.lastBar candles)
  ∨ ¬ Spec.populated Candle.adx (Spec.lastBar candles)
  ∨ ¬ Spec.populated Candle.rsi (Spec.lastBar candles)
  ∨ ¬ Spec.populated Candle.rsi (Spec.prevBar candles) →
  ∃ regime,
    analyzeMarket env score candles tf ai
    = (Analysis.mk None regime None, score)
    ∧ (regime = "GATHERING_DATA"%string ∨ regime = "CALCULATING"%string).
Proof.
  intros Hmiss. apply analyzeMarket_not_ready. intros r Hr.
  destruct (readiness_ready _ _ Hr)
    as (Hlen & Hlast & Hprev & Hlm & Hpm & Hlb & Hadx & Hrsi & _ & _ & Hprsi).
  unfold Spec.populated in Hmiss.
  destruct Hmiss as [H | [H | [H | [H | [H | [H | H]]]]]].
  - lia.
  - apply H. eauto.
  - apply H. eauto.
  - apply H. eauto.
  - apply H. eauto.
  - apply H. eauto.
  - apply H. destruct (Candle.rsi (Ready.prev r)) as [v|] eqn:Hv; [eauto | done].
Qed.

Lemma strength_tier (w : Q) :
  (100 < w → getStrength w = MAX)
  ∧ (85 < w <= 100 → getStrength w = STRONG)
  ∧ (70 < w <= 85 → getStrength w = MODERATE)
  ∧ (w <= 70 → getStrength w = WEAK).
Proof.
  unfold getStrength.
  destruct (Num.gt w 100) eqn:H1; destruct (Num.gt w 85) eqn:H2;
    destruct (Num.gt w 70) eqn:H3;
    rewrite ?gt_true, ?gt_false in *;
    repeat split; intros; (done || lra).
Qed.

(** C7, as the code has it.  When [analyzeMarket] emits a signal, the
    score of the emitted side is at least 70 and the signal's strength is
    MAX above 100, STRONG above 85, MODERATE above 70, and WEAK exactly
    when that score equals the threshold 70. *)
Theorem emitted_strength_by_tier (env : Env.t) (score : Q)
    (candles : list Candle.t) (tf : string)
    (ai : option LSTMModelData.t) (s : Signal.t) :
  Analysis.signal (analyzeMarket env score candles tf ai).1 = Some s →
  ∃ r, readiness candles = IsReady r
       ∧ let w := Spec.winningScore s (tallyOf score candles r ai).1 in
         70 <= w
         ∧ (100 < w → Signal.signalStrength s = Some MAX)
         ∧ (85 < w <= 100 → Signal.signalStrength s = Some STRONG)
         ∧ (70 < w <= 85 → Signal.signalStrength s = Some MODERATE)
         ∧ (Signal.signalStrength s = Some WEAK ↔ w == 70).
Proof.
  intros Hs.
  destruct (readiness candles) as [| |r] eqn:Hr;
    [unfold analyzeMarket in Hs; rewrite Hr in Hs; done
    |unfold analyzeMarket in Hs; rewrite Hr in Hs; done |].
  exists r. split; [done |].
  rewrite (analyzeMarket_ready _ _ _ _ _ _ Hr) in Hs. simpl in Hs.
  set (t := (tallyOf score candles r ai).1) in *.
  assert (∃ ty w, s = mkSignal env ty w (Ready.last r) tf t
                  ∧ w = Spec.winningScore s t ∧ THRESHOLD <= w)
    as (ty & w & -> & Hw & Hge).
  { destruct (emit_cases env (Ready.last r) tf t)
      as [(H1 & H2 & He) | [(Hn & H1 & H2 & He) | (Hn & He)]];
      rewrite He in Hs; simpl in Hs; [| | done];
      injection Hs as <-; eauto 10. }
  rewrite <- Hw. clear Hw. unfold THRESHOLD in Hge. simpl.
  destruct (strength_tier w) as (Hmax & Hstrong & Hmod & Hweak).
  split; [done |].
  split; [intros; f_equal; auto |].
  split; [intros; f_equal; auto |].
  split; [intros; f_equal; auto |].
  split.
  - intros [= Hk].
    destruct (Qlt_le_dec 70 w) as [Hgt | Hle]; [| lra].
    destruct (Qlt_le_dec 85 w) as [Hgt2 | Hle2];
      [destruct (Qlt_le_dec 100 w) as [Hgt3 | Hle3] |].
    + rewrite Hmax in Hk by done. done.
    + rewrite Hstrong in Hk by done. done.
    + rewrite Hmod in Hk by done. done.
  - intros Heq. f_equal. apply Hweak. lra.
Qed.

End ScorerClaims.

(** The near miss as the specification pictures it (ADX 30, close above
    EMA200, bullish MACD cross, upward mid-band cross, RSI 60): with the
    histogram that goes with the cross, and the reversion strategy still
    active at ADX 30, the call score is 70, not 55. *)
Lemma borderline_scores_70 :
  ∃ r, readiness Sample.borderlineBars = IsReady r
       ∧ Tally.callScore (tallyOf 0 Sample.borderlineBars r None).1 = 70%Q
       ∧ Tally.putScore (tallyOf 0 Sample.borderlineBars r None).1 = 0%Q.
Proof.
  exists_ready Sample.borderlineBars.
  split; [vm_compute; reflexivity |]. split; vm_compute; reflexivity.
Qed.

(** C7 fails as stated: on [Sample.borderlineBars] the call score is exactly
    70, the gate [callScore >= 70] lets it through, and the emitted signal
    carries [getStrength 70 = WEAK]. *)
Lemma weak_signal_at_threshold :
  ∃ s, Analysis.signal
         (analyzeMarket Sample.env 0 Sample.borderlineBars "5m" None).1 = Some s
       ∧ Signal.signalStrength s = Some WEAK
       ∧ Signal.type s = CALL.
Proof.
  destruct (Analysis.signal
              (analyzeMarket Sample.env 0 Sample.borderlineBars "5m" None).1)
    as [s|] eqn:Hs; vm_compute in Hs; [| discriminate].
  exists s. split; [reflexivity |]. injection Hs as <-. split; reflexivity.
Qed.

(** C4 fails as stated: on [Sample.thirtyBars] the bar before the last has
    neither ADX nor a Bollinger value, and a signal is emitted all the same. *)
Lemma signal_despite_missing_prev_adx :
  length Sample.thirtyBars = 30
  ∧ (∃ p, Spec.prevBar Sample.thirtyBars = Some p
          ∧ Candle.adx p = None ∧ Candle.bollinger p = None)
  ∧ ∃ s, Analysis.signal
           (analyzeMarket Sample.env 0 Sample.thirtyBars "5m" None).1 = Some s
         ∧ Signal.signalStrength s = Some MODERATE.
Proof.
  split; [reflexivity |]. split.
  - destruct (Spec.prevBar Sample.thirtyBars) as [p|] eqn:Hp;
      vm_compute in Hp; [| discriminate].
    exists p. split; [reflexivity |]. injection Hp as <-. split; reflexivity.
  - destruct (Analysis.signal
                (analyzeMarket Sample.env 0 Sample.thirtyBars "5m" None).1)
      as [s|] eqn:Hs; vm_compute in Hs; [| discriminate].
    exists s. split; [reflexivity |]. injection Hs as <-. reflexivity.
Qed.

Lemma not_ready_witness :
  ∃ regime,
    analyzeMarket Sample.env 0 (Sample.flatBars 30) "5m" None
    = (Analysis.mk None regime None, 0%Q)
    ∧ (regime = "GATHERING_DATA"%string ∨ regime = "CALCULATING"%string).
Proof.
  apply (not_ready_without_consulted_indicators Sample.env 0
           (Sample.flatBars 30) "5m" None).
  right. left. intros (c & v & Hc & Hv).
  vm_compute in Hc. injection Hc as <-. vm_compute in Hv. discriminate.
Defined.

Lemma emitted_strength_witness :
  ∃ r, readiness Sample.thirtyBars = IsReady r
       ∧ ∃ s, Analysis.signal
                (analyzeMarket Sample.env 0 Sample.thirtyBars "5m" None).1
              = Some s
              ∧ Signal.signalStrength s = Some MODERATE
              ∧ (Signal.signalStrength s = Some WEAK
                 ↔ (Spec.winningScore s (tallyOf 0 Sample.thirtyBars r None).1
                    == 70)%Q).
Proof.
  destruct (analyzeMarket Sample.env 0 Sample.thirtyBars "5m" None).1
    as [res sg dbg] eqn:Hres.
  destruct res as [s|]; [| vm_compute in Hres; discriminate].
  destruct (emitted_strength_by_tier Sample.env 0 Sample.thirtyBars "5m" None s)
    as (r & Hr & Hw & _ & _ & _ & Hweak).
  { rewrite Hres. reflexivity. }
  exists r. split; [exact Hr |]. exists s. split; [reflexivity |].
  split; [| exact Hweak].
  vm_compute in Hres. injection Hres as <- _ _. reflexivity.
Defined.

(** ** Signal resolver *)

Section ResolverFacts.











(** The scenario of the specification: a pending CALL at 1.1000 on "5m". *)
Example call5m_wins_at_expiry :
  checkSignals 1700000300000 [Sample.call5m] 1.1010
  = [Signal.resolved Sample.call5m WIN 0.85 1.1010].
Proof. reflexivity. Qed.

Example call5m_loses_at_expiry :
  checkSignals 1700000300000 [Sample.call5m] 1.0990
  = [Signal.resolved Sample.call5m LOSS (-1) 1.0990].
Proof. reflexivity. Qed.

Example call5m_pending_after_4_minutes :
  checkSignals 1700000240000 [Sample.call5m] 1.1010 = [Sample.call5m].
Proof. reflexivity. Qed.

Example label_5m : Spec.labelMinutes "5m" 5.
Proof. by apply (Spec.label_minutes "5"). Qed.

Example label_1h : Spec.labelMinutes "1h" 60.
Proof. by apply (Spec.label_hours "1"). Qed.

End ResolverFacts.

(** ** Resampler *)

Section ResamplerFacts.

Lemma groupInsert_lookup iv (groups : gmap Z (list Candle.t)) c b :
  groupInsert iv groups c !! b
  = if decide (bucketOf iv c = b)
    then Some (default [] (groups !! b) ++ [c])
    else groups !! b.
Proof.
  unfold groupInsert. rewrite lookup_alter.
  destruct (decide (bucketOf iv c = b)) as [<- | Hne].
  - destruct (groups !! bucketOf iv c) as [g|] eqn:Hg.
    + by rewrite Hg.
    + by rewrite lookup_insert_eq.
  - destruct (groups !! bucketOf iv c); [done |].
    by rewrite lookup_insert_ne.
Qed.

(** After the grouping loop a bucket holds exactly its bars, in input
    order, and only buckets with a bar exist. *)
Lemma groupAll_lookup iv candles b :
  groupAll iv candles !! b
  = match Spec.bucketBars iv b candles with
    | [] => None
    | g => Some g
    end.
Proof.
  unfold groupAll, Spec.bucketBars.
  induction candles as [|c candles IH] using rev_ind; [done |].
  rewrite fold_left_app, filter_app. simpl.
  rewrite groupInsert_lookup, IH, filter_cons, filter_nil.
  destruct (decide (bucketOf iv c = b)) as [Hb | Hb].
  - destruct (filter _ candles) as [|x g]; done.
  - by rewrite app_nil_r.
Qed.

Lemma resample_buckets_nonempty iv candles b g :
  groupAll iv candles !! b = Some g →
  g = Spec.bucketBars iv b candles ∧ g ≠ [].
Proof.
  rewrite groupAll_lookup.
  destruct (Spec.bucketBars iv b candles) as [|x g']; [done |].
  intros [= <-]. done.
Qed.

Lemma sortedBuckets_elem (groups : gmap Z (list Candle.t)) b :
  b ∈ sortedBuckets groups ↔ is_Some (groups !! b).
Proof.
  unfold sortedBuckets. rewrite merge_sort_Permutation, list_elem_of_fmap.
  split.
  - intros ([k g] & -> & Hin). apply elem_of_map_to_list in Hin. eauto.
  - intros [g Hg]. exists (b, g). split; [done |].
    by apply elem_of_map_to_list.
Qed.

Lemma sortedBuckets_ascending (groups : gmap Z (list Candle.t)) :
  StronglySorted Z.lt (sortedBuckets groups).
Proof.
  unfold sortedBuckets.
  assert (NoDup (merge_sort Z.le (map_to_list groups).*1)) as Hnd.
  { rewrite merge_sort_Permutation. apply NoDup_fst_map_to_list. }
  assert (StronglySorted Z.le (merge_sort Z.le (map_to_list groups).*1)) as Hs.
  { apply StronglySorted_merge_sort; [apply _ | intros x y; lia]. }
  induction Hs as [|x l Hs IH Hall]; [constructor |].
  apply NoDup_cons in Hnd as [Hx Hnd].
  constructor; [by apply IH |].
  apply Forall_forall. intros y Hy.
  assert (x ≤ y)%Z by (eapply Forall_forall in Hall; [exact Hall | done]).
  assert (x ≠ y) by (intros ->; done).
  lia.
Qed.

Lemma fold_max_spec rest : ∀ x,
  (fold_left Num.Math_max rest x = x ∨ fold_left Num.Math_max rest x ∈ rest)
  ∧ (x <= fold_left Num.Math_max rest x)%Q
  ∧ ∀ y, y ∈ rest → (y <= fold_left Num.Math_max rest x)%Q.
Proof.
  induction rest as [|z rest IH]; intros x; simpl.
  - split; [by left |]. split; [lra |]. intros y Hy. by apply elem_of_nil in Hy.
  - destruct (IH (Num.Math_max x z)) as (Hin & Hge & Hall).
    destruct (Math_max_spec x z) as (Hx & Hz & Hor).
    split; [| split].
    + destruct Hin as [-> | Hin]; [| right; by right].
      destruct Hor as [-> | ->]; [by left | right; by left].
    + lra.
    + intros y Hy. apply elem_of_cons in Hy as [-> | Hy]; [lra | by apply Hall].
Qed.

Lemma fold_min_spec rest : ∀ x,
  (fold_left Num.Math_min rest x = x ∨ fold_left Num.Math_min rest x ∈ rest)
  ∧ (fold_left Num.Math_min rest x <= x)%Q
  ∧ ∀ y, y ∈ rest → (fold_left Num.Math_min rest x <= y)%Q.
Proof.
  induction rest as [|z rest IH]; intros x; simpl.
  - split; [by left |]. split; [lra |]. intros y Hy. by apply elem_of_nil in Hy.
  - destruct (IH (Num.Math_min x z)) as (Hin & Hge & Hall).
    destruct (Math_min_spec x z) as (Hx & Hz & Hor).
    split; [| split].
    + destruct Hin as [-> | Hin]; [| right; by right].
      destruct Hor as [-> | ->]; [by left | right; by left].
    + lra.
    + intros y Hy. apply elem_of_cons in Hy as [-> | Hy]; [lra | by apply Hall].
Qed.

Lemma Math_max_list_isMax xs : xs ≠ [] → Spec.isMax (Num.Math_max_list xs) xs.
Proof.
  destruct xs as [|x rest]; [done | intros _].
  unfold Spec.isMax. simpl.
  destruct (fold_max_spec rest x) as (Hin & Hge & Hall). split.
  - destruct Hin as [-> | Hin]; [by left | by right].
  - intros y Hy. apply elem_of_cons in Hy as [-> | Hy]; [done | by apply Hall].
Qed.

Lemma Math_min_list_isMin xs : xs ≠ [] → Spec.isMin (Num.Math_min_list xs) xs.
Proof.
  destruct xs as [|x rest]; [done | intros _].
  unfold Spec.isMin. simpl.
  destruct (fold_min_spec rest x) as (Hin & Hge & Hall). split.
  - destruct Hin as [-> | Hin]; [by left | by right].
  - intros y Hy. apply elem_of_cons in Hy as [-> | Hy]; [done | by apply Hall].
Qed.

Lemma volume_sum (group : list Candle.t) : ∀ acc,
  fold_left (λ sum c, (sum + Candle.volume c)%Q) group acc
  = fold_left Qplus (Candle.volume <$> group) acc.
Proof. induction group as [|c group IH]; intros acc; simpl; [done | apply IH]. Qed.

Lemma aggregate_spec ts group :
  group ≠ [] →
  ∃ bar, aggregate ts group = Some bar
         ∧ Candle.timestamp bar = ts
         ∧ Candle.open <$> head group = Some (Candle.open bar)
         ∧ Candle.close <$> last group = Some (Candle.close bar)
         ∧ Spec.isMax (Candle.high bar) (Candle.high <$> group)
         ∧ Spec.isMin (Candle.low bar) (Candle.low <$> group)
         ∧ Candle.volume bar = Num.sum (Candle.volume <$> group).
Proof.
  intros Hne. unfold aggregate.
  destruct (head group) as [first|] eqn:Hh;
    [| destruct group; done].
  destruct (last group) as [final|] eqn:Hl;
    [| apply last_None in Hl; done].
  eexists. split; [reflexivity |]. simpl.
  repeat split.
  - apply Math_max_list_isMax. by destruct group.
  - apply Math_max_list_isMax. by destruct group.
  - apply Math_min_list_isMin. by destruct group.
  - apply Math_min_list_isMin. by destruct group.
  - apply volume_sum.
Qed.

Lemma omap_Forall2 {A B} (f : A → option B) (P : A → B → Prop) (l : list A) :
  (∀ x, x ∈ l → ∃ y, f x = Some y ∧ P x y) → Forall2 P l (omap f l).
Proof.
  induction l as [|x l IH]; intros H; simpl; [constructor |].
  destruct (H x) as (y & -> & Hy); [by left |].
  constructor; [done |]. apply IH. intros x' Hx'. apply H. by right.
Qed.


End ResamplerFacts.



(** ** Signal lifecycle *)

Section LifecycleFacts.
Variable Math_sqrt : Q → Q.






(** A signal leaves the scorer PENDING and labelled with the timeframe it
    was asked about. *)
Lemma analyzeMarket_signal_fields env score candles tf ai s :
  Analysis.signal (analyzeMarket env score candles tf ai).1 = Some s →
  Signal.timeframe s = tf ∧ Signal.status s = PENDING.
Proof.
  unfold analyzeMarket.
  destruct (readiness candles) as [| |r]; [done | done |].
  destruct (tallyOf score candles r ai) as [t score']. simpl.
  destruct (emit_cases env (Ready.last r) tf t)
    as [(_ & _ & ->) | [(_ & _ & _ & ->) | (_ & ->)]]; simpl; [| | done];
    intros [= <-]; done.
Qed.

Lemma analyzeTimeframe_cases envOf ref wi ai acc tf :
  (analyzeTimeframe Math_sqrt envOf ref wi ai acc tf).1 = acc.1
  ∨ (hasActiveSignal ref (Timeframe.id tf) = false
     ∧ ∃ s, (analyzeTimeframe Math_sqrt envOf ref wi ai acc tf).1 = s :: acc.1
            ∧ Signal.timeframe s = Timeframe.id tf
            ∧ Signal.status s = PENDING
            ∧ Signal.signalStrength s ≠ Some WEAK).
Proof.
  unfold analyzeTimeframe.
  destruct (hasActiveSignal ref (Timeframe.id tf)) eqn:Hact; [by left |].
  set (r := analyzeMarket _ _ _ _ _).
  destruct (Analysis.signal r.1) as [s|] eqn:Hs; [| by left].
  destruct (decide (Signal.signalStrength s = Some WEAK)); [by left |].
  right. split; [done |]. exists s.
  destruct (analyzeMarket_signal_fields _ _ _ _ _ _ Hs) as [? ?].
  done.
Qed.





End LifecycleFacts.

(** ** Sentiment claims *)

Section SentimentClaims.
Import MarketSentiment.
Local Open Scope Q_scope.

(** C8. From any score in [-100, 100], [addNews] (the score plus 25, 15 or
    5 by impact tier, negated for NEGATIVE sentiment, zero for NEUTRAL,
    then clamped) and [getScore] (times 0.995, snapped to 0 below magnitude
    one) both leave a score in [-100, 100]. *)
Theorem sentiment_score_stays_in_range (score : Q) :
  -100 <= score <= 100 →
  (∀ item,
     addNews score item == Spec.clamp (score + Spec.signedImpact item)
     ∧ -100 <= addNews score item <= 100)
  ∧ getScore score = Spec.decayed score
  ∧ -100 <= getScore score <= 100.
Proof.
  intros Hrange. split; [| split].
  - intros item. split; [apply addNews_clamp | apply addNews_bounds].
  - apply getScore_decayed.
  - by apply getScore_bounds.
Qed.


End SentimentClaims.

Lemma sentiment_score_stays_in_range_witness :
  (∀ item,
     (MarketSentiment.addNews 100 item
      == Spec.clamp (100 + Spec.signedImpact item))%Q
     ∧ (-100 <= MarketSentiment.addNews 100 item <= 100)%Q)
  ∧ MarketSentiment.getScore 100 = Spec.decayed 100
  ∧ (-100 <= MarketSentiment.getScore 100 <= 100)%Q.
Proof. apply (sentiment_score_stays_in_range 100). split; discriminate. Defined.

(** ** Bollinger warm-up *)

(** C6 fails as stated: with exactly 20 bars, the bar at index 19 has no
    Bollinger value although 20 bars exist up to and including it. *)
Lemma bollinger_absent_at_index_19 :
  length (Sample.flatBars 20) = 20
  ∧ Candle.bollinger
      <$> (calculateIndicators (λ x, x) (Sample.flatBars 20) !! 19)
    = Some None.
Proof. split; [reflexivity | vm_compute; reflexivity]. Qed.

Lemma bollinger_populated_from_index_20_witness :
  ∃ c', calculateIndicators (λ x, x) (Sample.flatBars 21) !! 20 = Some c'
        ∧ (is_Some (Candle.bollinger c') ↔ 20 ≤ 20)
        ∧ ∃ b, Candle.bollinger c' = Some b ∧ Bollinger.middle b = (20 # 20)%Q.
Proof.
  destruct (calculateIndicators (λ x, x) (Sample.flatBars 21) !! 20)
    as [c'|] eqn:Hc'; [| vm_compute in Hc'; discriminate].
  exists c'. split; [reflexivity |].
  destruct (bollinger_populated_from_index_20 (λ x, x) (Sample.flatBars 21)
              20 c' Hc') as (Hiff & _ & Hb).
  split; [exact Hiff |].
  destruct (Hb (le_n 20)) as (b & Hsome & Hmid & _).
  exists b. split; [exact Hsome |]. rewrite Hmid. vm_compute. reflexivity.
Defined.

(** ** What the application keeps *)

Section AppFacts.
Variable Math_sqrt : Q → Q.

Lemma checkSignal_strength now price s :
  Signal.signalStrength (checkSignal now price s) = Signal.signalStrength s.
Proof.
  unfold checkSignal.
  destruct (decide (Signal.status s ≠ PENDING)); [done |].
  destruct (isDue now s); [| done].
  destruct (bool_decide (Signal.type s = CALL) && Num.gt price (Signal.price s));
    [| destruct (bool_decide (Signal.type s = PUT)
                 && Num.lt price (Signal.price s))];
    reflexivity.
Qed.

Lemma scoring_pass_no_weak envOf ref wi ai tfs : ∀ acc,
  Forall (λ s, Signal.signalStrength s ≠ Some WEAK) acc.1 →
  Forall (λ s, Signal.signalStrength s ≠ Some WEAK)
         (fold_left (analyzeTimeframe Math_sqrt envOf ref wi ai) tfs acc).1.
Proof.
  induction tfs as [|tf tfs IH]; intros acc Hacc; [done |].
  simpl. apply IH.
  destruct (analyzeTimeframe_cases Math_sqrt envOf ref wi ai acc tf)
    as [-> | (_ & s & -> & _ & _ & Hs)]; [done |].
  by constructor.
Qed.

(** The bar-close handler drops a WEAK signal, so none is ever in the
    application's signal list. *)
Lemma no_weak_signal_is_kept (events : list App.event) :
  Forall (λ s, Signal.signalStrength s ≠ Some WEAK)
         (App.signals (App.run Math_sqrt events)).
Proof.
  unfold App.run. induction events as [|e events IH] using rev_ind.
  - constructor.
  - rewrite fold_left_app. simpl.
    destruct e as [hist | md | item | completed envOf | now price];
      unfold App.step; [exact IH | exact IH | exact IH | |].
    + unfold App.onBarClose. cbn [App.signals].
      by apply scoring_pass_no_weak.
    + unfold App.onResolutionTick.
      destruct (decide (0 < length (App.candlesRef _))); [| exact IH].
      cbn [App.signals]. unfold checkSignals.
      apply Forall_fmap. eapply Forall_impl; [exact IH |].
      intros s Hs. simpl. by rewrite checkSignal_strength.
Qed.

(** Scoring reads the sentiment singleton exactly once. *)
Lemma tally_sentiment score candles last prev lm pm lb adx rsi ai :
  (tally score candles last prev lm pm lb adx rsi ai).2
  = MarketSentiment.getScore score.
Proof.
  unfold tally.
  repeat match goal with
         | |- context [let '(_, _) := ?e in _] => destruct e
         end.
  reflexivity.
Qed.

Lemma analyzeMarket_sentiment env score candles tf ai :
  (analyzeMarket env score candles tf ai).2 = score
  ∨ (analyzeMarket env score candles tf ai).2 = MarketSentiment.getScore score.
Proof.
  destruct (readiness candles) as [| |r] eqn:Hr.
  - left. unfold analyzeMarket. by rewrite Hr.
  - left. unfold analyzeMarket. by rewrite Hr.
  - right. rewrite (analyzeMarket_ready _ _ _ _ _ _ Hr). simpl.
    apply tally_sentiment.
Qed.

Lemma scoring_pass_sentiment envOf ref wi ai tfs : ∀ acc,
  (-100 <= acc.2 <= 100)%Q →
  (-100 <= (fold_left (analyzeTimeframe Math_sqrt envOf ref wi ai) tfs acc).2
   <= 100)%Q.
Proof.
  induction tfs as [|tf tfs IH]; intros acc Hacc; [done |].
  simpl. apply IH. unfold analyzeTimeframe.
  destruct (hasActiveSignal ref (Timeframe.id tf)); [done |].
  set (r := analyzeMarket _ _ _ _ _).
  assert (-100 <= r.2 <= 100)%Q as Hr.
  { subst r.
    destruct (analyzeMarket_sentiment (envOf (Timeframe.id tf)) acc.2
                (calculateIndicators Math_sqrt
                   (resampleCandles wi (Timeframe.value tf)))
                (Timeframe.id tf) ai) as [-> | ->];
      [done | by apply getScore_bounds]. }
  destruct (Analysis.signal r.1) as [s|]; [| done].
  by destruct (decide (Signal.signalStrength s = Some WEAK)).
Qed.

(** The sentiment singleton stays in [-100, 100] along every run. *)
Lemma sentiment_in_range_always (events : list App.event) :
  (-100 <= App.sentiment (App.run Math_sqrt events) <= 100)%Q.
Proof.
  unfold App.run. induction events as [|e events IH] using rev_ind.
  - simpl. unfold MarketSentiment.initial. split; discriminate.
  - rewrite fold_left_app. simpl.
    destruct e as [hist | md | item | completed envOf | now price];
      unfold App.step; [exact IH | exact IH | | |].
    + cbn [App.sentiment]. apply addNews_bounds.
    + unfold App.onBarClose. cbn [App.sentiment].
      by apply scoring_pass_sentiment.
    + unfold App.onResolutionTick.
      by destruct (decide (0 < length (App.candlesRef _))).
Qed.

End AppFacts.

(** * Further properties of the code *)

(** ** Indicator pass: value ranges and warm-up *)

Section IndicatorRanges.
Variable Math_sqrt : Q → Q.
Local Open Scope Q_scope.

Lemma calcRMA_within lo hi val prev :
  lo <= val <= hi → optWithin lo hi prev →
  lo <= calcRMA val prev (QofNat 14) <= hi.
Proof.
  intros Hv Hp. unfold calcRMA. destruct prev as [p|]; [| done].
  specialize (Hp p eq_refl). change (QofNat 14) with 14.
  split.
  - apply Qle_shift_div_l; [reflexivity | lra].
  - apply Qle_shift_div_r; [reflexivity | lra].
Qed.

Lemma calcRMA_nonneg val prev :
  0 <= val → optNonneg prev → 0 <= calcRMA val prev (QofNat 14).
Proof.
  intros Hv Hp. unfold calcRMA. destruct prev as [p|]; [| done].
  specialize (Hp p eq_refl). change (QofNat 14) with 14.
  apply Qle_shift_div_l; [reflexivity | lra].
Qed.

Lemma gainOf_nonneg chg : 0 <= gainOf chg.
Proof. unfold gainOf. destruct (Num.gt chg 0) eqn:H; [apply gt_true in H|]; lra. Qed.

Lemma lossOf_nonneg chg : 0 <= lossOf chg.
Proof. unfold lossOf, Num.Math_abs. destruct (Num.lt chg 0); [apply Qabs_nonneg | lra]. Qed.

Lemma initialMoves_nonneg (array initialSlice : list Candle.t) (pick : Q → Q) :
  (∀ x, 0 <= pick x) → 0 <= initialMoves array initialSlice pick.
Proof.
  intros Hpick. unfold initialMoves.
  assert (∀ (l : list (nat * Candle.t)) acc, 0 <= acc →
            0 <= fold_left
                   (λ acc ic,
                      match array !! (ic.1 : nat) with
                      | Some before =>
                          acc + pick (Candle.close ic.2 - Candle.close before)
                      | None => acc
                      end) l acc) as H.
  { induction l as [|x l IH]; intros acc Hacc; simpl; [done |].
    apply IH. destruct (array !! x.1) as [before|]; [| done].
    specialize (Hpick (Candle.close x.2 - Candle.close before)). lra. }
  apply H. lra.
Qed.

Lemma orNum_pos l d : 0 <= l → 0 < d → 0 < Num.orNum l d.
Proof.
  intros Hl Hd. unfold Num.orNum. destruct (Qeq_bool l 0) eqn:E; [done |].
  apply Qeq_bool_neq in E. destruct (Qlt_le_dec 0 l) as [|Hle]; [done |].
  exfalso. apply E. lra.
Qed.

Lemma orElse_pos o d : optNonneg o → 0 < d → 0 < Num.orElse o d.
Proof.
  intros Ho Hd. unfold Num.orElse. destruct o as [v|]; [| done].
  apply (orNum_pos v d); [by apply Ho | done].
Qed.

Lemma orElse_nonneg o : optNonneg o → 0 <= Num.orElse o 0.
Proof.
  intros Ho. unfold Num.orElse. destruct o as [v|]; [| lra].
  destruct (Qeq_bool v 0); [lra | by apply Ho].
Qed.

Lemma div_nonneg a b : 0 <= a → 0 < b → 0 <= a / b.
Proof. intros Ha Hb. apply Qle_shift_div_l; [done | lra]. Qed.

(** The relative-strength formula stays in [0, 100). *)
Lemma rsi_formula_range g l :
  0 <= g → 0 <= l →
  0 <= 100 - 100 / (1 + g / Num.orNum l 0.0000001) < 100.
Proof.
  intros Hg Hl.
  assert (0 < Num.orNum l 0.0000001) as Hd by (by apply orNum_pos).
  pose proof (div_nonneg g _ Hg Hd) as Hrs.
  set (rs := g / Num.orNum l 0.0000001) in *.
  assert (0 < 1 + rs) as Hpos by lra.
  assert (100 / (1 + rs) <= 100) as Hle.
  { apply Qle_shift_div_r; [done | lra]. }
  assert (0 < 100 / (1 + rs)) as Hgt.
  { unfold Qdiv. apply Qmult_lt_0_compat; [reflexivity |].
    by apply Qinv_lt_0_compat. }
  lra.
Qed.

(** The directional index stays in [0, 100]. *)
Lemma dx_formula_range pDI mDI :
  0 <= pDI → 0 <= mDI →
  0 <= 100 * Num.Math_abs (pDI - mDI) / Num.orNum (pDI + mDI) 1 <= 100.
Proof.
  intros Hp Hm. unfold Num.Math_abs.
  assert (0 < Num.orNum (pDI + mDI) 1) as Hd by (apply orNum_pos; lra).
  pose proof (Qabs_nonneg (pDI - mDI)) as Habs.
  assert (Qabs (pDI - mDI) <= pDI + mDI) as Hle.
  { apply Qabs_Qle_condition. lra. }
  split.
  - apply div_nonneg; [lra | done].
  - apply Qle_shift_div_r; [done |].
    unfold Num.orNum in *. destruct (Qeq_bool (pDI + mDI) 0) eqn:E.
    + apply Qeq_bool_iff in E. lra.
    + lra.
Qed.

Lemma trueRange_nonneg (a b c : Q) :
  0 <= Num.Math_max (Num.Math_max a (Num.Math_abs b)) (Num.Math_abs c).
Proof.
  destruct (Math_max_spec (Num.Math_max a (Num.Math_abs b)) (Num.Math_abs c))
    as (_ & H & _).
  pose proof (Qabs_nonneg c). unfold Num.Math_abs in *. lra.
Qed.

Lemma directional_nonneg (move other : Q) :
  0 <= (if Num.gt move other && Num.gt move 0 then move else 0).
Proof.
  destruct (Num.gt move other); simpl; [| lra].
  destruct (Num.gt move 0) eqn:H; [apply gt_true in H |]; lra.
Qed.

Lemma optNonneg_Some v : 0 <= v → optNonneg (Some v).
Proof. intros H w [= <-]. done. Qed.

Lemma optWithin_Some lo hi v : lo <= v <= hi → optWithin lo hi (Some v).
Proof. intros H w [= <-]. done. Qed.

Lemma optNonneg_None : optNonneg None.
Proof. intros v H. done. Qed.

Lemma optWithin_None lo hi : optWithin lo hi None.
Proof. intros v H. done. Qed.

Lemma macdAt_presence i e12 e26 sl :
  is_Some (macdAt i e12 e26 sl).2 ↔ (26 ≤ i)%nat.
Proof.
  unfold macdAt, macdSlow. destruct (decide (26 ≤ i)%nat); simpl.
  - split; eauto.
  - split; [intros [? ?]; done | lia].
Qed.

Lemma is_Some_Some_iff {A} (x : A) (P : Prop) : P → (is_Some (Some x) ↔ P).
Proof. intros HP. split; eauto. Qed.

Lemma is_Some_None_iff {A} (P : Prop) : ¬ P → (is_Some (@None A) ↔ P).
Proof. intros HP. split; [intros [? ?]; done | done]. Qed.

Lemma wilder_avg_nonneg a x : 0 <= a → 0 <= x →
  0 <= (a * (QofNat rsiPeriod - 1) + x) / QofNat rsiPeriod.
Proof.
  intros Ha Hx. change (QofNat rsiPeriod) with 14.
  apply div_nonneg; [lra | reflexivity].
Qed.

Lemma initial_avg_nonneg (array sl : list Candle.t) (pick : Q → Q) :
  (∀ x, 0 <= pick x) → 0 <= initialMoves array sl pick / QofNat rsiPeriod.
Proof.
  intros H. apply div_nonneg; [by apply initialMoves_nonneg | reflexivity].
Qed.

(** One callback turn keeps the invariant of the closure variables and
    returns a bar with the expected fields. *)
Lemma indicatorStep_ok array i st c :
  array !! i = Some c → indicatorStateOk i st →
  indicatorStateOk (S i) (indicatorStep Math_sqrt array i st c).1
  ∧ indicatorOutputOk i (indicatorStep Math_sqrt array i st c).2.
Proof.
  intros Hc (HgS & HlS & Hg & Hl & Htr & Hp & Hm & Hadx).
  unfold indicatorStep.
  pose proof (macdAt_presence i
                (Some (calcEMA (Candle.close c) (Ind.ema12 st) macdFast))
                (Some (calcEMA (Candle.close c) (Ind.ema26 st) (QofNat macdSlow)))
                (Ind.macdSignalLine st)) as Hmacd.
  destruct (macdAt _ _ _ _) as [sigLine m]. simpl in Hmacd.
  destruct (decide (i = 0%nat)) as [-> | Hi].
  { simpl. unfold indicatorStateOk, indicatorOutputOk. simpl.
    split.
    - split; [split; [intros H; apply HgS in H; lia | lia] |].
      split; [split; [intros H; apply HlS in H; lia | lia] |].
      done.
    - split; [eauto |]. split; [done |].
      repeat (split; [apply is_Some_None_iff; lia |]).
      split; [apply optNonneg_None |]. split; [apply optWithin_None | done]. }
  destruct (array !! (i - 1)%nat) as [prev|] eqn:Hprev.
  2: { apply lookup_ge_None in Hprev. apply lookup_lt_Some in Hc. lia. }
  match goal with
  | |- context [calcRMA ?v (Ind.smoothTR st) ?p] =>
      pose proof (calcRMA_nonneg v (Ind.smoothTR st)
                    (trueRange_nonneg _ _ _) Htr) as HsTR;
      set (sTR := calcRMA v (Ind.smoothTR st) p) in *
  end.
  match goal with
  | |- context [calcRMA ?v (Ind.smoothPlusDM st) ?p] =>
      pose proof (calcRMA_nonneg v (Ind.smoothPlusDM st)
                    (directional_nonneg _ _) Hp) as HsP;
      set (sP := calcRMA v (Ind.smoothPlusDM st) p) in *
  end.
  match goal with
  | |- context [calcRMA ?v (Ind.smoothMinusDM st) ?p] =>
      pose proof (calcRMA_nonneg v (Ind.smoothMinusDM st)
                    (directional_nonneg _ _) Hm) as HsM;
      set (sM := calcRMA v (Ind.smoothMinusDM st) p) in *
  end.
  change (0 <= sTR) in HsTR. change (0 <= sP) in HsP. change (0 <= sM) in HsM.
  assert (0 < Num.orElse (Some sTR) 1) as HtrPos
    by (apply orElse_pos; [by apply optNonneg_Some | reflexivity]).
  assert (0 <= 100 * Num.orElse (Some sP) 0 / Num.orElse (Some sTR) 1) as HpDI.
  { apply div_nonneg; [| done].
    pose proof (orElse_nonneg (Some sP) (optNonneg_Some _ HsP)). lra. }
  assert (0 <= 100 * Num.orElse (Some sM) 0 / Num.orElse (Some sTR) 1) as HmDI.
  { apply div_nonneg; [| done].
    pose proof (orElse_nonneg (Some sM) (optNonneg_Some _ HsM)). lra. }
  pose proof (dx_formula_range _ _ HpDI HmDI) as Hdx.
  match type of Hdx with
  | (0 <= ?d <= 100) =>
      pose proof (calcRMA_within 0 100 d (Ind.prevAdx st) Hdx Hadx) as Hnew;
      set (newAdx := calcRMA d (Ind.prevAdx st) (QofNat adxPeriod)) in *
  end.
  change (0 <= newAdx <= 100) in Hnew.
  clearbody newAdx sTR sP sM.
  pose proof (wilder_avg_nonneg) as Hw.
  pose proof (initial_avg_nonneg array (slice array 1 (rsiPeriod + 1)) gainOf
                gainOf_nonneg) as HiG.
  pose proof (initial_avg_nonneg array (slice array 1 (rsiPeriod + 1)) lossOf
                lossOf_nonneg) as HiL.
  pose proof (gainOf_nonneg (Candle.close c - Candle.close prev)) as HgN.
  pose proof (lossOf_nonneg (Candle.close c - Candle.close prev)) as HlN.
  unfold adxPeriod, rsiPeriod in *.
  destruct (decide (14 * 2 < i)%nat) as [Hadxi | Hadxi];
    destruct (Ind.avgGain st) as [g|] eqn:Eg;
    destruct (Ind.avgLoss st) as [l|] eqn:El;
    try (destruct (decide (i = 14%nat)) as [Hi14 | Hi14]);
    unfold indicatorStateOk, indicatorOutputOk;
    cbn [fst snd Ind.avgGain Ind.avgLoss Ind.smoothTR
      Ind.smoothPlusDM Ind.smoothMinusDM Ind.prevAdx Candle.withIndicators
      Candle.ema200 Candle.macd Candle.atr Candle.adx Candle.rsi].
  all: try (assert (15 ≤ i)%nat as HgeG by (apply HgS; eauto)).
  all: try (assert (15 ≤ i)%nat as HgeL by (apply HlS; eauto)).
  all: try (assert (¬ (15 ≤ i)%nat) as HltG
              by (intros HH; apply HgS in HH; destruct HH; done)).
  all: try (assert (¬ (15 ≤ i)%nat) as HltL
              by (intros HH; apply HlS in HH; destruct HH; done)).
  all: try (exfalso; lia).
  all: try (assert (0 <= g) as Hg0 by (by apply Hg)).
  all: try (assert (0 <= l) as Hl0 by (by apply Hl)).
  all: split_and!.
  all: try (apply is_Some_Some_iff; lia).
  all: try (apply is_Some_None_iff; lia).
  all: try (apply optNonneg_Some; first [assumption | by apply Hw]).
  all: try apply optNonneg_None.
  all: try (apply optWithin_Some; assumption).
  all: try apply optWithin_None.
  all: try (by eauto).
  all: try (apply Hmacd).
  all: try (intros v [= <-];
            apply rsi_formula_range; first [assumption | by apply Hw]).
  all: try done.
Qed.

(** A predicate on the closure variables that every callback turn keeps
    holds before each bar of the pass. *)
Lemma indicatorLoop_invariant (Inv : nat → Ind.state → Prop) array :
  (∀ i st c, array !! i = Some c → Inv i st →
             Inv (S i) (indicatorStep Math_sqrt array i st c).1) →
  ∀ rest index st,
    rest = drop index array → Inv index st →
    ∀ k c, rest !! k = Some c →
      ∃ st', Inv (index + k)%nat st'
             ∧ indicatorLoop Math_sqrt array index st rest !! k
               = Some (indicatorStep Math_sqrt array (index + k) st' c).2.
Proof.
  intros Hstep. induction rest as [|c0 rest IH]; intros index st Hrest Hinv k c Hk;
    [done |].
  assert (array !! index = Some c0) as Hc0.
  { rewrite <- (Nat.add_0_r index), <- lookup_drop, <- Hrest. done. }
  assert (rest = drop (S index) array) as Hrest'.
  { rewrite <- (Nat.add_1_r index), <- drop_drop, <- Hrest. done. }
  destruct k as [|k]; simpl in *.
  - injection Hk as ->. exists st. rewrite Nat.add_0_r. done.
  - destruct (IH (S index) (indicatorStep Math_sqrt array index st c0).1
                Hrest' (Hstep _ _ _ Hc0 Hinv) k c Hk) as (st' & Hinv' & Hst').
    exists st'. replace (index + S k)%nat with (S index + k)%nat by lia. done.
Qed.

Lemma calculateIndicators_invariant (Inv : nat → Ind.state → Prop) candles :
  (∀ i st c, candles !! i = Some c → Inv i st →
             Inv (S i) (indicatorStep Math_sqrt candles i st c).1) →
  Inv 0%nat Ind.init →
  ∀ i c', calculateIndicators Math_sqrt candles !! i = Some c' →
    ∃ c st', candles !! i = Some c ∧ Inv i st'
             ∧ c' = (indicatorStep Math_sqrt candles i st' c).2.
Proof.
  intros Hstep Hinit i c' Hc'.
  assert (i < length candles)%nat as Hlen.
  { rewrite <- (calculateIndicators_length Math_sqrt). by eapply lookup_lt_Some. }
  destruct (lookup_lt_is_Some_2 candles i Hlen) as [c Hc].
  destruct (indicatorLoop_invariant Inv candles Hstep candles 0%nat Ind.init
              eq_refl Hinit i c Hc) as (st' & Hst' & Heq).
  unfold calculateIndicators in Hc'. rewrite Heq in Hc'. injection Hc' as <-.
  eauto.
Qed.

Lemma indicatorStateOk_init : indicatorStateOk 0 Ind.init.
Proof.
  unfold indicatorStateOk. simpl. split_and!;
    try (split; [intros [? ?]; done | lia]); intros v H; done.
Qed.

Lemma calculateIndicators_outputOk candles i c' :
  calculateIndicators Math_sqrt candles !! i = Some c' → indicatorOutputOk i c'.
Proof.
  intros Hc'.
  destruct (calculateIndicators_invariant indicatorStateOk candles
              (λ i st c Hc Hst, proj1 (indicatorStep_ok candles i st c Hc Hst))
              indicatorStateOk_init i c' Hc') as (c & st' & Hc & Hst' & ->).
  by apply indicatorStep_ok.
Qed.

(** X1. After the indicator pass, a bar at position [i] always has EMA200;
    it has ATR exactly from position 1 on, RSI from 14 on, MACD from 26 on
    and ADX from 29 on. *)
Theorem indicator_warmup_table (candles : list Candle.t) (i : nat)
    (c' : Candle.t) :
  calculateIndicators Math_sqrt candles !! i = Some c' →
  is_Some (Candle.ema200 c')
  ∧ (is_Some (Candle.atr c') ↔ (1 ≤ i)%nat)
  ∧ (is_Some (Candle.rsi c') ↔ (14 ≤ i)%nat)
  ∧ (is_Some (Candle.macd c') ↔ (26 ≤ i)%nat)
  ∧ (is_Some (Candle.adx c') ↔ (29 ≤ i)%nat).
Proof.
  intros Hc'.
  destruct (calculateIndicators_outputOk candles i c' Hc')
    as (He & Hm & Ha & Hx & Hr & _).
  done.
Qed.

(** X2. Every value the indicator pass attaches is in range: ATR is never
    negative, ADX lies in [0, 100] and RSI in [0, 100). *)
Theorem indicator_value_ranges (candles : list Candle.t) (i : nat)
    (c' : Candle.t) :
  calculateIndicators Math_sqrt candles !! i = Some c' →
  (∀ v, Candle.atr c' = Some v → 0 <= v)
  ∧ (∀ v, Candle.adx c' = Some v → 0 <= v <= 100)
  ∧ (∀ v, Candle.rsi c' = Some v → 0 <= v < 100).
Proof.
  intros Hc'.
  destruct (calculateIndicators_outputOk candles i c' Hc')
    as (_ & _ & _ & _ & _ & Hatr & Hadx & Hrsi).
  done.
Qed.

End IndicatorRanges.

Section IndicatorStructure.
Variable Math_sqrt : Q → Q.
Local Open Scope Q_scope.

Lemma indicatorStep_macd array i st c :
  Candle.macd (indicatorStep Math_sqrt array i st c).2
  = (macdAt i (Some (calcEMA (Candle.close c) (Ind.ema12 st) macdFast))
       (Some (calcEMA (Candle.close c) (Ind.ema26 st) (QofNat macdSlow)))
       (Ind.macdSignalLine st)).2.
Proof.
  unfold indicatorStep.
  repeat match goal with
         | |- context [let '(_, _) := ?e in _] => destruct e
         end.
  reflexivity.
Qed.

Lemma macdAt_consistent i e12 e26 sl m :
  (macdAt i e12 e26 sl).2 = Some m →
  Macd.hist m = Macd.line m - Macd.signal m
  ∧ Macd.line m = Num.orElse e12 0 - Num.orElse e26 0.
Proof.
  unfold macdAt. destruct (decide (macdSlow ≤ i)%nat); simpl; [| done].
  intros [= <-]. done.
Qed.

(** X4. Whenever the indicator pass populates MACD on a bar, the histogram
    it stores is the line minus the signal. *)
Theorem macd_histogram_consistent (candles : list Candle.t) (i : nat)
    (c' : Candle.t) (m : Macd.t) :
  calculateIndicators Math_sqrt candles !! i = Some c' →
  Candle.macd c' = Some m →
  Macd.hist m = Macd.line m - Macd.signal m.
Proof.
  intros Hc' Hm.
  assert (i < length candles)%nat as Hlen.
  { rewrite <- (calculateIndicators_length Math_sqrt). by eapply lookup_lt_Some. }
  destruct (lookup_lt_is_Some_2 candles i Hlen) as [c Hc].
  destruct (calculateIndicators_lookup Math_sqrt candles i c Hc) as [st' Hst'].
  rewrite Hst' in Hc'. injection Hc' as <-.
  rewrite indicatorStep_macd in Hm.
  by destruct (macdAt_consistent _ _ _ _ _ Hm).
Qed.

(** X3. With a square root that is never negative, every Bollinger value the
    pass attaches has lower <= middle <= upper. *)
Theorem bollinger_bands_ordered (candles : list Candle.t) (i : nat)
    (c' : Candle.t) (b : Bollinger.t) :
  (∀ x, 0 <= Math_sqrt x) →
  calculateIndicators Math_sqrt candles !! i = Some c' →
  Candle.bollinger c' = Some b →
  Bollinger.lower b <= Bollinger.middle b <= Bollinger.upper b.
Proof.
  intros Hsqrt Hc' Hb.
  rewrite (calculateIndicators_bollinger Math_sqrt _ _ _ Hc') in Hb.
  unfold bollingerAt in Hb. destruct (decide (bbPeriod ≤ i)%nat); [| done].
  injection Hb as <-. simpl.
  match goal with |- context [Math_sqrt ?v] => pose proof (Hsqrt v) end.
  unfold bbMult. lra.
Qed.

Local Close Scope Q_scope.

Lemma withIndicators_frame c c' m b e a t r :
  sameFrame c c' →
  Candle.withIndicators c m b e a t r = Candle.withIndicators c' m b e a t r.
Proof.
  intros ((H1 & H2 & H3 & H4 & H5 & H6 & H7) & H8 & H9 & H10).
  unfold Candle.withIndicators. congruence.
Qed.

Lemma agree_close i A A' j :
  agreeUpTo i A A' → j ≤ i →
  Candle.close <$> A !! j = Candle.close <$> A' !! j.
Proof.
  intros H Hj. specialize (H j Hj).
  destruct (A !! j), (A' !! j); simpl in *; try done.
  unfold base3 in H. congruence.
Qed.

Lemma slice_closes_ext A A' a b i :
  agreeUpTo i A A' → b ≤ S i →
  Candle.close <$> slice A a b = Candle.close <$> slice A' a b.
Proof.
  intros H Hb. apply list_eq. intros j.
  rewrite !list_lookup_fmap. unfold slice. rewrite !lookup_take.
  destruct (decide (j < b - a)); [| done].
  rewrite !lookup_drop. apply (agree_close i); [done | lia].
Qed.

Lemma bollingerAt_ext A A' i :
  agreeUpTo i A A' → bollingerAt Math_sqrt A i = bollingerAt Math_sqrt A' i.
Proof.
  intros H. unfold bollingerAt.
  destruct (decide (bbPeriod ≤ i)); [| done].
  by rewrite (slice_closes_ext A A' _ (i + 1) i H) by lia.
Qed.

Lemma fold_moves_ext (A A' : list Candle.t) (pick : Q → Q) (sl : list Candle.t) : ∀ sl' (g : nat → nat) acc,
  Candle.close <$> sl = Candle.close <$> sl' →
  (∀ k, k < length sl →
        Candle.close <$> A !! g k = Candle.close <$> A' !! g k) →
  fold_left
    (λ acc (ic : nat * Candle.t),
       match A !! (ic.1 : nat) with
       | Some before =>
           (acc + pick (Candle.close ic.2 - Candle.close before))%Q
       | None => acc
       end)
    (imap (λ i x, (g i, x)) sl) acc
  = fold_left
      (λ acc (ic : nat * Candle.t),
         match A' !! (ic.1 : nat) with
         | Some before =>
             (acc + pick (Candle.close ic.2 - Candle.close before))%Q
         | None => acc
         end)
      (imap (λ i x, (g i, x)) sl') acc.
Proof.
  induction sl as [|x sl IH]; intros sl' g acc Hcl Hlook;
    destruct sl' as [|x' sl']; try done.
  rewrite !fmap_cons in Hcl. injection Hcl as Hx Hcl.
  rewrite !imap_cons. simpl.
  pose proof (Hlook 0 ltac:(simpl; lia)) as H0.
  rewrite Hx.
  replace (match A !! g 0 with
           | Some before => (acc + pick (Candle.close x' - Candle.close before))%Q
           | None => acc
           end)
    with (match A' !! g 0 with
          | Some before => (acc + pick (Candle.close x' - Candle.close before))%Q
          | None => acc
          end).
  2: { destruct (A !! g 0), (A' !! g 0); simpl in H0; try done. congruence. }
  apply (IH sl' (g ∘ S)); [done |].
  intros k Hk. apply (Hlook (S k)). simpl. lia.
Qed.

Lemma initialMoves_ext (A A' : list Candle.t) (pick : Q → Q) :
  agreeUpTo 14 A A' →
  initialMoves A (slice A 1 15) pick = initialMoves A' (slice A' 1 15) pick.
Proof.
  intros H. unfold initialMoves.
  apply (fold_moves_ext A A' pick (slice A 1 15) (slice A' 1 15) (λ k, k)).
  - by apply (slice_closes_ext A A' 1 15 14).
  - intros k Hk. apply (agree_close 14); [done |].
    unfold slice in Hk. rewrite length_take in Hk. lia.
Qed.


(** A callback turn reads the array only through the close, high and low of
    the bars up to its own position, and the bar itself only through the
    fields it keeps. *)
Lemma indicatorStep_ext A A' i st c c' :
  agreeUpTo i A A' → sameFrame c c' →
  indicatorStep Math_sqrt A i st c = indicatorStep Math_sqrt A' i st c'.
Proof.
  intros Hagree Hframe.
  pose proof Hframe as ((_ & _ & Hhigh & Hlow & Hclose & _ & _) & _).
  assert (∀ m b e a t r,
            Candle.withIndicators c m b e a t r
            = Candle.withIndicators c' m b e a t r) as Hw
    by (intros; by apply withIndicators_frame).
  unfold indicatorStep.
  rewrite (bollingerAt_ext A A' i Hagree).
  rewrite <- Hclose, <- Hhigh, <- Hlow.
  assert ((if decide (i = 0) then None else A !! (i - 1)) = None
          ∧ (if decide (i = 0) then None else A' !! (i - 1)) = None
          ∨ ∃ p p', (if decide (i = 0) then None else A !! (i - 1)) = Some p
                    ∧ (if decide (i = 0) then None else A' !! (i - 1)) = Some p'
                    ∧ base3 p = base3 p') as Hprev.
  { destruct (decide (i = 0)); [by left |].
    pose proof (Hagree (i - 1) ltac:(lia)) as H.
    destruct (A !! (i - 1)) as [p|], (A' !! (i - 1)) as [p'|]; simpl in H;
      try done; [right | by left].
    exists p, p'. split_and!; try done. congruence. }
  destruct Hprev as [[-> ->] | (p & p' & -> & -> & Hb)].
  - repeat match goal with
           | |- context [let '(_, _) := ?e in _] => destruct e
           end.
    by rewrite Hw.
  - unfold base3 in Hb. injection Hb as Hpc Hph Hpl.
    cbv beta iota. rewrite Hpc, Hph, Hpl.
    destruct (decide (i = rsiPeriod)) as [-> | Hne].
    + unfold rsiPeriod in *. change (14 + 1) with 15.
      rewrite !(initialMoves_ext A A' _ Hagree).
      repeat match goal with
             | |- context [let '(_, _) := ?e in _] => destruct e
             end.
      by rewrite Hw.
    + repeat match goal with
             | |- context [let '(_, _) := ?e in _] => destruct e
             end.
      by rewrite Hw.
Qed.

Lemma indicatorLoop_ext A A' : ∀ rest rest' index st,
  Forall2 sameFrame rest rest' →
  (∀ j, j < index + length rest → base3 <$> A !! j = base3 <$> A' !! j) →
  indicatorLoop Math_sqrt A index st rest
  = indicatorLoop Math_sqrt A' index st rest'.
Proof.
  induction rest as [|c rest IH]; intros rest' index st Hf Hagree;
    inversion Hf as [|? c' ? rest'' Hc Hrest]; subst; [done |].
  simpl.
  rewrite (indicatorStep_ext A A' index st c c'); [| | done].
  2: { intros j Hj. apply Hagree. simpl. lia. }
  f_equal. apply IH; [done |].
  intros j Hj. apply Hagree. simpl. lia.
Qed.

Lemma indicatorLoop_take A : ∀ rest index st n,
  take n (indicatorLoop Math_sqrt A index st rest)
  = indicatorLoop Math_sqrt A index st (take n rest).
Proof.
  induction rest as [|c rest IH]; intros index st n; destruct n; simpl;
    try done.
  by rewrite IH.
Qed.

Lemma sameFrame_refl c : sameFrame c c.
Proof. by repeat split. Qed.

Lemma sameFrame_base3 c c' : sameFrame c c' → base3 c = base3 c'.
Proof.
  intros ((_ & _ & Hh & Hl & Hc & _) & _). unfold base3. congruence.
Qed.

Lemma Forall2_sameFrame_agree (A A' : list Candle.t) j :
  Forall2 sameFrame A A' → base3 <$> A !! j = base3 <$> A' !! j.
Proof.
  intros H. revert j. induction H as [|c c' A A' Hc HA IH]; intros j; [done |].
  destruct j; simpl; [| apply IH].
  f_equal. by apply sameFrame_base3.
Qed.

Lemma indicatorLoop_sameFrame array rest : ∀ index st,
  Forall2 sameFrame (indicatorLoop Math_sqrt array index st rest) rest.
Proof.
  induction rest as [|c rest IH]; intros index st; simpl; constructor.
  - destruct (indicatorStep_shape Math_sqrt array index st c)
      as (m & e & a & t & r & ->).
    by repeat split.
  - apply IH.
Qed.

(** X5. The indicator pass has no lookahead: the indicators of the first
    [n] bars are the same whether or not later bars are present. *)
Theorem indicators_are_causal (candles : list Candle.t) (n : nat) :
  calculateIndicators Math_sqrt (take n candles)
  = take n (calculateIndicators Math_sqrt candles).
Proof.
  unfold calculateIndicators. rewrite indicatorLoop_take.
  apply indicatorLoop_ext.
  - apply Forall_Forall2_diag, Forall_forall. intros; apply sameFrame_refl.
  - intros j Hj. simpl in Hj. rewrite length_take in Hj.
    by rewrite lookup_take_lt by lia.
Qed.

(** X6. The indicator pass reads nothing of the indicator fields already on
    its input: two inputs that agree on the kept fields give the same
    output, and running the pass on its own output changes nothing. *)
Theorem indicators_ignore_stale_fields :
  (∀ A A' : list Candle.t,
     Forall2 sameFrame A A' →
     calculateIndicators Math_sqrt A = calculateIndicators Math_sqrt A')
  ∧ (∀ A, calculateIndicators Math_sqrt (calculateIndicators Math_sqrt A)
          = calculateIndicators Math_sqrt A).
Proof.
  assert (∀ A A' : list Candle.t,
            Forall2 sameFrame A A' →
            calculateIndicators Math_sqrt A = calculateIndicators Math_sqrt A')
    as Hext.
  { intros A A' H. unfold calculateIndicators.
    apply indicatorLoop_ext; [done |].
    intros j _. by apply Forall2_sameFrame_agree. }
  split; [exact Hext |].
  intros A. apply Hext. apply indicatorLoop_sameFrame.
Qed.

Local Open Scope Q_scope.

Lemma gainOf_nonpos chg : chg <= 0 → gainOf chg = 0.
Proof.
  intros H. unfold gainOf. destruct (Num.gt chg 0) eqn:E; [| done].
  apply gt_true in E. lra.
Qed.

Lemma fold_gains_zero (A sl : list Candle.t) : ∀ (g : nat → nat) acc,
  (∀ k x before, sl !! k = Some x → A !! g k = Some before →
                 Candle.close x <= Candle.close before) →
  fold_left
    (λ acc (ic : nat * Candle.t),
       match A !! (ic.1 : nat) with
       | Some before =>
           (acc + gainOf (Candle.close ic.2 - Candle.close before))%Q
       | None => acc
       end)
    (imap (λ i x, (g i, x)) sl) acc == acc.
Proof.
  induction sl as [|x sl IH]; intros g acc H; [reflexivity |].
  rewrite imap_cons. simpl.
  rewrite (IH (g ∘ S)).
  - destruct (A !! g 0%nat) as [before|] eqn:Hb; [| reflexivity].
    rewrite gainOf_nonpos; [lra |].
    specialize (H 0%nat x before eq_refl Hb). lra.
  - intros k y before Hy Hbefore. by apply (H (S k) y before).
Qed.

Lemma initialMoves_zero (A : list Candle.t) :
  neverRises A → initialMoves A (slice A 1 15) gainOf == 0.
Proof.
  intros Hn. unfold initialMoves.
  apply (fold_gains_zero A (slice A 1 15) (λ k, k)).
  intros k x before Hx Hb. apply (Hn k before x Hb).
  unfold slice in Hx. rewrite lookup_take in Hx.
  destruct (decide (k < 15 - 1)%nat); [| done].
  by rewrite lookup_drop in Hx.
Qed.

Lemma rsi_zero_gain g l : g == 0 → 100 - 100 / (1 + g / Num.orNum l 0.0000001) == 0.
Proof.
  intros Hg. rewrite Hg. unfold Qdiv at 2. rewrite Qmult_0_l, Qplus_0_r.
  field.
Qed.

Lemma indicatorStep_zeroGain array i st c :
  neverRises array → array !! i = Some c → zeroGain i st →
  zeroGain (S i) (indicatorStep Math_sqrt array i st c).1
  ∧ (∀ v, Candle.rsi (indicatorStep Math_sqrt array i st c).2 = Some v → v == 0).
Proof.
  intros Hn Hc Hz. unfold indicatorStep.
  destruct (macdAt _ _ _ _) as [sigLine m].
  destruct (decide (i = 0%nat)) as [-> | Hi].
  { simpl. split; [exact Hz | done]. }
  destruct (array !! (i - 1)%nat) as [prev|] eqn:Hprev.
  2: { apply lookup_ge_None in Hprev. apply lookup_lt_Some in Hc. lia. }
  assert (Candle.close c - Candle.close prev <= 0) as Hchg.
  { assert (Candle.close c <= Candle.close prev); [| lra].
    apply (Hn (i - 1)%nat prev c Hprev).
    by replace (S (i - 1)) with i by lia. }
  rewrite (gainOf_nonpos _ Hchg).
  pose proof (initialMoves_zero array Hn) as Hinit.
  unfold zeroGain in *.
  unfold adxPeriod, rsiPeriod in *. change (14 + 1)%nat with 15%nat.
  destruct (decide (14 * 2 < i)%nat) as [Ha | Ha];
    destruct (Ind.avgGain st) as [g|] eqn:Eg;
    destruct (Ind.avgLoss st) as [l|] eqn:El;
    try (destruct (decide (i = 14%nat)) as [Hi14 | Hi14]);
    cbn [fst snd Ind.avgGain Candle.withIndicators Candle.rsi];
    (split; [intros g' [= <-] | intros v [= <-]]).
  all: try (apply rsi_zero_gain).
  all: try (rewrite (Hz g eq_refl)).
  all: try (rewrite Hinit).
  all: try (change (QofNat 14) with 14; field).
  all: try (by apply Hz).
Qed.

Lemma zeroGain_init : zeroGain 0 Ind.init.
Proof. intros g H. done. Qed.

(** X7. On a series of at least 30 bars in which no close is above the one
    before it, the pass gives RSI 0 on the last bar, the readiness guard
    takes that 0 for a missing value, and [analyzeMarket] answers
    CALCULATING with no signal and without reading the sentiment score. *)
Theorem no_gain_series_reports_calculating (env : Env.t) (score : Q)
    (candles : list Candle.t) (tf : string) (ai : option LSTMModelData.t) :
  (30 ≤ length candles)%nat → neverRises candles →
  analyzeMarket env score (calculateIndicators Math_sqrt candles) tf ai
  = (Analysis.mk None "CALCULATING" None, score).
Proof.
  intros Hlen Hn.
  assert (readiness (calculateIndicators Math_sqrt candles) = Calculating)
    as Hr; [| unfold analyzeMarket; by rewrite Hr].
  unfold readiness. rewrite calculateIndicators_length.
  destruct (decide (length candles < 30)%nat); [lia |].
  destruct (calculateIndicators Math_sqrt candles !! (length candles - 1)%nat)
    as [last|] eqn:Hlast; [| done].
  destruct (calculateIndicators Math_sqrt candles !! (length candles - 2)%nat)
    as [prev|]; [| done].
  destruct (Candle.macd last); [| done].
  destruct (Candle.macd prev); [| done].
  destruct (Candle.bollinger last); [| done].
  destruct (Candle.adx last) as [adx|]; [| done].
  destruct (Candle.rsi last) as [rsi|] eqn:Hrsi; [| done].
  destruct (calculateIndicators_invariant Math_sqrt zeroGain candles
              (λ i st c Hc Hst,
                 proj1 (indicatorStep_zeroGain candles i st c Hn Hc Hst))
              zeroGain_init _ _ Hlast) as (c & st' & Hc & Hst' & ->).
  destruct (indicatorStep_zeroGain candles _ st' c Hn Hc Hst') as [_ Hzero].
  specialize (Hzero rsi Hrsi).
  assert (Num.falsy (Some rsi) = true) as ->.
  { simpl. by apply Qeq_bool_iff. }
  by rewrite orb_true_r.
Qed.

End IndicatorStructure.

Lemma flatBars_close n j c :
  Sample.flatBars n !! j = Some c → Candle.close c = 1%Q.
Proof.
  unfold Sample.flatBars. rewrite list_lookup_fmap.
  destruct (seq 0 n !! j); simpl; [| done]. by intros [= <-].
Qed.

Lemma flatBars_neverRises n : neverRises (Sample.flatBars n).
Proof.
  intros j p c Hp Hc.
  rewrite (flatBars_close _ _ _ Hp), (flatBars_close _ _ _ Hc). done.
Qed.

Lemma indicator_warmup_table_witness :
  ∃ c', calculateIndicators (λ x, x) (Sample.flatBars 30) !! 29 = Some c'
        ∧ is_Some (Candle.ema200 c')
        ∧ (is_Some (Candle.atr c') ↔ 1 ≤ 29)
        ∧ (is_Some (Candle.rsi c') ↔ 14 ≤ 29)
        ∧ (is_Some (Candle.macd c') ↔ 26 ≤ 29)
        ∧ (is_Some (Candle.adx c') ↔ 29 ≤ 29).
Proof.
  destruct (calculateIndicators (λ x, x) (Sample.flatBars 30) !! 29)
    as [c'|] eqn:Hc'; [| vm_compute in Hc'; discriminate].
  exists c'. split; [reflexivity |].
  exact (indicator_warmup_table (λ x, x) (Sample.flatBars 30) 29 c' Hc').
Defined.

Lemma indicator_value_ranges_witness :
  ∃ c', calculateIndicators (λ x, x) (Sample.flatBars 30) !! 29 = Some c'
        ∧ (∀ v, Candle.atr c' = Some v → (0 <= v)%Q)
        ∧ (∀ v, Candle.adx c' = Some v → (0 <= v <= 100)%Q)
        ∧ (∀ v, Candle.rsi c' = Some v → (0 <= v < 100)%Q).
Proof.
  destruct (calculateIndicators (λ x, x) (Sample.flatBars 30) !! 29)
    as [c'|] eqn:Hc'; [| vm_compute in Hc'; discriminate].
  exists c'. split; [reflexivity |].
  exact (indicator_value_ranges (λ x, x) (Sample.flatBars 30) 29 c' Hc').
Defined.

Lemma bollinger_bands_ordered_witness :
  ∃ c' b, calculateIndicators Qabs (Sample.flatBars 21) !! 20 = Some c'
          ∧ Candle.bollinger c' = Some b
          ∧ (Bollinger.lower b <= Bollinger.middle b <= Bollinger.upper b)%Q.
Proof.
  destruct (calculateIndicators Qabs (Sample.flatBars 21) !! 20)
    as [c'|] eqn:Hc'; [| vm_compute in Hc'; discriminate].
  destruct (Candle.bollinger c') as [b|] eqn:Hb.
  2: { vm_compute in Hc'. injection Hc' as <-. vm_compute in Hb. discriminate. }
  exists c', b. split; [reflexivity |]. split; [exact Hb |].
  exact (bollinger_bands_ordered Qabs (Sample.flatBars 21) 20 c' b
           Qabs_nonneg Hc' Hb).
Defined.

Lemma macd_histogram_consistent_witness :
  ∃ c' m, calculateIndicators (λ x, x) (Sample.flatBars 27) !! 26 = Some c'
          ∧ Candle.macd c' = Some m
          ∧ Macd.hist m = (Macd.line m - Macd.signal m)%Q.
Proof.
  destruct (calculateIndicators (λ x, x) (Sample.flatBars 27) !! 26)
    as [c'|] eqn:Hc'; [| vm_compute in Hc'; discriminate].
  destruct (Candle.macd c') as [m|] eqn:Hm.
  2: { vm_compute in Hc'. injection Hc' as <-. vm_compute in Hm. discriminate. }
  exists c', m. split; [reflexivity |]. split; [exact Hm |].
  exact (macd_histogram_consistent (λ x, x) (Sample.flatBars 27) 26 c' m Hc' Hm).
Defined.

Lemma no_gain_series_reports_calculating_witness :
  analyzeMarket Sample.env 0
    (calculateIndicators (λ x, x) (Sample.flatBars 30)) "5m" None
  = (Analysis.mk None "CALCULATING" None, 0%Q).
Proof.
  apply (no_gain_series_reports_calculating (λ x, x) Sample.env 0
           (Sample.flatBars 30) "5m" None).
  - vm_compute. lia.
  - apply flatBars_neverRises.
Defined.

(** ** Resampler: what bucketing keeps *)

Section ResamplerStructure.

Lemma elem_of_omap {A B} (f : A → option B) (l : list A) (y : B) :
  y ∈ omap f l ↔ ∃ x, x ∈ l ∧ f x = Some y.
Proof.
  induction l as [|x l IH]; simpl.
  - split; [intros H; by apply elem_of_nil in H | intros (x & H & _); by apply elem_of_nil in H].
  - destruct (f x) as [y'|] eqn:Hfx.
    + rewrite elem_of_cons, IH. split.
      * intros [-> | (x' & Hx' & Hf)]; [exists x; split; [by left | done] |].
        exists x'. split; [by right | done].
      * intros (x' & Hx' & Hf). apply elem_of_cons in Hx' as [-> | Hx'].
        -- left. congruence.
        -- right. eauto.
    + rewrite IH. split.
      * intros (x' & Hx' & Hf). exists x'. split; [by right | done].
      * intros (x' & Hx' & Hf). apply elem_of_cons in Hx' as [-> | Hx'];
          [congruence | eauto].
Qed.

(** Every bar of the result is the summary of one non-empty bucket. *)
Lemma resample_char candles tf :
  tf ≠ 1%Z →
  Forall2 (λ b bar,
             Spec.bucketBars (tf * 60 * 1000) b candles ≠ []
             ∧ aggregate b (Spec.bucketBars (tf * 60 * 1000) b candles)
               = Some bar)
          (sortedBuckets (groupAll (tf * 60 * 1000) candles))
          (resampleCandles candles tf).
Proof.
  intros Htf. unfold resampleCandles.
  destruct (decide (tf = 1%Z)); [done |].
  apply omap_Forall2. intros b Hb.
  apply sortedBuckets_elem in Hb as [g Hg]. rewrite Hg. simpl.
  apply resample_buckets_nonempty in Hg as [-> Hne].
  destruct (aggregate_spec b _ Hne) as (bar & Hbar & _).
  exists bar. done.
Qed.

Lemma bucket_of_bucket iv x :
  iv ≠ 0%Z → ((x / iv * iv) / iv * iv = x / iv * iv)%Z.
Proof. intros H. by rewrite Z.div_mul. Qed.

Lemma sortedBuckets_bucket iv candles b :
  b ∈ sortedBuckets (groupAll iv candles) ↔
  ∃ c, c ∈ candles ∧ bucketOf iv c = b.
Proof.
  rewrite sortedBuckets_elem, groupAll_lookup.
  fold (Spec.bucketBars iv b candles). split.
  - intros [g Hg].
    destruct (Spec.bucketBars iv b candles) as [|c g'] eqn:Hb; [done |].
    exists c.
    assert (c ∈ Spec.bucketBars iv b candles) as Hin by (rewrite Hb; by left).
    apply list_elem_of_filter in Hin as [? ?]. done.
  - intros (c & Hc & Hbc).
    assert (c ∈ Spec.bucketBars iv b candles) as Hin
      by (by apply list_elem_of_filter).
    destruct (Spec.bucketBars iv b candles); [| eauto].
    by apply elem_of_nil in Hin.
Qed.

Lemma aggregate_shape ts g bar :
  aggregate ts g = Some bar →
  Candle.timestamp bar = ts
  ∧ bar = Candle.bare (formatToIST ts) (Candle.open bar) (Candle.high bar)
                      (Candle.low bar) (Candle.close bar) (Candle.volume bar) ts.
Proof.
  unfold aggregate. destruct (head g); [| done]. destruct (last g); [| done].
  intros [= <-]. done.
Qed.

Lemma resample_timestamps candles tf :
  tf ≠ 1%Z →
  Candle.timestamp <$> resampleCandles candles tf
  = sortedBuckets (groupAll (tf * 60 * 1000) candles).
Proof.
  intros Htf. pose proof (resample_char candles tf Htf) as H.
  induction H as [|b bar bs bars [_ Hagg] _ IH]; [done |].
  rewrite fmap_cons, IH. f_equal. by apply aggregate_shape in Hagg as [-> _].
Qed.

Lemma resample_shape candles tf bar :
  (1 < tf)%Z → bar ∈ resampleCandles candles tf →
  resampledShape (tf * 60 * 1000) bar.
Proof.
  intros Htf Hin.
  pose proof (resample_char candles tf ltac:(lia)) as H.
  apply list_elem_of_lookup in Hin as [k Hk].
  destruct (Forall2_lookup_r _ _ _ _ _ H Hk) as (b & Hb & _ & Hagg).
  apply aggregate_shape in Hagg as [Hts Hbare].
  assert (b ∈ sortedBuckets (groupAll (tf * 60 * 1000) candles)) as Hbin
    by (apply list_elem_of_lookup; eauto).
  apply sortedBuckets_bucket in Hbin as (c & _ & Hc).
  split.
  - unfold bucketOf in *. rewrite Hts, <- Hc. apply bucket_of_bucket. lia.
  - rewrite Hts. exact Hbare.
Qed.

Lemma Qplus_0_l_eq (q : Q) : (0 + q)%Q = q.
Proof.
  destruct q as [n d]. unfold Qplus. simpl. by rewrite Z.mul_1_r.
Qed.

Lemma aggregate_single ts bar :
  aggregate ts [bar]
  = Some (Candle.bare (formatToIST ts) (Candle.open bar) (Candle.high bar)
                      (Candle.low bar) (Candle.close bar) (Candle.volume bar) ts).
Proof. unfold aggregate. simpl. by rewrite Qplus_0_l_eq. Qed.

Lemma filter_none {A} (P : A → Prop) `{∀ x, Decision (P x)} (l : list A) :
  (∀ x, x ∈ l → ¬ P x) → filter P l = [].
Proof.
  induction l as [|x l IH]; intros H'; [done |].
  rewrite filter_cons. destruct (decide (P x)) as [HP | _].
  - destruct (H' x); [by left | done].
  - apply IH. intros y Hy. apply H'. by right.
Qed.

(** In a list whose bars sit in pairwise distinct buckets, a bar is alone in
    its bucket. *)
Lemma bucketBars_single iv (L : list Candle.t) bar :
  NoDup (bucketOf iv <$> L) → bar ∈ L →
  Spec.bucketBars iv (bucketOf iv bar) L = [bar].
Proof.
  unfold Spec.bucketBars. induction L as [|x L IH]; intros Hnd Hin.
  - by apply elem_of_nil in Hin.
  - rewrite fmap_cons in Hnd. apply NoDup_cons in Hnd as [Hx Hnd].
    rewrite filter_cons. apply elem_of_cons in Hin as [-> | Hin].
    + destruct (decide (bucketOf iv x = bucketOf iv x)); [| done].
      f_equal. apply filter_none. intros y Hy Heq. apply Hx.
      rewrite <- Heq. apply list_elem_of_fmap. eauto.
    + destruct (decide (bucketOf iv x = bucketOf iv bar)) as [Heq | _].
      * destruct Hx. rewrite Heq. apply list_elem_of_fmap. eauto.
      * by apply IH.
Qed.

Lemma StronglySorted_lt_NoDup (l : list Z) : StronglySorted Z.lt l → NoDup l.
Proof.
  induction 1 as [|x l Hs IH Hall]; constructor; [| done].
  intros Hin. eapply Forall_forall in Hall; [| exact Hin]. lia.
Qed.

Lemma StronglySorted_lt_le (l : list Z) :
  StronglySorted Z.lt l → StronglySorted Z.le l.
Proof.
  induction 1 as [|x l Hs IH Hall]; constructor; [done |].
  eapply Forall_impl; [exact Hall |]. intros y Hy. simpl in Hy. lia.
Qed.

Lemma omap_fmap_id {A B} (f : B → option A) (g : A → B) (l : list A) :
  (∀ x, x ∈ l → f (g x) = Some x) → omap f (g <$> l) = l.
Proof.
  induction l as [|x l IH]; intros H; [done |].
  rewrite fmap_cons. simpl. rewrite (H x) by (by left).
  f_equal. apply IH. intros y Hy. apply H. by right.
Qed.

(** A list of bars already in resampled shape, in strictly ascending bucket
    order, is a fixed point of resampling at that interval. *)
Lemma resample_fixed (L : list Candle.t) tf :
  (1 < tf)%Z →
  StronglySorted Z.lt (Candle.timestamp <$> L) →
  Forall (resampledShape (tf * 60 * 1000)) L →
  resampleCandles L tf = L.
Proof.
  intros Htf Hsorted Hshape.
  set (iv := (tf * 60 * 1000)%Z) in *.
  assert (bucketOf iv <$> L = Candle.timestamp <$> L) as Hbuckets.
  { apply Forall_fmap_ext_1. eapply Forall_impl; [exact Hshape |].
    intros x [Hx _]. exact Hx. }
  assert (NoDup (bucketOf iv <$> L)) as Hnd
    by (rewrite Hbuckets; by apply StronglySorted_lt_NoDup).
  assert (sortedBuckets (groupAll iv L) = Candle.timestamp <$> L) as Hkeys.
  { apply (StronglySorted_unique_strong Z.le).
    - intros; lia.
    - unfold sortedBuckets. apply StronglySorted_merge_sort; [apply _ |].
      intros x y; lia.
    - by apply StronglySorted_lt_le.
    - apply NoDup_Permutation.
      + apply StronglySorted_lt_NoDup, sortedBuckets_ascending.
      + by apply StronglySorted_lt_NoDup.
      + intros b. rewrite sortedBuckets_bucket, <- Hbuckets, list_elem_of_fmap.
        split; intros (c & H1 & H2); exists c; done. }
  unfold resampleCandles. destruct (decide (tf = 1%Z)); [lia |].
  fold iv. rewrite Hkeys. apply omap_fmap_id.
  intros bar Hbar.
  eapply Forall_forall in Hshape; [| exact Hbar].
  destruct Hshape as [Hb Hbare].
  rewrite groupAll_lookup, <- Hb, (bucketBars_single iv L bar Hnd Hbar).
  simpl. rewrite aggregate_single, Hb. by rewrite <- Hbare.
Qed.

(** X9. Resampling an already resampled series at the same interval (of
    more than one minute) returns it unchanged. *)
Theorem resampleCandles_idempotent (candles : list Candle.t)
    (timeframeMinutes : Z) :
  (1 < timeframeMinutes)%Z →
  resampleCandles (resampleCandles candles timeframeMinutes) timeframeMinutes
  = resampleCandles candles timeframeMinutes.
Proof.
  intros Htf. apply resample_fixed; [done | |].
  - rewrite resample_timestamps by lia. apply sortedBuckets_ascending.
  - apply Forall_forall. intros bar Hbar. by apply (resample_shape candles).
Qed.


Lemma head_elem {A} (l : list A) x : head l = Some x → x ∈ l.
Proof. destruct l; [done |]. intros [= ->]. by left. Qed.

Lemma last_elem {A} (l : list A) x : last l = Some x → x ∈ l.
Proof.
  intros H. apply last_Some in H as [l' ->].
  apply elem_of_app. right. by left.
Qed.

Lemma aggregate_wellFormed ts g bar :
  Forall wellFormedBar g → aggregate ts g = Some bar → wellFormedBar bar.
Proof.
  intros Hg. unfold aggregate.
  destruct (head g) as [first|] eqn:Hh; [| done].
  destruct (last g) as [final|] eqn:Hl; [| done].
  intros [= <-]. unfold wellFormedBar. simpl.
  assert (g ≠ []) as Hne by (by destruct g).
  destruct (Math_max_list_isMax (Candle.high <$> g)) as [_ Hmax];
    [by destruct g |].
  destruct (Math_min_list_isMin (Candle.low <$> g)) as [_ Hmin];
    [by destruct g |].
  apply head_elem in Hh. apply last_elem in Hl.
  pose proof (proj1 (Forall_forall _ _) Hg first Hh) as [Hf1 Hf2].
  pose proof (proj1 (Forall_forall _ _) Hg final Hl) as [Hl1 Hl2].
  pose proof (Hmax (Candle.high first)
                ltac:(apply list_elem_of_fmap; eauto)).
  pose proof (Hmax (Candle.high final)
                ltac:(apply list_elem_of_fmap; eauto)).
  pose proof (Hmin (Candle.low first)
                ltac:(apply list_elem_of_fmap; eauto)).
  pose proof (Hmin (Candle.low final)
                ltac:(apply list_elem_of_fmap; eauto)).
  split; lra.
Qed.

(** X8. If every input bar satisfies low <= open, close <= high, so does
    every bar the resampler returns. *)
Theorem resample_keeps_bar_invariant (candles : list Candle.t)
    (timeframeMinutes : Z) :
  (1 ≤ timeframeMinutes)%Z →
  Forall wellFormedBar candles →
  Forall wellFormedBar (resampleCandles candles timeframeMinutes).
Proof.
  intros Htf Hwf.
  destruct (decide (timeframeMinutes = 1%Z)) as [-> | Hne]; [done |].
  pose proof (resample_char candles timeframeMinutes Hne) as H.
  apply Forall_forall. intros bar Hbar.
  apply list_elem_of_lookup in Hbar as [k Hk].
  destruct (Forall2_lookup_r _ _ _ _ _ H Hk) as (b & _ & _ & Hagg).
  eapply aggregate_wellFormed; [| exact Hagg].
  apply Forall_forall. intros c Hc.
  apply list_elem_of_filter in Hc as [_ Hc].
  eapply Forall_forall in Hwf; [exact Hwf | exact Hc].
Qed.

(** X11. Resampling never returns more bars than it was given, and it
    returns no bar exactly when it was given none. *)
Theorem resample_never_longer (candles : list Candle.t)
    (timeframeMinutes : Z) :
  (1 ≤ timeframeMinutes)%Z →
  length (resampleCandles candles timeframeMinutes) ≤ length candles
  ∧ (resampleCandles candles timeframeMinutes = [] ↔ candles = []).
Proof.
  intros _.
  destruct (decide (timeframeMinutes = 1%Z)) as [-> | Hne]; [done |].
  set (iv := (timeframeMinutes * 60 * 1000)%Z).
  assert (length (resampleCandles candles timeframeMinutes)
          = length (sortedBuckets (groupAll iv candles))) as Hlen.
  { unfold iv. rewrite <- (resample_timestamps candles timeframeMinutes Hne).
    by rewrite length_fmap. }
  split.
  - rewrite Hlen, <- (length_fmap (bucketOf iv) candles).
    apply submseteq_length, NoDup_submseteq.
    + apply StronglySorted_lt_NoDup, sortedBuckets_ascending.
    + intros b Hb. apply sortedBuckets_bucket in Hb as (c & Hc & <-).
      apply list_elem_of_fmap. eauto.
  - split.
    + intros Hnil. destruct candles as [|c candles]; [done |].
      assert (bucketOf iv c ∈ sortedBuckets (groupAll iv (c :: candles))) as Hin.
      { apply sortedBuckets_bucket. exists c. split; [by left | done]. }
      rewrite Hnil in Hlen. simpl in Hlen.
      destruct (sortedBuckets (groupAll iv (c :: candles))); [| done].
      by apply elem_of_nil in Hin.
    + intros ->. unfold resampleCandles.
      destruct (decide (timeframeMinutes = 1%Z)); done.
Qed.

Local Open Scope Q_scope.

Lemma fold_plus_shift (xs : list Q) : ∀ a,
  fold_left Qplus xs a == a + fold_left Qplus xs 0.
Proof.
  induction xs as [|x xs IH]; intros a; simpl; [lra |].
  rewrite (IH (a + x)), (IH (0 + x)). lra.
Qed.

Lemma sum_cons x xs : Num.sum (x :: xs) == x + Num.sum xs.
Proof. unfold Num.sum. simpl. rewrite fold_plus_shift. lra. Qed.

Lemma sum_fmap_ext {A} (f g : A → Q) (l : list A) :
  (∀ x, x ∈ l → f x == g x) → Num.sum (f <$> l) == Num.sum (g <$> l).
Proof.
  induction l as [|x l IH]; intros H; [reflexivity |].
  rewrite !fmap_cons, !sum_cons, IH.
  - rewrite (H x); [reflexivity | by left].
  - intros y Hy. apply H. by right.
Qed.

Lemma sum_fmap_plus {A} (f g : A → Q) (l : list A) :
  Num.sum ((λ x, f x + g x) <$> l) == Num.sum (f <$> l) + Num.sum (g <$> l).
Proof.
  induction l as [|x l IH]; [reflexivity |].
  rewrite !fmap_cons, !sum_cons, IH. lra.
Qed.

Lemma sum_fmap_zero {A} (l : list A) : Num.sum ((λ _, 0) <$> l) == 0.
Proof.
  induction l as [|x l IH]; [reflexivity |].
  rewrite fmap_cons, sum_cons, IH. lra.
Qed.

(** Summing an indicator of one key over a duplicate-free list of keys
    picks the value exactly once. *)
Lemma sum_indicator (k : Z) (v : Q) (bs : list Z) :
  NoDup bs → k ∈ bs →
  Num.sum ((λ b, if decide (k = b) then v else 0) <$> bs) == v.
Proof.
  induction bs as [|b bs IH]; intros Hnd Hin; [by apply elem_of_nil in Hin |].
  apply NoDup_cons in Hnd as [Hb Hnd].
  rewrite fmap_cons, sum_cons.
  destruct (decide (k = b)) as [-> | Hne].
  - rewrite (sum_fmap_ext _ (λ _, 0)).
    + rewrite sum_fmap_zero. lra.
    + intros x Hx. destruct (decide (b = x)) as [-> | _]; [done | reflexivity].
  - apply elem_of_cons in Hin as [-> | Hin]; [done |].
    rewrite IH by done. lra.
Qed.

Lemma bucket_volume_cons iv b c l :
  Num.sum (Candle.volume <$> Spec.bucketBars iv b (c :: l))
  == (if decide (bucketOf iv c = b) then Candle.volume c else 0)
     + Num.sum (Candle.volume <$> Spec.bucketBars iv b l).
Proof.
  unfold Spec.bucketBars. rewrite filter_cons.
  destruct (decide (bucketOf iv c = b)).
  - rewrite fmap_cons, sum_cons. reflexivity.
  - lra.
Qed.

(** The per-bucket volumes add up to the total volume. *)
Lemma sum_over_buckets iv (bs : list Z) (l : list Candle.t) :
  NoDup bs → (∀ c, c ∈ l → bucketOf iv c ∈ bs) →
  Num.sum ((λ b, Num.sum (Candle.volume <$> Spec.bucketBars iv b l)) <$> bs)
  == Num.sum (Candle.volume <$> l).
Proof.
  intros Hnd. induction l as [|c l IH]; intros Hcover.
  - rewrite (sum_fmap_ext _ (λ _, 0)); [apply sum_fmap_zero |].
    intros; reflexivity.
  - rewrite (sum_fmap_ext _
               (λ b, (if decide (bucketOf iv c = b) then Candle.volume c else 0)
                     + Num.sum (Candle.volume <$> Spec.bucketBars iv b l))).
    2: { intros b _. apply bucket_volume_cons. }
    rewrite sum_fmap_plus, sum_indicator, IH, fmap_cons, sum_cons.
    + reflexivity.
    + intros c' Hc'. apply Hcover. by right.
    + done.
    + apply Hcover. by left.
Qed.

Lemma aggregate_volume ts g bar :
  aggregate ts g = Some bar →
  Candle.volume bar = Num.sum (Candle.volume <$> g).
Proof.
  unfold aggregate. destruct (head g); [| done]. destruct (last g); [| done].
  intros [= <-]. simpl. apply volume_sum.
Qed.

(** X10. Resampling neither loses nor double-counts volume: the volumes of
    the returned bars add up to the volumes of the input bars. *)
Theorem resample_conserves_volume (candles : list Candle.t)
    (timeframeMinutes : Z) :
  (1 ≤ timeframeMinutes)%Z →
  Num.sum (Candle.volume <$> resampleCandles candles timeframeMinutes)
  == Num.sum (Candle.volume <$> candles).
Proof.
  intros Htf.
  destruct (decide (timeframeMinutes = 1%Z)) as [-> | Hne]; [reflexivity |].
  set (iv := (timeframeMinutes * 60 * 1000)%Z).
  assert (Candle.volume <$> resampleCandles candles timeframeMinutes
          = (λ b, Num.sum (Candle.volume <$> Spec.bucketBars iv b candles))
              <$> sortedBuckets (groupAll iv candles)) as ->.
  { pose proof (resample_char candles timeframeMinutes Hne) as H. fold iv in H.
    induction H as [|b bar bs bars [_ Hagg] _ IH]; [done |].
    rewrite !fmap_cons, IH. f_equal. by apply (aggregate_volume b). }
  apply sum_over_buckets.
  - apply StronglySorted_lt_NoDup, sortedBuckets_ascending.
  - intros c Hc. apply sortedBuckets_bucket. eauto.
Qed.

End ResamplerStructure.

Lemma tickBar_wellFormed k : wellFormedBar (Sample.tickBar k).
Proof. unfold wellFormedBar, Sample.tickBar. simpl. split; split; apply Qle_refl. Qed.

Lemma fiveBars_wellFormed : Forall wellFormedBar Sample.fiveBars.
Proof. apply Forall_fmap, Forall_forall. intros k _. apply tickBar_wellFormed. Qed.

Lemma resample_keeps_bar_invariant_witness :
  Forall wellFormedBar (resampleCandles Sample.fiveBars 5).
Proof.
  apply (resample_keeps_bar_invariant Sample.fiveBars 5);
    [lia | apply fiveBars_wellFormed].
Defined.

Lemma resampleCandles_idempotent_witness :
  resampleCandles (resampleCandles Sample.fiveBars 5) 5
  = resampleCandles Sample.fiveBars 5.
Proof. apply (resampleCandles_idempotent Sample.fiveBars 5). lia. Defined.

Lemma resample_conserves_volume_witness :
  (Num.sum (Candle.volume <$> resampleCandles Sample.fiveBars 5)
   == Num.sum (Candle.volume <$> Sample.fiveBars))%Q.
Proof. apply (resample_conserves_volume Sample.fiveBars 5). lia. Defined.

Lemma resample_never_longer_witness :
  length (resampleCandles Sample.fiveBars 5) ≤ length Sample.fiveBars
  ∧ (resampleCandles Sample.fiveBars 5 = [] ↔ Sample.fiveBars = []).
Proof. apply (resample_never_longer Sample.fiveBars 5). lia. Defined.

(** ** The signal resolver *)

Section ResolverStructure.


Lemma checkSignal_outcome now price s :
  resolverOutcome price s (checkSignal now price s).
Proof.
  unfold resolverOutcome, checkSignal.
  destruct (decide (Signal.status s ≠ PENDING)) as [Hn | Hp]; [by left |].
  destruct (isDue now s); [| by left].
  right. split.
  { destruct (Signal.status s); [done | |]; exfalso; by apply Hp. }
  destruct (bool_decide (Signal.type s = CALL) && Num.gt price (Signal.price s));
    [by left |].
  destruct (bool_decide (Signal.type s = PUT) && Num.lt price (Signal.price s));
    [by left | by right].
Qed.


Lemma checkSignal_settled now price s :
  Signal.status s ≠ PENDING → checkSignal now price s = s.
Proof. intros H. unfold checkSignal. by destruct (decide (Signal.status s ≠ PENDING)). Qed.

Lemma checkSignal_again now price now' price' s :
  checkSignal now price s ≠ s →
  checkSignal now' price' (checkSignal now price s) = checkSignal now price s.
Proof.
  intros Hchanged.
  destruct (checkSignal_outcome now price s) as [Heq | [_ [-> | ->]]];
    [done | |]; by apply checkSignal_settled.
Qed.

Lemma checkSignal_idempotent now price s :
  checkSignal now price (checkSignal now price s) = checkSignal now price s.
Proof.
  destruct (checkSignal_outcome now price s) as [Heq | [_ [Heq | Heq]]].
  - by rewrite !Heq.
  - rewrite Heq. by apply checkSignal_settled.
  - rewrite Heq. by apply checkSignal_settled.
Qed.

(** X13. Resolution is final: a signal that a resolver pass changed is left
    untouched by every later pass, whatever the time and the price, and
    running the pass twice at the same instant and price gives the result
    of running it once. *)
Theorem checkSignals_one_shot (now now' : Z) (price price' : Q)
    (signals : list Signal.t) :
  Forall2 (λ s once,
             once ≠ s → checkSignal now' price' once = once)
          signals (checkSignals now signals price)
  ∧ checkSignals now (checkSignals now signals price) price
    = checkSignals now signals price.
Proof.
  unfold checkSignals. split.
  - induction signals as [|s signals IH]; simpl; constructor; [| exact IH].
    apply checkSignal_again.
  - rewrite <- list_fmap_compose. apply list_fmap_ext.
    intros i s _. apply checkSignal_idempotent.
Qed.






End ResolverStructure.


(** ** The signal scorer *)

Section ScorerStructure.
Local Open Scope Q_scope.

Lemma addIf_range cond pts s : 0 <= pts → s <= addIf cond pts s <= s + pts.
Proof. intros H. unfold addIf. destruct cond; lra. Qed.

Lemma ai_ratio_range (p close : Q) :
  0 < close →
  0 <= Num.Math_min (Num.Math_abs (p - close) / (close * 0.0005)) 2 * 50 <= 100.
Proof.
  intros Hc.
  assert (0 <= Num.Math_abs (p - close) / (close * 0.0005)) as Hdiv.
  { apply Qle_shift_div_l; [lra |]. unfold Num.Math_abs.
    pose proof (Qabs_nonneg (p - close)). lra. }
  set (x := Num.Math_abs (p - close) / (close * 0.0005)) in *. clearbody x.
  destruct (Math_min_spec x 2) as (_ & H2 & [H | H]); rewrite H in *; lra.
Qed.

Ltac bound_addIf :=
  repeat match goal with
    | |- context [addIf ?c ?p ?s] =>
        let H := fresh "H" in
        let x := fresh "x" in
        pose proof (addIf_range c p s ltac:(lra)) as H;
        set (x := addIf c p s) in *; clearbody x; revert H
    end.

Ltac next_stage st :=
  match goal with
  | |- context [let '(_, _) := ?e in _] => set (st := e)
  end.

Lemma tally_scores_bounded score candles last prev lm pm lb adx rsi ai :
  0 < Candle.close last →
  let t := (tally score candles last prev lm pm lb adx rsi ai).1 in
  (0 <= Tally.callScore t <= 250 ∧ 0 <= Tally.putScore t <= 250)
  ∧ 0 <= Tally.aiConfidence t <= 100.
Proof.
  intros Hclose. unfold tally. cbv zeta.
  set (sent := MarketSentiment.getScore score).
  (* sentiment *)
  next_stage st.
  assert ((0 <= st.1.1.1 <= 30) ∧ (0 <= st.1.1.2 <= 30)) as Hst.
  { unfold st.
    destruct (Math_min_spec sent 30) as (_ & Hs30 & Hs).
    destruct (Math_min_spec (Num.Math_abs sent) 30) as (_ & Ha30 & Ha).
    pose proof (Qabs_nonneg sent) as Habs. fold (Num.Math_abs sent) in Habs.
    destruct (Num.gt sent 5) eqn:Hpos; [| destruct (Num.lt sent (-5)) eqn:Hneg];
      cbn [fst snd]; rewrite ?gt_true in *;
      destruct Hs as [Hs | Hs]; rewrite ?Hs in *;
      destruct Ha as [Ha | Ha]; rewrite ?Ha in *; lra. }
  clearbody st. destruct st as [[[c1 p1] ctx] reg]. cbn [fst snd] in Hst.
  (* trend following *)
  next_stage st.
  assert ((c1 <= st.1.1 <= c1 + 60) ∧ (p1 <= st.1.2 <= p1 + 60)) as HstA.
  { unfold st.
    destruct (Num.gt adx 25); [| cbn [fst snd]; lra].
    destruct (Num.gt (Candle.close last) (Num.orElse (Candle.ema200 last) 0));
      cbn [fst snd negb]; bound_addIf; intros; lra. }
  clearbody st. destruct st as [[c2 p2] nameA]. cbn [fst snd] in HstA.
  (* reversion *)
  next_stage st.
  assert ((c2 <= st.1.1 <= c2 + 60) ∧ (p2 <= st.1.2 <= p2 + 60)) as HstB.
  { unfold st.
    destruct (Num.le adx 30); cbn [fst snd]; [bound_addIf; intros |]; lra. }
  clearbody st. destruct st as [[c3 p3] nameB]. cbn [fst snd] in HstB.
  (* prediction *)
  next_stage st.
  assert (((c3 <= st.1.1.1 <= c3 + 100) ∧ (p3 <= st.1.1.2 <= p3 + 100))
          ∧ 0 <= st.2 <= 100) as HstC.
  { unfold st.
    destruct (aiPrediction candles ai) as [p|]; [| cbn [fst snd]; lra].
    pose proof (ai_ratio_range p _ Hclose) as Hr.
    destruct (Num.truthy (Some p)); [| cbn [fst snd]; lra].
    destruct (Num.gt p (Candle.close last)); cbn [fst snd]; lra. }
  clearbody st. destruct st as [[[c4 p4] nameC] conf]. cbn [fst snd] in HstC.
  next_stage st. destruct st as [name debug].
  cbn [fst Tally.callScore Tally.putScore Tally.aiConfidence]. lra.
Qed.

Lemma aiPrediction_unavailable candles md :
  (length candles < LSTMModelData.windowSize md)%nat
  ∨ (∀ w, LSTMModelData.model md w = None) →
  aiPrediction candles (Some md) = None.
Proof.
  intros H. unfold aiPrediction, predictLSTM.
  destruct (decide (length candles < LSTMModelData.windowSize md)%nat);
    [done |].
  destruct H as [H | H]; [lia |]. by rewrite H.
Qed.

Lemma tally_without_prediction score candles last prev lm pm lb adx rsi ai :
  aiPrediction candles ai = None →
  tally score candles last prev lm pm lb adx rsi ai
  = tally score candles last prev lm pm lb adx rsi None.
Proof.
  intros H. unfold tally. rewrite H.
  change (aiPrediction candles None) with (@None Q). reflexivity.
Qed.

(** X15. A model that cannot predict does no harm: when the bar sequence is
    shorter than the model's window (the predictor returns null) or the
    model throws, [analyzeMarket] returns exactly what it returns with no
    model at all. *)
Theorem prediction_failure_degrades (env : Env.t) (score : Q)
    (candles : list Candle.t) (tf : string) (md : LSTMModelData.t) :
  (length candles < LSTMModelData.windowSize md)%nat
  ∨ (∀ w, LSTMModelData.model md w = None) →
  analyzeMarket env score candles tf (Some md)
  = analyzeMarket env score candles tf None.
Proof.
  intros H. apply aiPrediction_unavailable in H.
  unfold analyzeMarket. destruct (readiness candles) as [| |r]; [done | done |].
  unfold tallyOf. by rewrite (tally_without_prediction _ _ _ _ _ _ _ _ _ _ H).
Qed.

Lemma mkSignal_confidence env ty w last tf t :
  THRESHOLD <= w →
  7 # 15 <= Signal.confidence (mkSignal env ty w last tf t) <= 0.99.
Proof.
  unfold THRESHOLD. intros Hw. cbn [mkSignal Signal.confidence].
  assert (7 # 15 <= w / 150) as Hdiv by (apply Qle_shift_div_l; lra).
  set (x := w / 150) in *. clearbody x.
  destruct (Math_min_spec x 0.99) as (_ & H2 & [H | H]); rewrite H in *; lra.
Qed.

Lemma mkSignal_strategy env ty w last tf t :
  ∃ name, Signal.strategy (mkSignal env ty w last tf t) = Some name
          ∧ nonEmpty name = true.
Proof.
  cbn [mkSignal Signal.strategy].
  destruct (nonEmpty (Tally.strategyName t)) eqn:E; eauto.
Qed.

(** X16. Every signal [analyzeMarket] emits is entered at the close of the
    last bar, stamped with the current time and the requested timeframe,
    PENDING with no exit price and no pnl, has a confidence between 7/15
    and 0.99, and carries a non-empty strategy name. *)
Theorem emitted_signal_record (env : Env.t) (score : Q)
    (candles : list Candle.t) (tf : string) (ai : option LSTMModelData.t)
    (s : Signal.t) :
  Analysis.signal (analyzeMarket env score candles tf ai).1 = Some s →
  (∃ last, Spec.lastBar candles = Some last
           ∧ Signal.price s = Candle.close last)
  ∧ Signal.timestamp s = Env.now env
  ∧ Signal.timeframe s = tf
  ∧ Signal.status s = PENDING
  ∧ Signal.exitPrice s = None
  ∧ Signal.pnl s = None
  ∧ 7 # 15 <= Signal.confidence s <= 0.99
  ∧ ∃ name, Signal.strategy s = Some name ∧ nonEmpty name = true.
Proof.
  unfold analyzeMarket.
  destruct (readiness candles) as [| |r] eqn:Hr; [done | done |].
  destruct (readiness_ready _ _ Hr) as (_ & Hlast & _).
  destruct (tallyOf score candles r ai) as [t score']. cbn [fst].
  destruct (emit_cases env (Ready.last r) tf t)
    as [(Hw & _ & ->) | [(_ & Hw & _ & ->) | (_ & ->)]];
    cbn [Analysis.signal]; [| | done]; intros [= <-].
  all: split_and!; try reflexivity;
    [by exists (Ready.last r) | by apply mkSignal_confidence
    | by apply mkSignal_confidence | apply mkSignal_strategy].
Qed.

(** X17. When the last close is positive, both accumulated scores lie
    between 0 and 250 and the AI confidence between 0 and 100; so does the
    [aiConfidenceScore] of an emitted signal. *)
Theorem scores_within_bounds (env : Env.t) (score : Q)
    (candles : list Candle.t) (tf : string) (ai : option LSTMModelData.t)
    (r : Ready.t) :
  readiness candles = IsReady r →
  0 < Candle.close (Ready.last r) →
  let t := (tallyOf score candles r ai).1 in
  (0 <= Tally.callScore t <= 250 ∧ 0 <= Tally.putScore t <= 250)
  ∧ 0 <= Tally.aiConfidence t <= 100
  ∧ ∀ s, Analysis.signal (analyzeMarket env score candles tf ai).1 = Some s →
         ∃ c, Signal.aiConfidenceScore s = Some c ∧ 0 <= c <= 100.
Proof.
  intros Hr Hclose t.
  destruct (tally_scores_bounded score candles (Ready.last r) (Ready.prev r)
              (Ready.lastMacd r) (Ready.prevMacd r) (Ready.lastBB r)
              (Ready.adx r) (Ready.rsi r) ai Hclose) as (Hscores & Hconf).
  fold (tallyOf score candles r ai) in Hscores, Hconf. fold t in Hscores, Hconf.
  split; [exact Hscores |]. split; [exact Hconf |].
  intros s. rewrite (analyzeMarket_ready _ _ _ _ _ _ Hr). cbn [fst]. fold t.
  destruct (emit_cases env (Ready.last r) tf t)
    as [(_ & _ & ->) | [(_ & _ & _ & ->) | (_ & ->)]];
    cbn [Analysis.signal]; [| | done]; intros [= <-];
    exists (Tally.aiConfidence t); by split.
Qed.
End ScorerStructure.

Lemma prediction_failure_degrades_witness :
  analyzeMarket Sample.env 0 Sample.thirtyBars "5m" (Some silentModel)
  = analyzeMarket Sample.env 0 Sample.thirtyBars "5m" None.
Proof.
  apply (prediction_failure_degrades Sample.env 0 Sample.thirtyBars "5m"
           silentModel).
  right. reflexivity.
Defined.

Lemma emitted_signal_record_witness :
  ∃ s, Analysis.signal
         (analyzeMarket Sample.env 0 Sample.thirtyBars "5m" None).1 = Some s
       ∧ Signal.price s = 1.2%Q
       ∧ (7 # 15 <= Signal.confidence s <= 0.99)%Q.
Proof.
  destruct (analyzeMarket Sample.env 0 Sample.thirtyBars "5m" None).1
    as [res sg dbg] eqn:Hres.
  destruct res as [s|]; [| vm_compute in Hres; discriminate].
  destruct (emitted_signal_record Sample.env 0 Sample.thirtyBars "5m" None s)
    as (_ & _ & _ & _ & _ & _ & Hconf & _).
  { rewrite Hres. reflexivity. }
  exists s. split; [reflexivity |]. split; [| exact Hconf].
  vm_compute in Hres. injection Hres as <- _ _. reflexivity.
Defined.

Lemma scores_within_bounds_witness :
  ∃ r, readiness Sample.thirtyBars = IsReady r
       ∧ (0 <= Tally.callScore (tallyOf 0 Sample.thirtyBars r None).1 <= 250)%Q.
Proof.
  exists_ready Sample.thirtyBars. split; [vm_compute; reflexivity |].
  match goal with
  | |- context [tallyOf _ _ ?r _] =>
      apply (scores_within_bounds Sample.env 0 Sample.thirtyBars "5m" None r)
  end; vm_compute; reflexivity.
Defined.

(** ** The application *)

Section LifecycleStructure.
Variable Math_sqrt : Q → Q.
Local Open Scope Q_scope.

Lemma analyzeMarket_emits env score candles tf ai s :
  Analysis.signal (analyzeMarket env score candles tf ai).1 = Some s →
  ∃ ty w last t, THRESHOLD <= w ∧ s = mkSignal env ty w last tf t.
Proof.
  unfold analyzeMarket.
  destruct (readiness candles) as [| |r]; [done | done |].
  destruct (tallyOf score candles r ai) as [t score']. cbn [fst].
  destruct (emit_cases env (Ready.last r) tf t)
    as [(Hw & _ & ->) | [(_ & Hw & _ & ->) | (_ & ->)]];
    cbn [Analysis.signal]; [| | done]; intros [= <-]; eauto 10.
Qed.

(** What the bar-close handler may append for one timeframe. *)
Lemma analyzeTimeframe_emits envOf ref wi ai acc tf :
  (analyzeTimeframe Math_sqrt envOf ref wi ai acc tf).1 = acc.1
  ∨ ∃ env ty w last t,
      THRESHOLD <= w
      ∧ Signal.signalStrength (mkSignal env ty w last (Timeframe.id tf) t)
        ≠ Some WEAK
      ∧ (analyzeTimeframe Math_sqrt envOf ref wi ai acc tf).1
        = mkSignal env ty w last (Timeframe.id tf) t :: acc.1.
Proof.
  unfold analyzeTimeframe.
  destruct (hasActiveSignal ref (Timeframe.id tf)); [by left |].
  set (r := analyzeMarket _ _ _ _ _).
  destruct (Analysis.signal r.1) as [s|] eqn:Hs; [| by left].
  destruct (decide (Signal.signalStrength s = Some WEAK)) as [|Hweak];
    [by left |].
  right. destruct (analyzeMarket_emits _ _ _ _ _ _ Hs)
    as (ty & w & last & t & Hw & ->).
  exists (envOf (Timeframe.id tf)), ty, w, last, t. done.
Qed.

Lemma scoring_pass_Forall (P : Signal.t → Prop) envOf ref wi ai tfs :
  (∀ env ty w last t tf,
     tf ∈ tfs → THRESHOLD <= w →
     Signal.signalStrength (mkSignal env ty w last (Timeframe.id tf) t)
     ≠ Some WEAK →
     P (mkSignal env ty w last (Timeframe.id tf) t)) →
  ∀ acc, Forall P acc.1 →
         Forall P (fold_left (analyzeTimeframe Math_sqrt envOf ref wi ai)
                             tfs acc).1.
Proof.
  induction tfs as [|tf tfs IH]; intros Hnew acc Hacc; [done |].
  simpl. apply IH.
  - intros env ty w last t tf' Hin. apply Hnew. by right.
  - destruct (analyzeTimeframe_emits envOf ref wi ai acc tf)
      as [-> | (env & ty & w & last & t & Hw & Hweak & ->)]; [done |].
    constructor; [| done]. apply Hnew; [by left | done | done].
Qed.

(** A property of signals that holds of everything the scorer may hand to
    the application and that the resolver keeps holds in every state. *)
Lemma run_signals_Forall (P : Signal.t → Prop) :
  (∀ env ty w last t tf,
     tf ∈ TIMEFRAMES → THRESHOLD <= w →
     Signal.signalStrength (mkSignal env ty w last (Timeframe.id tf) t)
     ≠ Some WEAK →
     P (mkSignal env ty w last (Timeframe.id tf) t)) →
  (∀ now price s, P s → P (checkSignal now price s)) →
  ∀ events, Forall P (App.signals (App.run Math_sqrt events)).
Proof.
  intros Hnew Hkeep events.
  unfold App.run. induction events as [|e events IH] using rev_ind.
  - constructor.
  - rewrite fold_left_app. simpl.
    destruct e as [hist | md | item | completed envOf | now price];
      unfold App.step; [exact IH | exact IH | exact IH | |].
    + unfold App.onBarClose. cbn [App.signals].
      by apply scoring_pass_Forall.
    + unfold App.onResolutionTick.
      destruct (decide (0 < length (App.candlesRef _)))%nat; [| exact IH].
      cbn [App.signals]. unfold checkSignals.
      apply Forall_fmap. eapply Forall_impl; [exact IH |].
      intros s Hs. by apply Hkeep.
Qed.

Lemma mkSignal_wellFormed env ty w last t tf :
  tf ∈ TIMEFRAMES → THRESHOLD <= w →
  Signal.signalStrength (mkSignal env ty w last (Timeframe.id tf) t)
  ≠ Some WEAK →
  signalWellFormed (mkSignal env ty w last (Timeframe.id tf) t).
Proof.
  intros Hin Hw Hweak. split_and!.
  - by exists tf.
  - cbn [mkSignal Signal.signalStrength] in *.
    exists (getStrength w). split; [done | congruence].
  - by apply mkSignal_confidence.
  - by apply mkSignal_confidence.
  - done.
Qed.

Lemma resolved_wellFormed s price :
  signalWellFormed s →
  signalWellFormed (Signal.resolved s WIN 0.85 price)
  ∧ signalWellFormed (Signal.resolved s LOSS (-1) price).
Proof.
  intros (Htf & Hst & [Hlo Hhi] & _).
  split; split_and!; cbn [Signal.resolved Signal.timeframe
    Signal.signalStrength Signal.confidence Signal.status Signal.exitPrice
    Signal.pnl]; eauto.
Qed.

Lemma checkSignal_wellFormed now price s :
  signalWellFormed s → signalWellFormed (checkSignal now price s).
Proof.
  intros Hwf.
  destruct (checkSignal_outcome now price s) as [-> | [_ [-> | ->]]];
    [done | |]; by apply resolved_wellFormed.
Qed.

(** X18. In every state the application reaches, every signal it holds has
    the label of one of the analysed timeframes, a strength other than
    WEAK, a confidence between 7/15 and 0.99, and result fields that match
    its status: none while PENDING, an exit price with pnl 0.85 on a WIN
    and with pnl -1 on a LOSS. *)
Theorem signals_well_formed_always (events : list App.event) :
  Forall signalWellFormed (App.signals (App.run Math_sqrt events)).
Proof.
  apply run_signals_Forall.
  - intros. by apply mkSignal_wellFormed.
  - intros. by apply checkSignal_wellFormed.
Qed.

Lemma TIMEFRAMES_expiry tf :
  tf ∈ TIMEFRAMES → expiryMinutes (Timeframe.id tf) = Some (Timeframe.value tf).
Proof.
  unfold TIMEFRAMES. rewrite !elem_of_cons, elem_of_nil.
  intros [-> | [-> | [-> | [-> | [-> | []]]]]]; vm_compute; reflexivity.
Qed.

Lemma checkSignal_status_due now price s :
  Signal.status s = PENDING →
  (Signal.status (checkSignal now price s) ≠ PENDING ↔ isDue now s = true).
Proof.
  intros Hs. unfold checkSignal.
  destruct (decide (Signal.status s ≠ PENDING)); [done |].
  destruct (isDue now s); [| split; done].
  split; [done | intros _].
  destruct (bool_decide (Signal.type s = CALL) && Num.gt price (Signal.price s));
    [done |].
  by destruct (bool_decide (Signal.type s = PUT)
               && Num.lt price (Signal.price s)).
Qed.

Lemma checkSignal_timeframe now price s :
  Signal.timeframe (checkSignal now price s) = Signal.timeframe s.
Proof.
  by destruct (checkSignal_outcome now price s) as [-> | [_ [-> | ->]]].
Qed.

(** X19. The labels the application gives its signals are read back by the
    resolver as the timeframe's own duration: in every reachable state a
    PENDING signal of timeframe [tf] is resolved by a resolver call exactly
    when [tf]'s minutes have elapsed since the signal's timestamp. *)
Theorem pending_signals_resolve_on_time (events : list App.event) :
  Forall (λ s,
            ∃ tf, tf ∈ TIMEFRAMES
                  ∧ Signal.timeframe s = Timeframe.id tf
                  ∧ (Signal.status s = PENDING →
                     ∀ now price,
                       Signal.status (checkSignal now price s) ≠ PENDING
                       ↔ (Timeframe.value tf * 60 * 1000
                          ≤ now - Signal.timestamp s)%Z))
         (App.signals (App.run Math_sqrt events)).
Proof.
  eapply Forall_impl.
  - apply (run_signals_Forall knownTimeframe).
    + intros env ty w last t tf Hin _ _. by exists tf.
    + intros now price s (tf & Hin & Htf). exists tf.
      by rewrite checkSignal_timeframe.
  - intros s (tf & Hin & Htf). exists tf. split_and!; [done | done |].
    intros Hs now price. rewrite (checkSignal_status_due _ _ _ Hs).
    unfold isDue. rewrite Htf, (TIMEFRAMES_expiry _ Hin). apply Z.leb_le.
Qed.

Lemma sliceLast_length {A} (l : list A) (n : nat) :
  (0 < n)%nat → length (sliceLast l n) = Nat.min (length l) n.
Proof.
  intros Hn. unfold sliceLast. destruct (decide (n = 0)%nat); [lia |].
  rewrite length_drop. lia.
Qed.

(** X20. In every reachable state each bar of the stored history carries
    the indicator fields that its position calls for, with ATR, ADX and
    RSI in range; and if no loaded history is longer than 3500 bars the
    stored history never is. *)
Theorem history_is_annotated_and_capped (events : list App.event) :
  (∀ i c, App.candlesRef (App.run Math_sqrt events) !! i = Some c →
          indicatorOutputOk i c)
  ∧ ((∀ hist, App.HistoryLoaded hist ∈ events → (length hist ≤ 3500)%nat) →
     (length (App.candlesRef (App.run Math_sqrt events)) ≤ 3500)%nat).
Proof.
  unfold App.run. induction events as [|e events [IHa IHc]] using rev_ind.
  - split; [| simpl; lia]. intros i c H. simpl in H. by rewrite lookup_nil in H.
  - rewrite fold_left_app. simpl.
    set (st := fold_left (App.step Math_sqrt) events App.init) in *.
    assert ((∀ hist, App.HistoryLoaded hist ∈ events ++ [e] →
                      (length hist ≤ 3500)%nat) →
            (length (App.candlesRef st) ≤ 3500)%nat) as IHc'.
    { intros H. apply IHc. intros hist Hin. apply H.
      apply elem_of_app. by left. }
    destruct e as [hist | md | item | completed envOf | now price];
      unfold App.step; try (split; [exact IHa | exact IHc']).
    + cbn [App.candlesRef]. split.
      * intros i c. apply calculateIndicators_outputOk.
      * intros H. rewrite calculateIndicators_length. apply H.
        apply elem_of_app. right. by left.
    + unfold App.onBarClose. cbn [App.candlesRef]. split.
      * intros i c. apply calculateIndicators_outputOk.
      * intros _. rewrite calculateIndicators_length, sliceLast_length; lia.
    + unfold App.onResolutionTick.
      destruct (decide (0 < length (App.candlesRef st)))%nat;
        (split; [exact IHa | exact IHc']).
Qed.

End LifecycleStructure.

(** ** Training and news *)

Section TrainingStructure.
Local Open Scope Q_scope.

Lemma windowing_length normalized ws :
  length (windowing normalized ws).1 = (length normalized - ws)%nat
  ∧ length (windowing normalized ws).2 = (length normalized - ws)%nat.
Proof. unfold windowing. simpl. by rewrite !length_fmap, !length_seq. Qed.

Lemma windowing_lookup normalized ws i w :
  (windowing normalized ws).1 !! i = Some w →
  (i + ws < length normalized)%nat
  ∧ w = slice normalized i (i + ws)
  ∧ length w = ws
  ∧ (windowing normalized ws).2 !! i = Some (normalized !! (i + ws)%nat)
  ∧ is_Some (normalized !! (i + ws)%nat).
Proof.
  unfold windowing. simpl. rewrite !list_lookup_fmap.
  destruct (seq 0 (length normalized - ws) !! i) as [k|] eqn:Hk; [| done].
  apply lookup_seq in Hk as [-> Hlt]. simpl. intros [= <-].
  split_and!; try done; try lia.
  - unfold slice. rewrite length_take, length_drop. lia.
  - apply lookup_lt_is_Some. lia.
Qed.

Lemma normalized_range (min max p : Q) :
  min < max → min <= p <= max → 0 <= (p - min) / (max - min) <= 1.
Proof.
  intros Hlt [Hlo Hhi]. split.
  - apply Qle_shift_div_l; lra.
  - apply Qle_shift_div_r; lra.
Qed.

Lemma Qeq_bool_false_neq (a b : Q) : Qeq_bool a b = false → ¬ a == b.
Proof. intros H Heq. apply Qeq_bool_iff in Heq. congruence. Qed.

(** The bounds the normalisation uses are attained and enclose every close. *)
Lemma closes_min_max (closes : list Q) :
  closes ≠ [] →
  Spec.isMin (Num.Math_min_list closes) closes
  ∧ Spec.isMax (Num.Math_max_list closes) closes
  ∧ Num.Math_min_list closes <= Num.Math_max_list closes.
Proof.
  intros Hne.
  pose proof (Math_min_list_isMin closes Hne) as Hmin.
  pose proof (Math_max_list_isMax closes Hne) as Hmax.
  split_and!; [done | done |].
  destruct Hmin as [Hin Hle]. destruct Hmax as [_ Hge]. by apply Hge.
Qed.


Lemma recent_closes candles :
  (100 ≤ length candles)%nat →
  length (Candle.close <$> sliceLast candles 500)
  = Nat.min (length candles) 500
  ∧ Candle.close <$> sliceLast candles 500 ≠ [].
Proof.
  intros Hlen.
  assert (length (Candle.close <$> sliceLast candles 500)
          = Nat.min (length candles) 500) as Hl.
  { rewrite length_fmap, sliceLast_length; lia. }
  split; [done |]. intros Hnil. rewrite Hnil in Hl. simpl in Hl. lia.
Qed.

Lemma zero_variance_iff (closes : list Q) :
  closes ≠ [] →
  Qeq_bool (Num.Math_max_list closes) (Num.Math_min_list closes) = true
  ↔ ∀ p q, p ∈ closes → q ∈ closes → p == q.
Proof.
  intros Hne. destruct (closes_min_max closes Hne)
    as ([Hmin_in Hmin] & [Hmax_in Hmax] & Hle).
  rewrite Qeq_bool_iff. split.
  - intros Heq p q Hp Hq.
    pose proof (Hmin p Hp). pose proof (Hmax p Hp).
    pose proof (Hmin q Hq). pose proof (Hmax q Hq). lra.
  - intros Hall. by apply Hall.
Qed.

Lemma training_set_facts candles ts :
  prepareTraining candles = inr ts →
  Training.windowSize ts = 30%nat ∧ Training.min ts < Training.max ts.
Proof.
  unfold prepareTraining.
  destruct (decide (length candles < 100)%nat) as [Hshort | Hlong]; [done |].
  destruct (recent_closes candles ltac:(lia)) as [Hlen Hne].
  destruct (closes_min_max _ Hne) as (_ & _ & Hle).
  destruct (Qeq_bool _ _) eqn:Hvar; [done |].
  apply Qeq_bool_false_neq in Hvar.
  destruct (windowing _ 30) as [X y].
  destruct (decide (length X = 0)%nat); [done |].
  intros [= <-]. cbn [Training.windowSize Training.min Training.max].
  split; [done | lra].
Qed.

(** X21. What [trainLSTMModel] throws before it reaches tfjs: "Not enough
    data to train LSTM" exactly on fewer than 100 bars; the zero-variance
    message exactly when there are at least 100 bars and the last 500 all
    close at the same price; the windowing message never. *)
Theorem prepareTraining_errors (candles : list Candle.t) :
  (prepareTraining candles = inl "Not enough data to train LSTM"%string
   ↔ (length candles < 100)%nat)
  ∧ (prepareTraining candles
     = inl "Price data has zero variance, cannot train."%string
     ↔ (100 ≤ length candles)%nat
       ∧ ∀ c c', c ∈ sliceLast candles 500 → c' ∈ sliceLast candles 500 →
                 Candle.close c == Candle.close c')
  ∧ prepareTraining candles ≠ inl "Not enough data for windowing"%string.
Proof.
  unfold prepareTraining.
  destruct (decide (length candles < 100)%nat) as [Hshort | Hlong].
  { split_and!; [done | | done]. split; [done | lia]. }
  destruct (recent_closes candles ltac:(lia)) as [Hlen Hne].
  pose proof (zero_variance_iff _ Hne) as Hzero.
  set (closes := Candle.close <$> sliceLast candles 500) in *.
  assert ((∀ p q, p ∈ closes → q ∈ closes → p == q)
          ↔ ∀ c c', c ∈ sliceLast candles 500 → c' ∈ sliceLast candles 500 →
                    Candle.close c == Candle.close c') as Hall.
  { unfold closes. split.
    - intros H c c' Hc Hc'. apply H; apply list_elem_of_fmap; eauto.
    - intros H p q Hp Hq.
      apply list_elem_of_fmap in Hp as (c & -> & Hc).
      apply list_elem_of_fmap in Hq as (c' & -> & Hc'). by apply H. }
  destruct (Qeq_bool (Num.Math_max_list closes) (Num.Math_min_list closes))
    eqn:Hvar.
  { split_and!; [split; [done | lia] | | done].
    split; [intros _ | done]. split; [lia |]. apply Hall. by apply Hzero. }
  set (normalized := (λ p, (p - Num.Math_min_list closes)
                           / (Num.Math_max_list closes
                              - Num.Math_min_list closes)) <$> closes).
  destruct (windowing_length normalized 30) as [HX _].
  destruct (windowing normalized 30) as [X y]. cbn [fst] in HX.
  assert (length normalized = Nat.min (length candles) 500) as Hn.
  { unfold normalized. by rewrite length_fmap. }
  destruct (decide (length X = 0)%nat) as [Hempty | _]; [lia |].
  split_and!; [split; [done | lia] | | done].
  split; [done |]. intros [_ H].
  pose proof (proj2 Hzero (proj2 Hall H)). congruence.
Qed.

(** X22. The training set handed to tfjs: the bounds satisfy min < max and
    every normalised close of the last 500 bars lies in [0, 1]; there are
    min(length, 500) - 30 windows, at least 70, and as many targets; window
    [i] is the 30 normalised closes of bars [i .. i+29] and its target is
    the normalised close of bar [i+30]. *)
Theorem training_set_shape (candles : list Candle.t) (ts : Training.t) :
  prepareTraining candles = inr ts →
  let recent := sliceLast candles 500 in
  let normalise (c : Candle.t) :=
    (Candle.close c - Training.min ts) / (Training.max ts - Training.min ts) in
  Training.windowSize ts = 30%nat
  ∧ Training.min ts < Training.max ts
  ∧ (∀ c, c ∈ recent → 0 <= normalise c <= 1)
  ∧ length (Training.X_data ts) = (Nat.min (length candles) 500 - 30)%nat
  ∧ length (Training.y_data ts) = length (Training.X_data ts)
  ∧ (70 ≤ length (Training.X_data ts))%nat
  ∧ ∀ i w, Training.X_data ts !! i = Some w →
           w = normalise <$> slice recent i (i + 30)
           ∧ length w = 30%nat
           ∧ ∃ target, recent !! (i + 30)%nat = Some target
                       ∧ Training.y_data ts !! i = Some (Some (normalise target)).
Proof.
  unfold prepareTraining.
  destruct (decide (length candles < 100)%nat) as [Hshort | Hlong]; [done |].
  destruct (recent_closes candles ltac:(lia)) as [Hlen Hne].
  destruct (closes_min_max _ Hne) as ([_ Hmin] & [_ Hmax] & Hle).
  set (closes := Candle.close <$> sliceLast candles 500) in *.
  destruct (Qeq_bool (Num.Math_max_list closes) (Num.Math_min_list closes))
    eqn:Hvar; [done |].
  apply Qeq_bool_false_neq in Hvar.
  set (lo := Num.Math_min_list closes) in *.
  set (hi := Num.Math_max_list closes) in *.
  set (normalized := (λ p, (p - lo) / (hi - lo)) <$> closes).
  assert (length normalized = Nat.min (length candles) 500) as Hn.
  { unfold normalized. by rewrite length_fmap. }
  destruct (windowing_length normalized 30) as [HX Hy].
  pose proof (windowing_lookup normalized 30) as Hlookup.
  destruct (windowing normalized 30) as [X y]. cbn [fst snd] in HX, Hy, Hlookup.
  destruct (decide (length X = 0)%nat) as [Hempty | _]; [done |].
  intros [= <-]. cbn [Training.windowSize Training.min Training.max
                      Training.X_data Training.y_data].
  assert (lo < hi) as Hlt by lra.
  split_and!; try lia; [done | | ].
  - intros c Hc. apply normalized_range; [done |].
    split; [apply Hmin | apply Hmax]; apply list_elem_of_fmap; eauto.
  - intros i w Hw.
    destruct (Hlookup i w Hw) as (Hi & -> & Hlw & Hyi & Hsome).
    split_and!; [| done |].
    + unfold normalized, closes, slice.
      by rewrite !fmap_take, !fmap_drop, <- list_fmap_compose.
    + destruct (lookup_lt_is_Some_2 (sliceLast candles 500) (i + 30))
        as [target Htarget].
      { rewrite sliceLast_length; lia. }
      exists target. split; [done |]. rewrite Hyi. f_equal.
      unfold normalized, closes.
      by rewrite !list_lookup_fmap, Htarget.
Qed.

(** X23. A model that [trainLSTMModel] returned is always consulted when
    the readiness guard passes: the window is full (30 inputs), the
    predictor never answers null, and its answer is the network's output
    mapped back to a price, which lies between the training bounds exactly
    when the output lies in [0, 1]. *)
Theorem trained_model_is_consulted
    (fit : Training.t → option (list Q → option Q))
    (history candles : list Candle.t) (md : LSTMModelData.t) (r : Ready.t) :
  trainLSTMModel fit history = Trained md →
  readiness candles = IsReady r →
  let lo := LSTMModelData.min md in
  let hi := LSTMModelData.max md in
  let input := (λ c, (Candle.close c - lo) / (hi - lo)) <$> sliceLast candles 30 in
  lo < hi
  ∧ length input = 30%nat
  ∧ predictLSTM md candles ≠ Some None
  ∧ (LSTMModelData.model md input = None → predictLSTM md candles = None)
  ∧ ∀ out, LSTMModelData.model md input = Some out →
           ∃ v, predictLSTM md candles = Some (Some v)
                ∧ (v - lo) / (hi - lo) == out
                ∧ (0 <= out <= 1 ↔ lo <= v <= hi).
Proof.
  unfold trainLSTMModel. intros Htrain Hready.
  destruct (prepareTraining history) as [msg | ts] eqn:Hprep; [done |].
  destruct (training_set_facts history ts Hprep) as (Hws & Hlt).
  destruct (fit ts) as [model|]; [| done]. injection Htrain as <-.
  cbn [LSTMModelData.min LSTMModelData.max LSTMModelData.model].
  destruct (readiness_ready _ _ Hready) as (Hlen & _).
  split; [done |]. split; [rewrite length_fmap, sliceLast_length; lia |].
  unfold predictLSTM.
  cbn [LSTMModelData.min LSTMModelData.max LSTMModelData.model
       LSTMModelData.windowSize]. rewrite Hws.
  destruct (decide (length candles < 30)%nat); [lia |].
  rewrite <- list_fmap_compose.
  set (input := _ <$> sliceLast candles 30).
  destruct (model input) as [out|]; split_and!; try done.
  intros out' [= <-]. eexists. split; [reflexivity |].
  set (lo := Training.min ts) in *. set (hi := Training.max ts) in *.
  assert ((out * (hi - lo) + lo - lo) / (hi - lo) == out) as Hinv.
  { field. lra. }
  split; [exact Hinv |].
  split; intros [H1 H2].
  - split; nra.
  - rewrite <- Hinv. apply normalized_range; [done | lra].
Qed.

End TrainingStructure.

Lemma training_set_shape_witness :
  ∃ ts, prepareTraining rampBars = inr ts
        ∧ length (Training.X_data ts) = 70.
Proof.
  destruct (prepareTraining rampBars) as [msg | ts] eqn:H;
    [vm_compute in H; discriminate |].
  exists ts. split; [reflexivity |].
  destruct (training_set_shape rampBars ts H) as (_ & _ & _ & HX & _).
  exact HX.
Defined.

Lemma trained_model_is_consulted_witness :
  ∃ md, trainLSTMModel constFit rampBars = Trained md
        ∧ predictLSTM md Sample.thirtyBars ≠ Some None.
Proof.
  destruct (trainLSTMModel constFit rampBars) as [msg | | md] eqn:H;
    [vm_compute in H; discriminate | vm_compute in H; discriminate |].
  exists md. split; [reflexivity |].
  destruct (readiness Sample.thirtyBars) as [| |r] eqn:Hr;
    [vm_compute in Hr; discriminate | vm_compute in Hr; discriminate |].
  destruct (trained_model_is_consulted constFit rampBars Sample.thirtyBars
              md r H Hr) as (_ & _ & Hne & _).
  exact Hne.
Defined.

Section NewsStructure.
Local Open Scope Q_scope.

Lemma impactVal_abs item : -25 <= MarketSentiment.impactVal item <= 25.
Proof.
  unfold MarketSentiment.impactVal.
  destruct (NewsItem.impact item), (NewsItem.sentiment item); simpl; lra.
Qed.

Lemma impactVal_direction item :
  (NewsItem.sentiment item = POSITIVE → 0 < MarketSentiment.impactVal item)
  ∧ (NewsItem.sentiment item = NEGATIVE → MarketSentiment.impactVal item < 0)
  ∧ (NewsItem.sentiment item = NEUTRAL → MarketSentiment.impactVal item == 0).
Proof.
  unfold MarketSentiment.impactVal.
  destruct (NewsItem.impact item), (NewsItem.sentiment item); simpl;
    split_and!; intros; try done; lra.
Qed.

Lemma addNews_step score item :
  -100 <= score <= 100 →
  let score' := MarketSentiment.addNews score item in
  -100 <= score' <= 100
  ∧ Qabs (score' - score) <= 25
  ∧ (NewsItem.sentiment item = POSITIVE → score <= score')
  ∧ (NewsItem.sentiment item = NEGATIVE → score' <= score)
  ∧ (NewsItem.sentiment item = NEUTRAL → score' == score).
Proof.
  intros Hs. unfold MarketSentiment.addNews.
  pose proof (impactVal_abs item) as Hiv.
  destruct (impactVal_direction item) as (Hpos & Hneg & Hneu).
  set (iv := MarketSentiment.impactVal item) in *. clearbody iv.
  unfold Num.Math_max, Num.Math_min. cbv zeta.
  repeat destruct (Qlt_le_dec _ _); split_and!;
    try (apply Qabs_case; intros _); try lra; intros H;
    try specialize (Hpos H); try specialize (Hneg H);
    try specialize (Hneu H); lra.
Qed.

Lemma template_index (random : Q) :
  0 <= random < 1 →
  (0 ≤ Num.Math_floor (random * 10) < 10)%Z.
Proof.
  intros [H0 H1]. unfold Num.Math_floor. split.
  - change 0%Z with (Qfloor 0). apply Qfloor_resp_le. lra.
  - pose proof (Qfloor_le (random * 10)) as Hle.
    rewrite Zlt_Qlt. change (inject_Z 10) with 10. lra.
Qed.

(** X24. For every value [Math.random] can return, [generateMarketNews]
    finds a template: the item carries one of the table's entries, the
    current time and the simulated source, and the sentiment state it
    leaves stays within [-100, 100], moves by at most 25, and moves only in
    the direction of the item's sentiment (not at all on NEUTRAL). *)
Theorem generateMarketNews_total (random : Q) (now : Z) (score : Q) :
  0 <= random < 1 →
  ∃ item,
    generateMarketNews random now score
    = Some (item, MarketSentiment.addNews score item)
    ∧ (NewsItem.headline item, NewsItem.sentiment item, NewsItem.impact item)
      ∈ NEWS_TEMPLATES
    ∧ NewsItem.timestamp item = now
    ∧ NewsItem.source item = "Bloomberg (Sim)"%string
    ∧ (-100 <= score <= 100 →
       let score' := MarketSentiment.addNews score item in
       -100 <= score' <= 100
       ∧ Qabs (score' - score) <= 25
       ∧ (NewsItem.sentiment item = POSITIVE → score <= score')
       ∧ (NewsItem.sentiment item = NEGATIVE → score' <= score)
       ∧ (NewsItem.sentiment item = NEUTRAL → score' == score)).
Proof.
  intros Hr. unfold generateMarketNews.
  change (inject_Z (Z.of_nat (length NEWS_TEMPLATES))) with 10.
  pose proof (template_index random Hr) as [Hlo Hhi].
  set (index := Num.Math_floor (random * 10)) in *.
  destruct (index <? 0)%Z eqn:Hneg; [apply Z.ltb_lt in Hneg; lia |].
  destruct (lookup_lt_is_Some_2 NEWS_TEMPLATES (Z.to_nat index))
    as [[[text sentiment] impact] Htemplate].
  { change (length NEWS_TEMPLATES) with 10%nat. lia. }
  cbv zeta. rewrite Htemplate.
  eexists. split; [reflexivity |].
  cbn [NewsItem.headline NewsItem.sentiment NewsItem.impact
       NewsItem.timestamp NewsItem.source].
  split_and!; [by eapply list_elem_of_lookup_2 | done | done |].
  apply addNews_step.
Qed.

End NewsStructure.

Lemma generateMarketNews_total_witness :
  ∃ item, generateMarketNews 0.35 1700000000000 0
          = Some (item, MarketSentiment.addNews 0 item)
          ∧ NewsItem.source item = "Bloomberg (Sim)"%string.
Proof.
  destruct (generateMarketNews_total 0.35 1700000000000 0)
    as (item & Hgen & _ & _ & Hsrc & _).
  { split; [discriminate | reflexivity]. }
  exists item. by split.
Defined.

(** ** The trade stream *)

Section FeedStructure.
Variable Math_sqrt : Q → Q.
Local Open Scope Q_scope.

Lemma formatToIST_minuteOfDay now :
  formatToIST now
  = twoDigits (minuteOfDay now / 60)%Z +:+ ":" +:+ twoDigits (minuteOfDay now mod 60)%Z.
Proof. reflexivity. Qed.

Lemma minuteOfDay_range now : (0 ≤ minuteOfDay now < 1440)%Z.
Proof. unfold minuteOfDay. apply Z.mod_pos_bound. lia. Qed.

Lemma minuteOfKey_table :
  forallb (λ m : nat,
             (minuteOfKey (twoDigits (Z.of_nat m / 60)%Z +:+ ":"
                           +:+ twoDigits (Z.of_nat m mod 60)%Z)
              =? Z.of_nat m)%Z)
          (seq 0 1440) = true.
Proof. vm_compute. reflexivity. Qed.

Lemma minuteOfKey_formatToIST now : minuteOfKey (formatToIST now) = minuteOfDay now.
Proof.
  rewrite formatToIST_minuteOfDay.
  pose proof (minuteOfDay_range now) as Hr.
  pose proof minuteOfKey_table as Htab.
  rewrite forallb_forall in Htab.
  specialize (Htab (Z.to_nat (minuteOfDay now))).
  rewrite Z2Nat.id in Htab by lia.
  apply Z.eqb_eq, Htab. apply in_seq. lia.
Qed.

(** Two instants print the same label exactly when they fall in the same
    minute of the day. *)
Lemma formatToIST_eq_iff now now' :
  formatToIST now = formatToIST now' ↔ minuteOfDay now = minuteOfDay now'.
Proof.
  split.
  - intros H. by rewrite <- !minuteOfKey_formatToIST, H.
  - intros H. by rewrite !formatToIST_minuteOfDay, H.
Qed.

Lemma minuteOfDay_next_day now : minuteOfDay (now + 86400000) = minuteOfDay now.
Proof.
  unfold minuteOfDay.
  replace (now + 86400000 + 19800000)%Z
    with (now + 19800000 + 1440 * 60000)%Z by lia.
  rewrite Z.div_add by lia. replace 1440%Z with (1 * 1440)%Z at 1 by lia.
  by rewrite Z.mod_add by lia.
Qed.


Lemma startCandle_ok price now : openBarOk (Feed.startCandle (formatToIST now) price now).
Proof.
  unfold openBarOk, wellFormedBar, Feed.startCandle. simpl.
  split_and!; try done; lra.
Qed.

Lemma updateCandle_ok c price : openBarOk c → openBarOk (Feed.updateCandle c price).
Proof.
  intros ([[Hlo Hho] [Hlc Hhc]] & Htime & Hbare).
  destruct (Math_max_spec (Candle.high c) price) as (HM1 & HM2 & _).
  destruct (Math_min_spec (Candle.low c) price) as (Hm1 & Hm2 & _).
  unfold openBarOk, wellFormedBar.
  split_and!; cbn [Feed.updateCandle Candle.low Candle.high Candle.open
                   Candle.close Candle.time Candle.timestamp]; try lra.
  - done.
  - clear -Hbare. destruct c. cbn in *. by injection Hbare as -> -> -> -> -> -> -> -> -> ->.
Qed.

Lemma onTrade_cases st price now envOf :
  let st' := Feed.onTrade Math_sqrt st price now envOf in
  match Feed.currentCandleRef st with
  | None =>
      st' = Feed.mk (Some (Feed.startCandle (formatToIST now) price now))
                    (Feed.app st)
  | Some c =>
      (Candle.time c = formatToIST now
       ∧ st' = Feed.mk (Some (Feed.updateCandle c price)) (Feed.app st))
      ∨ (Candle.time c ≠ formatToIST now
         ∧ st' = Feed.mk (Some (Feed.startCandle (formatToIST now) price now))
                         (App.step Math_sqrt (Feed.app st)
                                   (App.BarClose c envOf)))
  end.
Proof.
  unfold Feed.onTrade. destruct (Feed.currentCandleRef st) as [c|]; [| done].
  destruct (String.eqb (Candle.time c) (formatToIST now)) eqn:E; simpl.
  - apply String.eqb_eq in E. by left.
  - apply String.eqb_neq in E. by right.
Qed.

Lemma step_current_other st e :
  (∀ price now envOf, e ≠ Feed.Trade price now envOf) →
  Feed.currentCandleRef (Feed.step Math_sqrt st e) = Feed.currentCandleRef st.
Proof.
  intros Hne. destruct e as [price now envOf | now | hist | md | item];
    [by destruct (Hne price now envOf eq_refl) | | done | done | done].
  unfold Feed.step, Feed.onTimer.
  by destruct (Feed.currentCandleRef st) eqn:E.
Qed.

Lemma open_bar_facts (events : list Feed.event) :
  match Feed.currentCandleRef (Feed.run Math_sqrt events) with
  | Some c =>
      openBarOk c
      ∧ List.last (tradePrices events) (Candle.close c) = Candle.close c
      ∧ tradePrices events ≠ []
  | None => tradePrices events = []
  end.
Proof.
  unfold Feed.run. induction events as [|e events IH] using rev_ind; [done |].
  rewrite fold_left_app. simpl.
  set (st := fold_left (Feed.step Math_sqrt) events Feed.init) in *.
  unfold tradePrices in *. rewrite omap_app. simpl.
  destruct e as [price now envOf | now | hist | md | item].
  - assert (∀ l : list Q, (l ++ [price])%list ≠ []) as Hne
      by (intros [|? ?]; done).
    pose proof (onTrade_cases st price now envOf) as Hc. cbv zeta in Hc.
    cbn [Feed.step].
    destruct (Feed.currentCandleRef st) as [c|].
    + destruct IH as (Hok & _ & _).
      destruct Hc as [[_ ->] | [_ ->]]; cbn [Feed.currentCandleRef];
        rewrite last_last; split_and!; try done;
        [by apply updateCandle_ok | apply startCandle_ok].
    + rewrite Hc. cbn [Feed.currentCandleRef]. rewrite last_last.
      split_and!; try done. apply startCandle_ok.
  - rewrite step_current_other by done. simpl. by rewrite app_nil_r.
  - rewrite step_current_other by done. simpl. by rewrite app_nil_r.
  - rewrite step_current_other by done. simpl. by rewrite app_nil_r.
  - rewrite step_current_other by done. simpl. by rewrite app_nil_r.
Qed.

Lemma last_cons_default {A} (l : list A) : ∀ a d,
  List.last (a :: l) d = List.last l a.
Proof.
  induction l as [|b l IH]; intros a d; [done |].
  change (List.last (a :: b :: l) d) with (List.last (b :: l) d).
  by rewrite !IH.
Qed.

Lemma fold_updateCandle prices : ∀ key o h l c ts,
  fold_left Feed.updateCandle prices (Candle.bare key o h l c 0 ts)
  = Candle.bare key o (fold_left Num.Math_max prices h)
                (fold_left Num.Math_min prices l) (List.last prices c) 0 ts.
Proof.
  induction prices as [|p prices IH]; intros key o h l c ts; [done |].
  cbn [fold_left].
  change (Feed.updateCandle (Candle.bare key o h l c 0 ts) p)
    with (Candle.bare key o (Num.Math_max h p) (Num.Math_min l p) p 0 ts).
  by rewrite IH, last_cons_default.
Qed.

Lemma same_minute_fold now rest : ∀ c a,
  Candle.time c = formatToIST now →
  Forall (keepsMinute now) rest →
  Feed.currentCandleRef
    (fold_left (Feed.step Math_sqrt) rest (Feed.mk (Some c) a))
  = Some (fold_left Feed.updateCandle (tradePrices rest) c).
Proof.
  induction rest as [|e rest IH]; intros c a Htime Hall; [done |].
  apply Forall_cons in Hall as [He Hall]. cbn [fold_left].
  destruct e as [price now' envOf | now' | hist | md | item];
    try (unfold tradePrices; simpl; by apply IH).
  simpl in He. apply formatToIST_eq_iff in He.
  pose proof (onTrade_cases (Feed.mk (Some c) a) price now' envOf) as Hc.
  cbv zeta in Hc. cbn [Feed.currentCandleRef] in Hc.
  destruct Hc as [[_ Hst] | [Hne _]]; [| congruence].
  cbn [Feed.step]. rewrite Hst. unfold tradePrices. simpl.
  by apply IH.
Qed.

(** X25. The bar being formed: there is none exactly as long as no trade
    has arrived; once there is one, its low and high enclose its open and
    its close, it carries its own minute's label, volume 0 and no
    indicator field, and its close is the price of the latest trade. *)
Theorem open_bar_invariant (events : list Feed.event) :
  match Feed.currentCandleRef (Feed.run Math_sqrt events) with
  | Some c =>
      openBarOk c
      ∧ List.last (tradePrices events) (Candle.close c) = Candle.close c
      ∧ tradePrices events ≠ []
  | None => tradePrices events = []
  end.
Proof. apply open_bar_facts. Qed.

(** X26. A one-minute bar is the OHLC summary of its trades: after a trade
    that starts a bar, and any further events whose trades fall in the same
    minute, the bar opens at the first price, closes at the last, and its
    high and low are the maximum and the minimum of the prices. *)
Theorem minute_bar_is_ohlc_of_trades (st : Feed.state) (price : Q) (now : Z)
    (envOf : string → Env.t) (rest : list Feed.event) :
  (∀ c, Feed.currentCandleRef st = Some c → Candle.time c ≠ formatToIST now) →
  Forall (keepsMinute now) rest →
  let prices := tradePrices rest in
  Feed.currentCandleRef
    (fold_left (Feed.step Math_sqrt) rest
               (Feed.step Math_sqrt st (Feed.Trade price now envOf)))
  = Some (Candle.bare (formatToIST now) price
                      (Num.Math_max_list (price :: prices))
                      (Num.Math_min_list (price :: prices))
                      (List.last prices price) 0 now).
Proof.
  intros Hnew Hall prices.
  pose proof (onTrade_cases st price now envOf) as Hc. cbv zeta in Hc.
  cbn [Feed.step].
  assert (∃ a, Feed.onTrade Math_sqrt st price now envOf
               = Feed.mk (Some (Feed.startCandle (formatToIST now) price now)) a)
    as [a ->].
  { destruct (Feed.currentCandleRef st) as [c|]; [| eauto].
    destruct Hc as [[Heq _] | [_ ->]]; [| eauto].
    by destruct (Hnew c eq_refl Heq). }
  rewrite (same_minute_fold now rest
             (Feed.startCandle (formatToIST now) price now) a eq_refl Hall).
  unfold Feed.startCandle. by rewrite fold_updateCandle.
Qed.

(** X27. In every reachable state a trade updates the bar being formed when
    it falls in the same minute of the day as the bar's first trade, and
    otherwise hands exactly that bar to the bar-close pass and starts a new
    one.  The label is a time of day: the same minute one day later counts
    as the same minute. *)
Theorem bar_closes_iff_minute_changes (events : list Feed.event) (c : Candle.t)
    (price : Q) (now : Z) (envOf : string → Env.t) :
  let st := Feed.run Math_sqrt events in
  let st' := Feed.step Math_sqrt st (Feed.Trade price now envOf) in
  Feed.currentCandleRef st = Some c →
  (minuteOfDay now = minuteOfDay (Candle.timestamp c) →
   st' = Feed.mk (Some (Feed.updateCandle c price)) (Feed.app st))
  ∧ (minuteOfDay now ≠ minuteOfDay (Candle.timestamp c) →
     st' = Feed.mk (Some (Feed.startCandle (formatToIST now) price now))
                   (App.step Math_sqrt (Feed.app st) (App.BarClose c envOf)))
  ∧ minuteOfDay (Candle.timestamp c + 86400000)
    = minuteOfDay (Candle.timestamp c).
Proof.
  intros st st' Hcur.
  pose proof (open_bar_facts events) as Hinv. fold st in Hinv.
  rewrite Hcur in Hinv. destruct Hinv as ((_ & Htime & _) & _).
  pose proof (onTrade_cases st price now envOf) as Hc. cbv zeta in Hc.
  rewrite Hcur, Htime, formatToIST_eq_iff in Hc.
  split_and!; [| | apply minuteOfDay_next_day]; intros Hmin;
    destruct Hc as [[Heq Hst] | [Hne Hst]]; try done; congruence.
Qed.

End FeedStructure.

Lemma minute_bar_is_ohlc_of_trades_witness :
  Feed.currentCandleRef
    (fold_left (Feed.step Qabs)
               [Feed.Trade 5 1000 (λ _, Sample.env); Feed.Timer 2000;
                Feed.Trade 2 30000 (λ _, Sample.env)]
               (Feed.step Qabs Feed.init (Feed.Trade 3 0 (λ _, Sample.env))))
  = Some (Candle.bare (formatToIST 0) 3
            (Num.Math_max_list [3; 5; 2]%Q) (Num.Math_min_list [3; 5; 2]%Q)
            2 0 0).
Proof.
  apply (minute_bar_is_ohlc_of_trades Qabs Feed.init 3 0 (λ _, Sample.env)
           [Feed.Trade 5 1000 (λ _, Sample.env); Feed.Timer 2000;
            Feed.Trade 2 30000 (λ _, Sample.env)]).
  - intros c Hc. discriminate Hc.
  - repeat constructor.
Defined.

Lemma bar_closes_iff_minute_changes_witness :
  Feed.step Qabs (Feed.run Qabs [Feed.Trade 3 0 (λ _, Sample.env)])
            (Feed.Trade 4 86400000 (λ _, Sample.env))
  = Feed.mk (Some (Feed.updateCandle
                     (Feed.startCandle (formatToIST 0) 3 0) 4))
            (Feed.app (Feed.run Qabs [Feed.Trade 3 0 (λ _, Sample.env)])).
Proof.
  apply (proj1 (bar_closes_iff_minute_changes Qabs
                  [Feed.Trade 3 0 (λ _, Sample.env)]
                  (Feed.startCandle (formatToIST 0) 3 0) 4 86400000
                  (λ _, Sample.env) eq_refl)).
  reflexivity.
Defined.

(** ** Statistics, the log, the chart *)

Section DisplayStructure.
Local Open Scope Q_scope.

Lemma status_counts (signals : list Signal.t) :
  let finished := filter (λ s, Signal.status s ≠ PENDING) signals in
  (length (filter (λ s, Signal.status s = WIN) finished)
   + length (filter (λ s, Signal.status s = LOSS) finished)
   = length finished)%nat
  ∧ (length finished
     + length (filter (λ s, Signal.status s = PENDING) signals)
     = length signals)%nat.
Proof.
  induction signals as [|s signals [IH1 IH2]]; [done |].
  cbv zeta in *. rewrite !filter_cons.
  destruct (Signal.status s) eqn:Hs;
    repeat (case_decide; try done); simpl;
    rewrite ?filter_cons; repeat (case_decide; try congruence); simpl; lia.
Qed.

Lemma finished_counts (signals : list Signal.t) :
  let finished := filter (λ s, Signal.status s ≠ PENDING) signals in
  length (filter (λ s, Signal.status s = WIN) finished)
  = length (filter (λ s, Signal.status s = WIN) signals)
  ∧ length (filter (λ s, Signal.status s = LOSS) finished)
    = length (filter (λ s, Signal.status s = LOSS) signals).
Proof.
  induction signals as [|s signals [IH1 IH2]]; [done |].
  cbv zeta in *. rewrite !filter_cons.
  destruct (Signal.status s) eqn:Hs;
    repeat (case_decide; try done); simpl;
    rewrite ?filter_cons; repeat (case_decide; try congruence); simpl; lia.
Qed.

Lemma QofNat_nonneg n : 0 <= QofNat n.
Proof. unfold QofNat. change 0 with (inject_Z 0). rewrite <- Zle_Qle. lia. Qed.

Lemma QofNat_le n m : (n ≤ m)%nat → QofNat n <= QofNat m.
Proof. intros H. unfold QofNat. rewrite <- Zle_Qle. lia. Qed.

Lemma QofNat_pos n : (0 < n)%nat → 0 < QofNat n.
Proof. intros H. unfold QofNat. change 0 with (inject_Z 0). rewrite <- Zlt_Qlt. lia. Qed.

Lemma rate_range w t : (w ≤ t)%nat → (0 < t)%nat → 0 <= QofNat w / QofNat t * 100 <= 100.
Proof.
  intros Hle Hpos.
  pose proof (QofNat_nonneg w). pose proof (QofNat_le _ _ Hle).
  pose proof (QofNat_pos _ Hpos) as Ht.
  assert (0 <= QofNat w / QofNat t) by (apply Qle_shift_div_l; lra).
  assert (QofNat w / QofNat t <= 1) by (apply Qle_shift_div_r; lra).
  set (x := QofNat w / QofNat t) in *. lra.
Qed.

(** X28. The statistics updater either recomputes the counters from the
    signal list (total = number of signals, wins, losses and active by
    status, adding up to the total) or leaves the previous value untouched,
    and it does the latter only when the previous total equals the number
    of finished signals and the previous active count the number of pending
    ones.  The win rate stays within [0, 100] and a second run on the same
    signals changes nothing. *)
Theorem refreshStats_consistent (signals : list Signal.t) (prev : BotStats.t) :
  let r := refreshStats signals prev in
  let count (st : Status) :=
    length (filter (λ s, Signal.status s = st) signals) in
  ((BotStats.totalSignals r = length signals
    ∧ BotStats.wins r = count WIN
    ∧ BotStats.losses r = count LOSS
    ∧ BotStats.activeSignals r = count PENDING
    ∧ (BotStats.wins r + BotStats.losses r + BotStats.activeSignals r
       = length signals)%nat)
   ∨ (r = prev
      ∧ BotStats.totalSignals prev = (count WIN + count LOSS)%nat
      ∧ BotStats.activeSignals prev = count PENDING))
  ∧ (0 <= BotStats.winRate prev <= 100 → 0 <= BotStats.winRate r <= 100)
  ∧ refreshStats signals r = r.
Proof.
  cbv zeta.
  destruct (status_counts signals) as [Hwl Hfp]. cbv zeta in Hwl, Hfp.
  destruct (finished_counts signals) as [Hw Hl].
  unfold refreshStats.
  destruct (decide _) as [Hfire | Hquiet].
  - split_and!.
    + left. cbn [BotStats.totalSignals BotStats.wins BotStats.losses
                 BotStats.activeSignals]. split_and!; try done. lia.
    + intros _. cbn [BotStats.winRate].
      destruct (decide _); [| lra]. apply rate_range; lia.
    + cbn [BotStats.totalSignals BotStats.activeSignals BotStats.marketRegime
           BotStats.aiAccuracy BotStats.isTraining BotStats.lastNews].
      by destruct (decide _) as [_ | Hq].
  - split_and!; try done.
    + right. split; [done |]. lia.
    + by destruct (decide _).
Qed.

Lemma addLog_sliceLast (entries : list LogEntry.t) (e : LogEntry.t) :
  addLog (sliceLast entries 100) e = sliceLast (entries ++ [e])%list 100.
Proof.
  unfold addLog, sliceLast. simpl.
  rewrite drop_drop, length_drop, length_app. simpl.
  replace (length entries + 1 - 100)%nat with (length entries - 99)%nat by lia.
  rewrite drop_app_le by lia. f_equal. f_equal. lia.
Qed.

(** X29. The log holds the last hundred entries: after any sequence of
    [addLog] calls on the initially empty log it is exactly the last 100
    entries in order, and one call on any log leaves at most 100 entries
    with the new one last. *)
Theorem log_keeps_the_last_hundred (entries : list LogEntry.t) :
  fold_left addLog entries [] = sliceLast entries 100
  ∧ (length (fold_left addLog entries []) ≤ 100)%nat
  ∧ ∀ prev e, (length (addLog prev e) ≤ 100)%nat
              ∧ List.last (addLog prev e) e = e.
Proof.
  assert (fold_left addLog entries [] = sliceLast entries 100) as Hfold.
  { induction entries as [|e entries IH] using rev_ind; [done |].
    by rewrite fold_left_app, IH, <- addLog_sliceLast. }
  split_and!; [done | |].
  - rewrite Hfold, sliceLast_length; lia.
  - intros prev e. unfold addLog.
    rewrite length_app, sliceLast_length, last_last by lia. simpl. split; [lia | done].
Qed.

(** X30. When all prices are positive the chart's price axis strictly
    contains every low and high of the bars shown and the current price. *)
Theorem chart_domain_contains_prices (data : list Candle.t)
    (currentPrice : option Q) :
  (∀ c, c ∈ data → 0 < Candle.low c ∧ 0 < Candle.high c) →
  (∀ p, currentPrice = Some p → 0 < p) →
  let '(minPrice, maxPrice) := chartDomain data currentPrice in
  (∀ c, c ∈ data → minPrice < Candle.low c ∧ Candle.high c < maxPrice)
  ∧ (∀ p, currentPrice = Some p → minPrice < p < maxPrice).
Proof.
  intros Hdata Hcur. unfold chartDomain.
  set (pushed := match currentPrice with
                 | Some p => if Num.truthy (Some p) then [p] else []
                 | None => []
                 end).
  assert (∀ p, currentPrice = Some p → p ∈ pushed) as Hpushed.
  { intros p Hp. unfold pushed. rewrite Hp.
    specialize (Hcur p Hp). unfold Num.truthy, Num.falsy.
    destruct (Qeq_bool p 0) eqn:E; [| simpl; by left].
    apply Qeq_bool_iff in E. lra. }
  assert (∀ p, p ∈ pushed → 0 < p) as Hpos.
  { intros p. unfold pushed. destruct currentPrice as [q|]; [| by intros ?%elem_of_nil].
    destruct (Num.truthy (Some q)); [| by intros ?%elem_of_nil].
    intros ->%list_elem_of_singleton. by apply Hcur. }
  set (allLows := ((Candle.low <$> data) ++ pushed)%list).
  set (allHighs := ((Candle.high <$> data) ++ pushed)%list).
  assert (∀ x, x ∈ allLows →
               Num.Math_min_list allLows * 0.9995 < x) as Hlow.
  { intros x Hx.
    assert (allLows ≠ []) as Hne by (intros E; rewrite E in Hx; by apply elem_of_nil in Hx).
    destruct (Math_min_list_isMin allLows Hne) as [Hin Hmin].
    assert (0 < Num.Math_min_list allLows) as Hp.
    { apply elem_of_app in Hin as [Hin | Hin]; [| by apply Hpos].
      apply list_elem_of_fmap in Hin as (c & -> & Hc). by apply Hdata. }
    specialize (Hmin x Hx). lra. }
  assert (∀ x, x ∈ allHighs →
               x < Num.Math_max_list allHighs * 1.0005) as Hhigh.
  { intros x Hx.
    assert (allHighs ≠ []) as Hne by (intros E; rewrite E in Hx; by apply elem_of_nil in Hx).
    destruct (Math_max_list_isMax allHighs Hne) as [Hin Hmax].
    assert (0 < Num.Math_max_list allHighs) as Hp.
    { apply elem_of_app in Hin as [Hin | Hin]; [| by apply Hpos].
      apply list_elem_of_fmap in Hin as (c & -> & Hc). by apply Hdata. }
    specialize (Hmax x Hx). lra. }
  split.
  - intros c Hc. split; [apply Hlow | apply Hhigh];
      apply elem_of_app; left; apply list_elem_of_fmap; eauto.
  - intros p Hp. split; [apply Hlow | apply Hhigh];
      apply elem_of_app; right; by apply Hpushed.
Qed.

End DisplayStructure.

Lemma chart_domain_contains_prices_witness :
  let '(minPrice, maxPrice) := chartDomain Sample.fiveBars (Some 3%Q) in
  (∀ c, c ∈ Sample.fiveBars →
        (minPrice < Candle.low c)%Q ∧ (Candle.high c < maxPrice)%Q)
  ∧ (∀ p, Some 3%Q = Some p → (minPrice < p < maxPrice)%Q).
Proof.
  apply (chart_domain_contains_prices Sample.fiveBars (Some 3%Q)).
  - intros c Hc. unfold Sample.fiveBars in Hc.
    apply list_elem_of_fmap in Hc as (k & -> & Hk).
    repeat (apply elem_of_cons in Hk as [-> | Hk]; [split; reflexivity |]).
    by apply elem_of_nil in Hk.
  - intros p [= <-]. reflexivity.
Defined.
